(** * pixelterm: image to character-art conversion

    A shallow embedding of the conversion routines of the four program
    variants found in the repository:

    - [Legacy]      fixed 0.5 aspect factor, one pixel per cell
                    (src/main.go, src/unnamed/part_000);
    - [Sequential]  configurable scale, one pixel per cell, rows built by a
                    plain loop (src/unnamed/part_002);
    - [Parallel]    configurable scale, strided block average per cell, one
                    goroutine per row with a channel fan-in
                    (src/unnamed/part_001).

    Go's [int] is taken to be the 64-bit two's complement type of the usual
    targets; [uint32], [uint64] and [uint8] wrap modulo their width;
    [float64] is IEEE-754 binary64 with round-to-nearest-even, as given by
    the executable specification [SpecFloat] of the standard library.  A
    run-time panic, and a float to int conversion whose result the language
    leaves to the implementation, are both the result [None]. *)

From Stdlib Require Import ZArith Lia Ascii String Floats.SpecFloat.
From stdpp Require Import base option list list_numbers strings pretty relations.

Local Open Scope Z_scope.

(** ** Machine arithmetic *)

Module Go.

Definition int_min : Z := - 2 ^ 63.
Definition int_max : Z := 2 ^ 63 - 1.

(** Two's complement wrap-around of a 64-bit signed result. *)
Definition wrap_int (n : Z) : Z := (n + 2 ^ 63) mod 2 ^ 64 - 2 ^ 63.
Definition wrap_uint8 (n : Z) : Z := n mod 2 ^ 8.
Definition wrap_uint32 (n : Z) : Z := n mod 2 ^ 32.
Definition wrap_uint64 (n : Z) : Z := n mod 2 ^ 64.

Definition int_add (a b : Z) : Z := wrap_int (a + b).
Definition int_sub (a b : Z) : Z := wrap_int (a - b).
Definition int_mul (a b : Z) : Z := wrap_int (a * b).
(** Integer division truncates toward zero.  Every division of the program
    sits inside a loop that only runs when its divisor is positive, or
    divides by a literal, so the division-by-zero panic is not modelled. *)
Definition int_div (a b : Z) : Z := wrap_int (a ÷ b).

Definition uint32_add (a b : Z) : Z := wrap_uint32 (a + b).
Definition uint32_mul (a b : Z) : Z := wrap_uint32 (a * b).
Definition uint32_div (a b : Z) : Z := a / b.

Definition uint64_add (a b : Z) : Z := wrap_uint64 (a + b).
Definition uint64_mul (a b : Z) : Z := wrap_uint64 (a * b).
Definition uint64_div (a b : Z) : Z := a / b.
(** [a /= b] with a divisor that is not a literal: panics when it is zero. *)
Definition uint64_quo (a b : Z) : option Z := if b =? 0 then None else Some (a / b).

(** *** float64 *)

Definition float64 : Type := spec_float.

Definition float64_of_int (n : Z) : float64 := binary_normalize 53 1024 n 0 false.
Definition float64_mul : float64 → float64 → float64 := SFmul 53 1024.
Definition float64_div : float64 → float64 → float64 := SFdiv 53 1024.

(** The magnitude of a finite float, truncated toward zero. *)
Definition trunc_magnitude (m : positive) (e : Z) : Z :=
  match e with
  | Zneg p => Z.shiftr (Zpos m) (Zpos p)
  | _ => Z.shiftl (Zpos m) e
  end.

(** [int(f)]: the fraction is discarded.  When the truncated value does not
    fit an [int] (also for infinities and NaN) the language makes the result
    implementation-dependent: [None]. *)
Definition int_of_float64 (f : float64) : option Z :=
  match f with
  | S754_zero _ => Some 0
  | S754_finite s m e =>
      let a := trunc_magnitude m e in
      let n := if s then - a else a in
      if (int_min <=? n) && (n <=? int_max) then Some n else None
  | S754_infinity _ | S754_nan => None
  end.

(** The float64 constants of the sources. *)
Definition f0_5 : float64 := S754_finite false 4503599627370496 (-53).
Definition f0_15 : float64 := S754_finite false 5404319552844595 (-55).
Definition f1_0 : float64 := S754_finite false 4503599627370496 (-52).
(** [-0.5], a scale the flag parser accepts. *)
Definition fneg0_5 : float64 := S754_finite true 4503599627370496 (-53).

(** [make([]string, n)] panics (len out of range) on a negative length,
    and on a length whose 16-byte string headers exceed the allocation
    limit of the runtime, [2 ^ 48] bytes on linux/amd64 and the other
    64-bit targets with 48-bit heap addresses: [n * 16 > 2 ^ 48]. *)
Definition make_strings (n : Z) : option (list string) :=
  if (n <? 0) || (2 ^ 44 <? n) then None
  else Some (replicate (Z.to_nat n) EmptyString).

(** [s[i] = v] on a slice panics outside [0, len s). *)
Definition set_index (s : list string) (i : Z) (v : string) : option (list string) :=
  if (0 <=? i) && (i <? Z.of_nat (length s)) then Some (<[Z.to_nat i := v]> s) else None.

(** [s[i]] on a string yields the byte at [i] and panics outside [0, len s). *)
Definition string_index (s : string) (i : Z) : option ascii :=
  if i <? 0 then None else String.get (Z.to_nat i) s.

(** [string(b)] for a byte [b] below 128 is the one-byte string. *)
Definition string_of_byte (b : ascii) : string := String b EmptyString.

(** The counted loop [for i := 0; i < n; i++ { s = body i s }]. *)
Definition for_range {S : Type} (n : Z) (body : Z → S → S) (s : S) : S :=
  foldl (λ acc i, body i acc) s (seqZ 0 n).

(** The strided loop [for i := lo; i < hi; i += step { s = body i s }]; the
    fuel [hi - lo] is enough whenever [step] is positive. *)
Fixpoint stride_loop {S : Type} (fuel : nat) (i hi step : Z)
    (body : Z → S → S) (s : S) : S :=
  match fuel with
  | O => s
  | Datatypes.S k =>
      if i <? hi then stride_loop k (int_add i step) hi step body (body i s) else s
  end.

Definition for_stride {S : Type} (lo hi step : Z) (body : Z → S → S) (s : S) : S :=
  stride_loop (Z.to_nat (hi - lo)) lo hi step body s.

(** The values the loop variable of [for_stride] takes, in order. *)
Definition stride_points (lo hi step : Z) : list Z :=
  for_stride lo hi step (λ i acc, acc ++ [i]) [].

End Go.

Import Go.

(** ** Pixel grid *)

(** The result of [color.Color.RGBA()], alpha dropped: three [uint32]
    channels, each in [0, 0xffff] by the interface's contract. *)
Record Color : Type := mkColor { red : Z; green : Z; blue : Z }.

(** A decoded [image.Image]: the extent of its bounds, whose minimum the
    decoders put at the origin, and the colour at each coordinate. *)
Record Image : Type := mkImage { Dx : Z; Dy : Z; At : Z → Z → Color }.

Definition channel_ok (c : Z) : Prop := 0 ≤ c ≤ 65535.
Definition color_ok (c : Color) : Prop :=
  channel_ok (red c) ∧ channel_ok (green c) ∧ channel_ok (blue c).
Definition image_ok (img : Image) : Prop :=
  0 < Dx img ∧ 0 < Dy img ∧ ∀ x y, color_ok (At img x y).

(** An image given by its rows; outside the grid the colour is the zero
    colour, as for the standard image types. *)
Definition black : Color := mkColor 0 0 0.
Definition white : Color := mkColor 65535 65535 65535.

Definition grid_at (rows : list (list Color)) (x y : Z) : Color :=
  if (x <? 0) || (y <? 0) then black
  else default black (row ← rows !! Z.to_nat y; row !! Z.to_nat x).

Definition image_of_grid (w h : Z) (rows : list (list Color)) : Image :=
  mkImage w h (grid_at rows).

(** Every pixel inside the bounds has the colour [c]. *)
Definition uniform (img : Image) (c : Color) : Prop :=
  ∀ x y, 0 ≤ x < Dx img → 0 ≤ y < Dy img → At img x y = c.

(** ** Parts shared by all variants *)

(** ASCII palette from dark to light. *)
Definition palette : string := "@%#*+=-:. ".
Definition palette_len : Z := Z.of_nat (String.length palette).

Definition ESC : ascii := ascii_of_nat 27.
(** The prefix [ESC[38;2;] and the reset [ESC[0m]. *)
Definition truecolor_prefix : string := String ESC "[38;2;".
Definition reset : string := String ESC "[0m".

(** [height := int(float64(imgHeight) * float64(width) / float64(imgWidth) * scale)]
    followed by [if height == 0 { height = 1 }]. *)
Definition outputHeight (imgHeight width imgWidth : Z) (scale : float64) : option Z :=
  height ← int_of_float64
    (float64_mul
       (float64_div
          (float64_mul (float64_of_int imgHeight) (float64_of_int width))
          (float64_of_int imgWidth))
       scale);
  Some (if height =? 0 then 1 else height).

(** [gray := (299*r + 587*g + 114*b) / 1000 / 256] on [uint32] operands. *)
Definition gray32 (r g b : Z) : Z :=
  uint32_div
    (uint32_div
       (uint32_add (uint32_add (uint32_mul 299 r) (uint32_mul 587 g)) (uint32_mul 114 b))
       1000)
    256.

(** [charIndex := int(gray) * (len(palette) - 1) / 255]. *)
Definition charIndex (gray : Z) : Z :=
  int_div (int_mul gray (int_sub palette_len 1)) 255.

(** [fmt.Sprintf("\x1b[38;2;%d;%d;%dm%c\x1b[0m", r8, g8, b8, char)]. *)
Definition sprintf_cell (r8 g8 b8 : Z) (char : ascii) : string :=
  truecolor_prefix +:+ pretty r8 +:+ ";" +:+ pretty g8 +:+ ";" +:+ pretty b8
    +:+ "m" +:+ string_of_byte char +:+ reset.

(** The concatenation of the pieces of a line. *)
Definition concat_strings (pieces : list string) : string :=
  foldr String.append EmptyString pieces.

(** The inner loop [line := ""; for x := 0; x < width; x++ { line += cell x }]. *)
Definition build_line (width : Z) (cell : Z → option string) : option string :=
  for_range width (λ x line, l ← line; c ← cell x; Some (l +:+ c)) (Some EmptyString).

(** [result := make([]string, height)] and the outer loop
    [for y := 0; y < height; y++ { ...; result[y] = line }]. *)
Definition build_rows (height : Z) (line : Z → option string) : option (list string) :=
  result ← make_strings height;
  for_range height (λ y res, r ← res; l ← line y; set_index r y l) (Some result).

(** The source pixel of cell [(x, y)] in the one-pixel-per-cell variants:
    [imgX := x * imgWidth / width; imgY := y * imgHeight / height]. *)
Definition pixel_of_cell (img : Image) (width height x y : Z) : Color :=
  let imgX := int_div (int_mul x (Dx img)) width in
  let imgY := int_div (int_mul y (Dy img)) height in
  At img imgX imgY.

(** The palette index of a cell of those variants. *)
Definition pixel_index (img : Image) (width height x y : Z) : Z :=
  let c := pixel_of_cell img width height x y in
  charIndex (gray32 (red c) (green c) (blue c)).

(** [line += string(palette[charIndex])]. *)
Definition pixel_cell (img : Image) (width height x y : Z) : option string :=
  char ← string_index palette (pixel_index img width height x y);
  Some (string_of_byte char).

(** The colour-mode cell: [r8 := uint8(r >> 8)] and so on, then the escape. *)
Definition pixel_color_cell (img : Image) (width height x y : Z) : option string :=
  let c := pixel_of_cell img width height x y in
  let r8 := wrap_uint8 (Z.shiftr (red c) 8) in
  let g8 := wrap_uint8 (Z.shiftr (green c) 8) in
  let b8 := wrap_uint8 (Z.shiftr (blue c) 8) in
  char ← string_index palette (pixel_index img width height x y);
  Some (sprintf_cell r8 g8 b8 char).

(** ** src/main.go and src/unnamed/part_000: fixed aspect factor *)

Module Legacy.

Definition toASCII (img : Image) (width : Z) : option (list string) :=
  height ← outputHeight (Dy img) width (Dx img) f0_5;
  build_rows height (λ y, build_line width (λ x, pixel_cell img width height x y)).

Definition colorASCII (img : Image) (width : Z) : option (list string) :=
  height ← outputHeight (Dy img) width (Dx img) f0_5;
  build_rows height (λ y, build_line width (λ x, pixel_color_cell img width height x y)).

End Legacy.

(** ** src/unnamed/part_002: configurable scale, sequential rows *)

Module Sequential.

Definition toASCII (img : Image) (width : Z) (scale : float64) : option (list string) :=
  height ← outputHeight (Dy img) width (Dx img) scale;
  build_rows height (λ y, build_line width (λ x, pixel_cell img width height x y)).

Definition colorASCII (img : Image) (width : Z) (scale : float64) : option (list string) :=
  height ← outputHeight (Dy img) width (Dx img) scale;
  build_rows height (λ y, build_line width (λ x, pixel_color_cell img width height x y)).

End Sequential.

(** ** src/unnamed/part_001: block average, one goroutine per row *)

Module Parallel.

(** [var rSum, gSum, bSum uint64] and [pixelCount := 0]. *)
Record sums : Type := mkSums { rSum : Z; gSum : Z; bSum : Z; pixelCount : Z }.

(** [imgX := x * imgWidth / width], and the same for rows. *)
Definition block_start (i extent n : Z) : Z := int_div (int_mul i extent) n.

(** [imgXEnd := (x + 1) * imgWidth / width] followed by
    [if imgXEnd > imgWidth { imgXEnd = imgWidth }]. *)
Definition block_end (i extent n : Z) : Z :=
  let e := int_div (int_mul (int_add i 1) extent) n in
  if extent <? e then extent else e.

(** [strideX := (imgXEnd - imgX) / 3] followed by
    [if strideX < 1 { strideX = 1 }]. *)
Definition stride (lo hi : Z) : Z :=
  let s := int_div (int_sub hi lo) 3 in
  if s <? 1 then 1 else s.

(** The two nested strided loops over the block, for any loop body. *)
Definition block_loop {S : Type} (imgX imgXEnd imgY imgYEnd : Z)
    (body : Z → Z → S → S) (s : S) : S :=
  let strideX := stride imgX imgXEnd in
  let strideY := stride imgY imgYEnd in
  for_stride imgY imgYEnd strideY
    (λ py acc, for_stride imgX imgXEnd strideX (λ px acc, body px py acc) acc) s.

(** The body of the sampling loops: [r, g, b, _ := img.At(px, py).RGBA()],
    three sums and [pixelCount++]. *)
Definition add_sample (c : Color) (s : sums) : sums :=
  mkSums (uint64_add (rSum s) (red c)) (uint64_add (gSum s) (green c))
         (uint64_add (bSum s) (blue c)) (int_add (pixelCount s) 1).

Definition sample_block (img : Image) (imgX imgXEnd imgY imgYEnd : Z) : sums :=
  block_loop imgX imgXEnd imgY imgYEnd (λ px py acc, add_sample (At img px py) acc)
    (mkSums 0 0 0 0).

(** The coordinates the sampling loops visit, in order. *)
Definition sample_points (imgX imgXEnd imgY imgYEnd : Z) : list (Z * Z) :=
  block_loop imgX imgXEnd imgY imgYEnd (λ px py acc, acc ++ [(px, py)]) [].

(** [if pixelCount > 0 { rSum /= uint64(pixelCount); ... }]. *)
Definition average (s : sums) : option sums :=
  if 0 <? pixelCount s then
    let n := wrap_uint64 (pixelCount s) in
    r ← uint64_quo (rSum s) n;
    g ← uint64_quo (gSum s) n;
    b ← uint64_quo (bSum s) n;
    Some (mkSums r g b (pixelCount s))
  else Some s.

(** The sampling window of a cell: [(imgX, imgXEnd, imgY, imgYEnd)]. *)
Definition window (img : Image) (width height rowIndex x : Z) : Z * Z * Z * Z :=
  (block_start x (Dx img) width, block_end x (Dx img) width,
   block_start rowIndex (Dy img) height, block_end rowIndex (Dy img) height).

(** The sums of the cell in column [x] of row [rowIndex] after sampling. *)
Definition cell_sums (img : Image) (width height rowIndex x : Z) : sums :=
  let '(imgX, imgXEnd, imgY, imgYEnd) := window img width height rowIndex x in
  sample_block img imgX imgXEnd imgY imgYEnd.

(** The same after the averaging step. *)
Definition cell_average (img : Image) (width height rowIndex x : Z) : option sums :=
  average (cell_sums img width height rowIndex x).

(** [gray := (299*rSum + 587*gSum + 114*bSum) / 1000 / 256] on [uint64]. *)
Definition gray64 (r g b : Z) : Z :=
  uint64_div
    (uint64_div
       (uint64_add (uint64_add (uint64_mul 299 r) (uint64_mul 587 g)) (uint64_mul 114 b))
       1000)
    256.

(** The palette index of averaged sums; [int(gray)] converts from [uint64]. *)
Definition glyph_index (a : sums) : Z :=
  charIndex (wrap_int (gray64 (rSum a) (gSum a) (bSum a))).

Definition plain_cell (img : Image) (width height rowIndex x : Z) : option string :=
  a ← cell_average img width height rowIndex x;
  char ← string_index palette (glyph_index a);
  Some (string_of_byte char).

Definition color_cell (img : Image) (width height rowIndex x : Z) : option string :=
  a ← cell_average img width height rowIndex x;
  let r8 := wrap_uint8 (Z.shiftr (rSum a) 8) in
  let g8 := wrap_uint8 (Z.shiftr (gSum a) 8) in
  let b8 := wrap_uint8 (Z.shiftr (bSum a) 8) in
  char ← string_index palette (glyph_index a);
  Some (sprintf_cell r8 g8 b8 char).

(** The body of the goroutine of row [rowIndex], up to its send. *)
Definition plain_row (img : Image) (width height rowIndex : Z) : option string :=
  build_line width (plain_cell img width height rowIndex).

Definition color_row (img : Image) (width height rowIndex : Z) : option string :=
  build_line width (color_cell img width height rowIndex).

(** *** The row scheduler *)

Record rowResult : Type := mkRowResult { index : Z; line : string }.

(** What the goroutine of [rowIndex] sends; a panic in a goroutine takes the
    whole program down. *)
Definition row_message (row : Z → option string) (rowIndex : Z) : option rowResult :=
  l ← row rowIndex; Some (mkRowResult rowIndex l).

(** [res := <-resultChan; result[res.index] = res.line]. *)
Definition receive (result : list string) (res : rowResult) : option (list string) :=
  set_index result (index res) (line res).

(** The collecting loop run on the messages in the order of their arrival. *)
Definition collect (result : list string) (arrived : list rowResult) : option (list string) :=
  foldl (λ acc res, r ← acc; receive r res) (Some result) arrived.

(** The conversion when the row goroutines complete in the order [order]:
    the channel is buffered for [height] messages, no send blocks, and the
    collector receives the messages in the order they were sent. *)
Definition run_rows (height : Z) (row : Z → option string) (order : list Z)
    : option (list string) :=
  result ← make_strings height;
  arrived ← mapM (row_message row) order;
  collect result arrived.

Definition toASCII (img : Image) (width : Z) (scale : float64) (order : list Z)
    : option (list string) :=
  height ← outputHeight (Dy img) width (Dx img) scale;
  run_rows height (plain_row img width height) order.

Definition colorASCII (img : Image) (width : Z) (scale : float64) (order : list Z)
    : option (list string) :=
  height ← outputHeight (Dy img) width (Dx img) scale;
  run_rows height (color_row img width height) order.

(** A completion order is any arrangement of the row indices. *)
Definition schedule (height : Z) (order : list Z) : Prop := order ≡ₚ seqZ 0 height.

(** *** The scheduler as a transition system

    The goroutines that have not sent yet, the buffered channel, the result
    slice and the collector's loop counter. *)
Record sched : Type := mkSched {
  running : list Z;
  resultChan : list rowResult;
  result : list string;
  received : Z
}.

(** One move of the system; [None] is the program brought down by a panic. *)
Inductive step (height : Z) (row : Z → option string) : sched → option sched → Prop :=
  | step_send s pre rowIndex post res :
      running s = pre ++ rowIndex :: post →
      row_message row rowIndex = Some res →
      Z.of_nat (length (resultChan s)) < height →
      step height row s
        (Some (mkSched (pre ++ post) (resultChan s ++ [res]) (result s) (received s)))
  | step_panic s rowIndex :
      rowIndex ∈ running s →
      row rowIndex = None →
      step height row s None
  | step_receive s res rest :
      received s < height →
      resultChan s = res :: rest →
      step height row s
        (r ← receive (result s) res;
         Some (mkSched (running s) rest r (received s + 1))).

Definition moves (height : Z) (row : Z → option string) (s s' : sched) : Prop :=
  step height row s (Some s').

(** All goroutines launched, nothing sent, nothing received. *)
Definition launched (height : Z) (result : list string) : sched :=
  mkSched (seqZ 0 height) [] result 0.

(** The rows [out] are returned by some run of the scheduler. *)
Definition returns (height : Z) (row : Z → option string) (out : list string) : Prop :=
  ∃ result s,
    make_strings height = Some result ∧
    rtc (moves height row) (launched height result) s ∧
    received s = height ∧
    out = Parallel.result s.

(** Some run of the scheduler ends in a panic. *)
Definition may_panic (height : Z) (row : Z → option string) : Prop :=
  ∃ result s,
    make_strings height = Some result ∧
    rtc (moves height row) (launched height result) s ∧
    step height row s None.

(** The conversions as runs of the scheduler. *)
Definition toASCII_returns (img : Image) (width : Z) (scale : float64)
    (out : list string) : Prop :=
  ∃ height,
    outputHeight (Dy img) width (Dx img) scale = Some height
    ∧ returns height (plain_row img width height) out.

Definition colorASCII_returns (img : Image) (width : Z) (scale : float64)
    (out : list string) : Prop :=
  ∃ height,
    outputHeight (Dy img) width (Dx img) scale = Some height
    ∧ returns height (color_row img width height) out.

End Parallel.

(** ** The output stage of [main] (src/unnamed/part_001, part_002) *)

Module Main.

(** [strings.Join(elems, sep)]. *)
Fixpoint strings_Join (elems : list string) (sep : string) : string :=
  match elems with
  | [] => EmptyString
  | s :: rest =>
      match rest with
      | [] => s
      | _ :: _ => s +:+ sep +:+ strings_Join rest sep
      end
  end.

Definition newline : string := String (ascii_of_nat 10) EmptyString.

(** [output := strings.Join(art, "\n") + "\n"]: the bytes written to the
    file named by [-save]. *)
Definition saved_output (art : list string) : string :=
  strings_Join art newline +:+ newline.

(** [for _, line := range art { fmt.Println(line) }]: the bytes written to
    the standard output. *)
Definition printed_output (art : list string) : string :=
  foldl (λ out line, out +:+ line +:+ newline) EmptyString art.

(** [if *color { art = colorASCII(...) } else { art = toASCII(...) }], for
    the sequential file and, given the completion order, the parallel one. *)
Definition sequential_art (color : bool) (img : Image) (width : Z) (scale : float64)
    : option (list string) :=
  if color then Sequential.colorASCII img width scale
  else Sequential.toASCII img width scale.

Definition parallel_art (color : bool) (img : Image) (width : Z) (scale : float64)
    (order : list Z) : option (list string) :=
  if color then Parallel.colorASCII img width scale order
  else Parallel.toASCII img width scale order.

End Main.

(** A decimal digit. *)
Definition is_digit (c : ascii) : Prop := In c (list_ascii_of_string "0123456789").

(** The glyph of a colour cell given by its components. *)
Definition cell_glyph (cell : Z * Z * Z * ascii) : ascii := cell.2.

(** The escape-wrapped text of a colour cell given by its components. *)
Definition cell_text (cell : Z * Z * Z * ascii) : string :=
  sprintf_cell cell.1.1.1 cell.1.1.2 cell.1.2 cell.2.

(** The number of line feeds in a text. *)
Fixpoint count_newlines (s : string) : nat :=
  match s with
  | EmptyString => O
  | String c rest =>
      if Ascii.eqb c (ascii_of_nat 10) then S (count_newlines rest)
      else count_newlines rest
  end.

(** ** The output height in the words of the specification *)

(** The value of a finite float as a fraction [(numerator, denominator)]. *)
Definition float64_fraction (f : float64) : Z * Z :=
  match f with
  | S754_finite s m e =>
      let n := if s then Zneg m else Zpos m in
      match e with
      | Zneg p => (n, 2 ^ Zpos p)
      | _ => (n * 2 ^ e, 1)
      end
  | _ => (0, 1)
  end.

(** [floor(H * W_out / W * s)] in exact arithmetic, 0 replaced by 1. *)
Definition spec_height (H W_out W : Z) (s : float64) : Z :=
  let '(n, d) := float64_fraction s in
  let h := (H * W_out * n) / (W * d) in
  if h =? 0 then 1 else h.

(** ** Concrete inputs used in the examples *)

(** A 2x2 image, left column black, right column white. *)
Definition split22 : Image :=
  image_of_grid 2 2 [[black; white]; [black; white]].

(** A 2x2 image, all white. *)
Definition white22 : Image :=
  image_of_grid 2 2 [[white; white]; [white; white]].

(** ** Predicates used in the statements *)

(** Dimensions that keep every coordinate product inside an [int]. *)
Definition dim_ok (n : Z) : Prop := 0 < n < 2 ^ 31.

(** A well-formed image with its output geometry. *)
Definition config_ok (img : Image) (width height : Z) : Prop :=
  image_ok img ∧ dim_ok (Dx img) ∧ dim_ok (Dy img) ∧ dim_ok width ∧ dim_ok height.

(** The cell in column [x] of row [y] lies in the output grid. *)
Definition in_grid (width height x y : Z) : Prop := 0 ≤ x < width ∧ 0 ≤ y < height.

(** A float that is not negative: [+0], a positive finite number, [+Inf]
    (NaN carries no sign). *)
Definition float64_nonneg (f : float64) : Prop :=
  match f with
  | S754_zero s | S754_finite s _ _ | S754_infinity s => s = false
  | S754_nan => True
  end.

Definition window_ok (w : Z * Z * Z * Z) : Prop :=
  let '(imgX, imgXEnd, imgY, imgYEnd) := w in
  0 ≤ imgX ≤ imgXEnd ∧ imgXEnd < 2 ^ 31 ∧ 0 ≤ imgY ≤ imgYEnd ∧ imgYEnd < 2 ^ 31.

(** The window has no column or no row. *)
Definition window_empty (w : Z * Z * Z * Z) : Prop :=
  let '(imgX, imgXEnd, imgY, imgYEnd) := w in imgXEnd ≤ imgX ∨ imgYEnd ≤ imgY.

Definition zero_sums : Parallel.sums := Parallel.mkSums 0 0 0 0.

(** Sums of [n] samples of 16-bit channels. *)
Definition bounded_sums (n : Z) (s : Parallel.sums) : Prop :=
  Parallel.pixelCount s = n ∧ 0 ≤ Parallel.rSum s ≤ 65535 * n
  ∧ 0 ≤ Parallel.gSum s ≤ 65535 * n ∧ 0 ≤ Parallel.bSum s ≤ 65535 * n.

(** Sums of [n] samples of the one colour [c]. *)
Definition uniform_sums (c : Color) (n : Z) (s : Parallel.sums) : Prop :=
  Parallel.pixelCount s = n ∧ Parallel.rSum s = red c * n
  ∧ Parallel.gSum s = green c * n ∧ Parallel.bSum s = blue c * n.

(** The palette index of a colour, in unbounded arithmetic. *)
Definition luminance_index (c : Color) : Z :=
  (299 * red c + 587 * green c + 114 * blue c) / 1000 / 256 * 9 / 255.

Definition in_palette (c : ascii) : Prop := In c (list_ascii_of_string palette).

(** A plain row: [width] palette characters. *)
Definition plain_row_shape (width : Z) (row : string) : Prop :=
  Z.of_nat (String.length row) = width
  ∧ Forall in_palette (list_ascii_of_string row).

(** A colour row: [width] palette characters, each between a truecolor
    escape with 8-bit components and a reset. *)
Definition color_row_shape (width : Z) (row : string) : Prop :=
  ∃ cells : list (Z * Z * Z * ascii),
    row = concat_strings ((λ '(r, g, b, c), sprintf_cell r g b c) <$> cells)
    ∧ Z.of_nat (length cells) = width
    ∧ Forall (λ '(r, g, b, c),
        0 ≤ r ≤ 255 ∧ 0 ≤ g ≤ 255 ∧ 0 ≤ b ≤ 255 ∧ in_palette c) cells.

(** What holds of every state a run of the scheduler can reach; [got] lists
    the indices of the messages received so far. *)
Definition invariant (height : Z) (row : Z → option string) (s : Parallel.sched) : Prop :=
  ∃ got : list Z,
    Parallel.running s ++ (Parallel.index <$> Parallel.resultChan s) ++ got
      ≡ₚ seqZ 0 height
    ∧ Parallel.received s = Z.of_nat (length got)
    ∧ length (Parallel.result s) = Z.to_nat height
    ∧ Forall (λ m, row (Parallel.index m) = Some (Parallel.line m)) (Parallel.resultChan s)
    ∧ Forall (λ i, Parallel.result s !! Z.to_nat i = row i) got.

(** Twice the goroutines still to send plus the messages still to receive. *)
Definition pending_work (s : Parallel.sched) : nat :=
  (2 * length (Parallel.running s) + length (Parallel.resultChan s))%nat.

(** * Properties *)

(** ** Machine arithmetic without wrap-around *)

Section Arithmetic.

Lemma wrap_int_small n : int_min ≤ n ≤ int_max → wrap_int n = n.
Proof.
  unfold int_min, int_max, wrap_int. intros H.
  rewrite Z.mod_small; lia.
Qed.

Lemma wrap_int_range n : int_min ≤ wrap_int n ≤ int_max.
Proof.
  unfold int_min, int_max, wrap_int.
  pose proof (Z.mod_pos_bound (n + 2 ^ 63) (2 ^ 64)). lia.
Qed.

Lemma wrap_uint64_small n : 0 ≤ n < 2 ^ 64 → wrap_uint64 n = n.
Proof. intros. unfold wrap_uint64. apply Z.mod_small. lia. Qed.

Lemma wrap_uint32_small n : 0 ≤ n < 2 ^ 32 → wrap_uint32 n = n.
Proof. intros. unfold wrap_uint32. apply Z.mod_small. lia. Qed.

Lemma wrap_uint8_small n : 0 ≤ n < 2 ^ 8 → wrap_uint8 n = n.
Proof. intros. unfold wrap_uint8. apply Z.mod_small. lia. Qed.

Lemma int_mul_small a b :
  0 ≤ a < 2 ^ 31 → 0 ≤ b < 2 ^ 31 → int_mul a b = a * b.
Proof.
  intros. unfold int_mul. apply wrap_int_small. unfold int_min, int_max. nia.
Qed.

Lemma int_add_small a b :
  0 ≤ a < 2 ^ 62 → 0 ≤ b < 2 ^ 62 → int_add a b = a + b.
Proof.
  intros. unfold int_add. apply wrap_int_small. unfold int_min, int_max. lia.
Qed.

Lemma int_sub_small a b :
  0 ≤ b ≤ a → a < 2 ^ 62 → int_sub a b = a - b.
Proof.
  intros. unfold int_sub. apply wrap_int_small. unfold int_min, int_max. lia.
Qed.

Lemma int_div_small a b :
  0 ≤ a < 2 ^ 62 → 0 < b → int_div a b = a / b.
Proof.
  intros. unfold int_div. rewrite Z.quot_div_nonneg by lia.
  apply wrap_int_small. unfold int_min, int_max.
  pose proof (Z.div_pos a b). pose proof (Z.div_le_upper_bound a b a).
  assert (a / b ≤ a) by (apply Z.div_le_upper_bound; nia). lia.
Qed.

(** The luminance of 16-bit channels: no [uint32] operation wraps and the
    result is an 8-bit value. *)
Lemma gray32_exact r g b :
  channel_ok r → channel_ok g → channel_ok b →
  gray32 r g b = (299 * r + 587 * g + 114 * b) / 1000 / 256.
Proof.
  unfold channel_ok, gray32, uint32_div, uint32_add, uint32_mul. intros.
  rewrite (wrap_uint32_small (299 * r)), (wrap_uint32_small (587 * g)),
    (wrap_uint32_small (114 * b)) by lia.
  rewrite (wrap_uint32_small (299 * r + 587 * g)) by lia.
  rewrite wrap_uint32_small by lia. done.
Qed.

Lemma luminance_le_255 r g b :
  channel_ok r → channel_ok g → channel_ok b →
  0 ≤ (299 * r + 587 * g + 114 * b) / 1000 / 256 ≤ 255.
Proof.
  unfold channel_ok. intros. split.
  - apply Z.div_pos; [apply Z.div_pos|]; lia.
  - assert ((299 * r + 587 * g + 114 * b) / 1000 < 65536)
      by (apply Z.div_lt_upper_bound; lia).
    assert ((299 * r + 587 * g + 114 * b) / 1000 / 256 < 256)
      by (apply Z.div_lt_upper_bound; lia).
    lia.
Qed.

Lemma gray32_range r g b :
  channel_ok r → channel_ok g → channel_ok b → 0 ≤ gray32 r g b ≤ 255.
Proof. intros. rewrite gray32_exact by done. by apply luminance_le_255. Qed.

Lemma gray64_exact r g b :
  channel_ok r → channel_ok g → channel_ok b →
  Parallel.gray64 r g b = (299 * r + 587 * g + 114 * b) / 1000 / 256.
Proof.
  unfold channel_ok, Parallel.gray64, uint64_div, uint64_add, uint64_mul. intros.
  rewrite (wrap_uint64_small (299 * r)), (wrap_uint64_small (587 * g)),
    (wrap_uint64_small (114 * b)) by lia.
  rewrite (wrap_uint64_small (299 * r + 587 * g)) by lia.
  rewrite wrap_uint64_small by lia. done.
Qed.

Lemma gray64_range r g b :
  channel_ok r → channel_ok g → channel_ok b → 0 ≤ Parallel.gray64 r g b ≤ 255.
Proof. intros. rewrite gray64_exact by done. by apply luminance_le_255. Qed.

Lemma palette_len_10 : palette_len = 10.
Proof. reflexivity. Qed.

Lemma charIndex_exact gray : 0 ≤ gray ≤ 255 → charIndex gray = gray * 9 / 255.
Proof.
  intros. unfold charIndex. rewrite palette_len_10.
  rewrite (int_sub_small 10 1) by lia.
  rewrite int_mul_small by lia. rewrite int_div_small by lia. done.
Qed.

Lemma charIndex_range gray : 0 ≤ gray ≤ 255 → 0 ≤ charIndex gray ≤ 9.
Proof.
  intros. rewrite charIndex_exact by done. split.
  - apply Z.div_pos; lia.
  - assert (gray * 9 / 255 < 10) by (apply Z.div_lt_upper_bound; lia). lia.
Qed.

Lemma string_index_palette idx :
  0 ≤ idx ≤ 9 → ∃ char, string_index palette idx = Some char ∧ In char (list_ascii_of_string palette).
Proof.
  intros. assert (idx = 0 ∨ idx = 1 ∨ idx = 2 ∨ idx = 3 ∨ idx = 4 ∨ idx = 5
                  ∨ idx = 6 ∨ idx = 7 ∨ idx = 8 ∨ idx = 9) as Hc by lia.
  repeat destruct Hc as [->|Hc]; try subst idx;
    (eexists; split; [reflexivity|simpl; tauto]).
Qed.

End Arithmetic.

(** ** Strings *)
Section Strings.

Lemma string_app_nil_r (s : string) : s +:+ "" = s.
Proof. induction s as [|a s IH]; [done|]. unfold String.app in *. simpl. by rewrite IH. Qed.

Lemma string_app_assoc (s1 s2 s3 : string) : (s1 +:+ s2) +:+ s3 = s1 +:+ s2 +:+ s3.
Proof.
  induction s1 as [|a s1 IH]; [done|]. unfold String.app in *. simpl. by rewrite IH.
Qed.

Lemma string_length_app (s1 s2 : string) :
  String.length (s1 +:+ s2) = (String.length s1 + String.length s2)%nat.
Proof.
  induction s1 as [|a s1 IH]; [done|]. unfold String.app in *. simpl. by rewrite IH.
Qed.

Lemma concat_strings_snoc (l : list string) (s : string) :
  concat_strings (l ++ [s]) = concat_strings l +:+ s.
Proof.
  induction l as [|x l IH]; simpl.
  - by rewrite string_app_nil_r.
  - by rewrite IH, string_app_assoc.
Qed.

End Strings.

Section Loops.

Lemma for_range_snoc {S : Type} (n : nat) (body : Z → S → S) (s : S) :
  for_range (Z.of_nat (Datatypes.S n)) body s
  = body (Z.of_nat n) (for_range (Z.of_nat n) body s).
Proof. unfold for_range. by rewrite seqZ_S, foldl_app. Qed.

Lemma for_range_nonpos {S : Type} (n : Z) (body : Z → S → S) (s : S) :
  n ≤ 0 → for_range n body s = s.
Proof. intros. unfold for_range. by rewrite seqZ_nil. Qed.

(** A line whose cells all succeed is the concatenation of the cells. *)
Lemma build_line_Some (width : Z) (cell : Z → option string) (f : Z → string) :
  (∀ x, 0 ≤ x < width → cell x = Some (f x)) →
  build_line width cell = Some (concat_strings (f <$> seqZ 0 width)).
Proof.
  unfold build_line. destruct (decide (width ≤ 0)) as [?|Hpos].
  { intros _. by rewrite for_range_nonpos, seqZ_nil by done. }
  rewrite <- (Z2Nat.id width) by lia.
  generalize (Z.to_nat width) as n. clear Hpos.
  induction n as [|n IH]; intros Hcell; [done|].
  rewrite for_range_snoc, IH by (intros; apply Hcell; lia).
  simpl. rewrite Hcell by lia. simpl.
  rewrite seqZ_S, fmap_app. simpl. by rewrite concat_strings_snoc.
Qed.

Lemma build_line_None (width : Z) (cell : Z → option string) (x : Z) :
  0 ≤ x < width → cell x = None → build_line width cell = None.
Proof.
  unfold build_line. intros Hx Hnone.
  rewrite <- (Z2Nat.id width) in * by lia.
  revert Hx. generalize (Z.to_nat width) as n.
  induction n as [|n IH]; intros Hx; [lia|].
  rewrite for_range_snoc.
  destruct (decide (x = Z.of_nat n)) as [->|].
  - rewrite Hnone. by destruct (for_range _ _ _).
  - rewrite IH by lia. done.
Qed.

End Loops.

(** ** Rows and the collector *)

Section Rows.

Lemma make_strings_Some (height : Z) :
  0 ≤ height ≤ 2 ^ 44 →
  make_strings height = Some (replicate (Z.to_nat height) EmptyString).
Proof.
  intros [? ?]. unfold make_strings.
  by rewrite (proj2 (Z.ltb_ge height 0)), (proj2 (Z.ltb_ge (2 ^ 44) height)).
Qed.

Lemma make_strings_None (height : Z) :
  height < 0 ∨ 2 ^ 44 < height → make_strings height = None.
Proof.
  intros [?|?]; unfold make_strings.
  - by rewrite (proj2 (Z.ltb_lt height 0)).
  - rewrite (proj2 (Z.ltb_lt (2 ^ 44) height)) by done. by rewrite orb_true_r.
Qed.

Lemma set_index_Some (s : list string) (i : Z) (v : string) :
  0 ≤ i < Z.of_nat (length s) → set_index s i v = Some (<[Z.to_nat i := v]> s).
Proof.
  intros [? ?]. unfold set_index.
  by rewrite (proj2 (Z.leb_le _ _)), (proj2 (Z.ltb_lt _ _)).
Qed.

(** The sequential row loop fills the slots from the top. *)
Lemma build_rows_prefix (h n : nat) (line : Z → option string) (l : Z → string) :
  (n ≤ h)%nat →
  (∀ y, 0 ≤ y < Z.of_nat n → line y = Some (l y)) →
  for_range (Z.of_nat n) (λ y res, r ← res; v ← line y; set_index r y v)
    (Some (replicate h EmptyString))
  = Some ((l <$> seqZ 0 (Z.of_nat n)) ++ replicate (h - n) EmptyString).
Proof.
  induction n as [|n IH]; intros Hn Hline.
  { simpl. by rewrite Nat.sub_0_r. }
  rewrite for_range_snoc, IH by (try lia; intros; apply Hline; lia).
  simpl. rewrite Hline by lia. simpl.
  rewrite set_index_Some.
  2:{ rewrite length_app, length_fmap, length_seqZ, length_replicate. lia. }
  f_equal. rewrite Nat2Z.id.
  rewrite insert_app_r_alt by (rewrite length_fmap, length_seqZ; lia).
  rewrite length_fmap, length_seqZ, Nat2Z.id, Nat.sub_diag.
  replace (h - n)%nat with (Datatypes.S (h - Datatypes.S n)) by lia.
  simpl. rewrite seqZ_S, fmap_app, <- app_assoc. done.
Qed.

Lemma build_rows_Some (height : Z) (line : Z → option string) (l : Z → string) :
  0 ≤ height ≤ 2 ^ 44 →
  (∀ y, 0 ≤ y < height → line y = Some (l y)) →
  build_rows height line = Some (l <$> seqZ 0 height).
Proof.
  intros Hh Hline. unfold build_rows. rewrite make_strings_Some by done. simpl.
  rewrite <- (Z2Nat.id height) at 1 by lia.
  rewrite (build_rows_prefix _ _ _ l); [|lia|intros; apply Hline; lia].
  rewrite Nat.sub_diag, Z2Nat.id by lia. simpl. by rewrite app_nil_r.
Qed.

Lemma build_rows_None (height : Z) (line : Z → option string) (y : Z) :
  0 ≤ y < height → line y = None → build_rows height line = None.
Proof.
  intros Hy Hnone. unfold build_rows.
  destruct (decide (height ≤ 2 ^ 44)) as [Hmax|Hmax];
    [|by rewrite make_strings_None by lia].
  rewrite make_strings_Some by lia. simpl.
  generalize (Some (replicate (Z.to_nat height) EmptyString)) as start.
  rewrite <- (Z2Nat.id height) in * by lia.
  revert Hy. generalize (Z.to_nat height) as n.
  induction n as [|n IH]; intros Hy start; [lia|].
  rewrite for_range_snoc.
  destruct (decide (y = Z.of_nat n)) as [->|].
  - rewrite Hnone. by destruct (for_range _ _ _).
  - rewrite IH by lia. done.
Qed.

(** *** The collector *)

Lemma collect_cons (r : list string) (m : Parallel.rowResult) (rest : list Parallel.rowResult) :
  Parallel.collect r (m :: rest) = r1 ← Parallel.receive r m; Parallel.collect r1 rest.
Proof.
  unfold Parallel.collect. simpl. destruct (Parallel.receive r m); [done|].
  simpl. induction rest; simpl; auto.
Qed.

(** Each arrived message lands in its own slot, whatever the order. *)
Lemma collect_slots (arrived : list Parallel.rowResult) (r : list string) :
  NoDup (Parallel.index <$> arrived) →
  (∀ m, m ∈ arrived → 0 ≤ Parallel.index m < Z.of_nat (length r)) →
  ∃ r', Parallel.collect r arrived = Some r' ∧ length r' = length r ∧
        (∀ m, m ∈ arrived → r' !! Z.to_nat (Parallel.index m) = Some (Parallel.line m)) ∧
        (∀ i, Z.of_nat i ∉ Parallel.index <$> arrived → r' !! i = r !! i).
Proof.
  revert r. induction arrived as [|m rest IH]; intros r Hnd Hin.
  { exists r. split; [done|]. split; [done|]. split; [|done].
    by intros m ?%elem_of_nil. }
  rewrite fmap_cons in Hnd. apply NoDup_cons in Hnd as [Hm Hnd].
  rewrite collect_cons. unfold Parallel.receive.
  rewrite set_index_Some by (apply Hin; left). simpl.
  destruct (IH (<[Z.to_nat (Parallel.index m) := Parallel.line m]> r) Hnd)
    as (r' & Hr' & Hlen & Hset & Hother).
  { intros m' Hm'. rewrite length_insert. apply Hin. by right. }
  exists r'. rewrite length_insert in Hlen. split; [done|]. split; [done|]. split.
  - intros m' Hm'. apply elem_of_cons in Hm' as [Heq|Hm']; [subst m'|by apply Hset].
    rewrite Hother.
    + apply list_lookup_insert_eq. specialize (Hin m ltac:(left)). lia.
    + rewrite Z2Nat.id by (specialize (Hin m ltac:(left)); lia). done.
  - intros i Hi. apply not_elem_of_cons in Hi as [Hne Hi].
    rewrite Hother by done. apply list_lookup_insert_ne.
    specialize (Hin m ltac:(left)). lia.
Qed.

Lemma mapM_row_message (row : Z → option string) (l : Z → string) (order : list Z) :
  (∀ y, y ∈ order → row y = Some (l y)) →
  mapM (Parallel.row_message row) order
  = Some ((λ y, Parallel.mkRowResult y (l y)) <$> order).
Proof.
  intros Hrow. apply mapM_Some, Forall2_fmap_r, Forall_Forall2_diag, Forall_forall.
  intros y Hy. unfold Parallel.row_message. by rewrite Hrow.
Qed.

(** Whatever the completion order, the rows come out in ascending order. *)
Lemma run_rows_Some (height : Z) (row : Z → option string) (l : Z → string)
    (order : list Z) :
  Parallel.schedule height order →
  (∀ y, 0 ≤ y < height → row y = Some (l y)) →
  0 ≤ height ≤ 2 ^ 44 →
  Parallel.run_rows height row order = Some (l <$> seqZ 0 height).
Proof.
  unfold Parallel.schedule. intros Hperm Hrow Hh. unfold Parallel.run_rows.
  rewrite make_strings_Some by done. simpl.
  rewrite (mapM_row_message row l).
  2:{ intros y Hy. apply Hrow. rewrite Hperm in Hy. apply elem_of_seqZ in Hy. lia. }
  simpl.
  set (arrived := (λ y, Parallel.mkRowResult y (l y)) <$> order).
  assert (Parallel.index <$> arrived = order) as Hidx.
  { unfold arrived. rewrite <- list_fmap_compose. simpl. apply list_fmap_id. }
  destruct (collect_slots arrived (replicate (Z.to_nat height) EmptyString))
    as (r' & -> & Hlen & Hset & _).
  { rewrite Hidx, Hperm. apply NoDup_seqZ. }
  { intros m Hm. assert (Parallel.index m ∈ order) as Hi.
    { rewrite <- Hidx. by apply list_elem_of_fmap_2. }
    rewrite Hperm in Hi. apply elem_of_seqZ in Hi. rewrite length_replicate. lia. }
  f_equal. rewrite length_replicate in Hlen. apply list_eq. intros i.
  destruct (decide (Z.of_nat i < height)) as [Hi|Hi].
  - rewrite list_lookup_fmap, lookup_seqZ_lt by done. simpl.
    assert (Parallel.mkRowResult (Z.of_nat i) (l (Z.of_nat i)) ∈ arrived) as Hm.
    { unfold arrived. apply (list_elem_of_fmap_2 (λ y, Parallel.mkRowResult y (l y))).
      rewrite Hperm. apply elem_of_seqZ. lia. }
    apply Hset in Hm. simpl in Hm. by rewrite Nat2Z.id in Hm.
  - rewrite list_lookup_fmap, lookup_seqZ_ge by lia. simpl.
    apply lookup_ge_None. lia.
Qed.

Lemma run_rows_None (height : Z) (row : Z → option string) (order : list Z) (y : Z) :
  Parallel.schedule height order →
  0 ≤ y < height → row y = None →
  Parallel.run_rows height row order = None.
Proof.
  unfold Parallel.schedule. intros Hperm Hy Hnone. unfold Parallel.run_rows.
  destruct (decide (height ≤ 2 ^ 44)) as [Hmax|Hmax];
    [|by rewrite make_strings_None by lia].
  rewrite make_strings_Some by lia. simpl.
  assert (mapM (Parallel.row_message row) order = None) as ->; [|done].
  apply mapM_None, Exists_exists. exists y. split.
  - rewrite Hperm. apply elem_of_seqZ. lia.
  - unfold Parallel.row_message. by rewrite Hnone.
Qed.

(** The fan-in computes what the plain row loop computes on the same rows. *)
Lemma run_rows_build_rows (height : Z) (row : Z → option string) (order : list Z) :
  Parallel.schedule height order →
  Parallel.run_rows height row order = build_rows height row.
Proof.
  intros Hperm. destruct (decide (height < 0 ∨ 2 ^ 44 < height)) as [Hneg|Hh].
  { unfold Parallel.run_rows, build_rows. by rewrite make_strings_None. }
  destruct (decide (Forall (λ y, is_Some (row y)) (seqZ 0 height))) as [Hall|Hex].
  - rewrite Forall_seqZ in Hall.
    assert (∀ y, 0 ≤ y < height → row y = Some (default EmptyString (row y))) as Hrow.
    { intros y Hy. destruct (Hall y ltac:(lia)) as [v ->]. done. }
    assert (0 ≤ height ≤ 2 ^ 44) as Hh' by lia.
    by rewrite (run_rows_Some _ _ _ _ Hperm Hrow Hh'), (build_rows_Some _ _ _ Hh' Hrow).
  - apply not_Forall_Exists in Hex; [|apply _].
    apply Exists_exists in Hex as (y & Hy%elem_of_seqZ & Hnone).
    assert (row y = None) as Hy'.
    { destruct (row y) eqn:E; [|done]. exfalso. apply Hnone. rewrite E. eauto. }
    rewrite (run_rows_None _ _ _ y), (build_rows_None _ _ y); done || lia.
Qed.

End Rows.

(** ** Strided loops and blocks *)

Section StridedLoops.

Context {S : Type}.
Implicit Types (body : Z → S → S) (s : S).

Lemma stride_loop_collect (fuel : nat) (i hi step : Z) (pre : list Z) :
  stride_loop fuel i hi step (λ i acc, acc ++ [i]) pre
  = pre ++ stride_loop fuel i hi step (λ i acc, acc ++ [i]) [].
Proof.
  revert i pre. induction fuel as [|fuel IH]; intros i pre; simpl.
  { by rewrite app_nil_r. }
  destruct (i <? hi); [|by rewrite app_nil_r].
  rewrite (IH _ (pre ++ [i])), (IH _ ([] ++ [i])), <- app_assoc. done.
Qed.

Lemma stride_loop_foldl (fuel : nat) (i hi step : Z) body s :
  stride_loop fuel i hi step body s
  = foldl (λ acc j, body j acc) s (stride_loop fuel i hi step (λ i acc, acc ++ [i]) []).
Proof.
  revert i s. induction fuel as [|fuel IH]; intros i s; simpl; [done|].
  destruct (i <? hi); [|done].
  rewrite stride_loop_collect. simpl. apply IH.
Qed.

(** The strided loop is the fold of its body over the points it visits. *)
Lemma for_stride_foldl (lo hi step : Z) body s :
  for_stride lo hi step body s
  = foldl (λ acc j, body j acc) s (stride_points lo hi step).
Proof. apply stride_loop_foldl. Qed.

End StridedLoops.

Section StridePoints.

Lemma stride_points_empty (lo hi step : Z) : hi ≤ lo → stride_points lo hi step = [].
Proof.
  intros. unfold stride_points, for_stride.
  destruct (Z.to_nat (hi - lo)); simpl; [done|].
  by rewrite (proj2 (Z.ltb_ge _ _)).
Qed.

(** A non-empty range is entered at its lower end. *)
Lemma stride_points_head (lo hi step : Z) :
  lo < hi → ∃ rest, stride_points lo hi step = lo :: rest.
Proof.
  intros. unfold stride_points, for_stride.
  destruct (Z.to_nat (hi - lo)) eqn:E; [lia|]. simpl.
  rewrite (proj2 (Z.ltb_lt _ _)) by done.
  rewrite stride_loop_collect. simpl. eauto.
Qed.

Lemma stride_loop_points_bounds (fuel : nat) (i hi step : Z) :
  0 ≤ i → hi < 2 ^ 62 → 1 ≤ step < 2 ^ 62 →
  Forall (λ p, i ≤ p < hi) (stride_loop fuel i hi step (λ i acc, acc ++ [i]) []).
Proof.
  revert i. induction fuel as [|fuel IH]; intros i Hi Hhi Hstep; simpl; [done|].
  destruct (Z.ltb_spec i hi); [|done].
  rewrite stride_loop_collect. simpl. constructor; [lia|].
  rewrite int_add_small by lia.
  eapply Forall_impl; [apply IH; lia|]. simpl. intros; lia.
Qed.

Lemma stride_points_bounds (lo hi step : Z) :
  0 ≤ lo → hi < 2 ^ 62 → 1 ≤ step < 2 ^ 62 →
  Forall (λ p, lo ≤ p < hi) (stride_points lo hi step).
Proof. apply stride_loop_points_bounds. Qed.

Lemma stride_loop_points_length (fuel : nat) (i hi step k : Z) :
  0 ≤ i → hi < 2 ^ 62 → 1 ≤ step < 2 ^ 62 →
  0 ≤ k → hi - i ≤ k * step →
  Z.of_nat (length (stride_loop fuel i hi step (λ i acc, acc ++ [i]) [])) ≤ k.
Proof.
  revert i k. induction fuel as [|fuel IH]; intros i k Hi Hhi Hstep Hk Hle; simpl; [done|].
  destruct (Z.ltb_spec i hi); [|simpl; lia].
  rewrite stride_loop_collect. simpl.
  rewrite int_add_small by lia.
  assert (1 ≤ k) by nia.
  specialize (IH (i + step) (k - 1)). 
  assert (hi - (i + step) ≤ (k - 1) * step) by nia.
  lia.
Qed.

Lemma stride_points_length (lo hi step k : Z) :
  0 ≤ lo → hi < 2 ^ 62 → 1 ≤ step < 2 ^ 62 →
  0 ≤ k → hi - lo ≤ k * step →
  Z.of_nat (length (stride_points lo hi step)) ≤ k.
Proof. apply stride_loop_points_length. Qed.

(** The fuel of [for_stride] is enough: more fuel changes nothing. *)
Lemma stride_loop_fuel {S : Type} (fuel fuel' : nat) (i hi step : Z)
    (body : Z → S → S) (s : S) :
  0 ≤ i → hi < 2 ^ 62 → 1 ≤ step < 2 ^ 62 →
  (Z.to_nat (hi - i) ≤ fuel)%nat → (Z.to_nat (hi - i) ≤ fuel')%nat →
  stride_loop fuel i hi step body s = stride_loop fuel' i hi step body s.
Proof.
  revert fuel' i s. induction fuel as [|fuel IH]; intros fuel' i s Hi Hhi Hstep Hf Hf'.
  - destruct fuel'; simpl; [done|]. rewrite (proj2 (Z.ltb_ge _ _)); [done|lia].
  - simpl. destruct (Z.ltb_spec i hi).
    + destruct fuel'; [lia|]. simpl. rewrite (proj2 (Z.ltb_lt _ _)) by done.
      rewrite int_add_small by lia. apply IH; lia.
    + destruct fuel'; simpl; [done|]. by rewrite (proj2 (Z.ltb_ge _ _)).
Qed.

Lemma for_stride_fuel {S : Type} (extra : nat) (lo hi step : Z)
    (body : Z → S → S) (s : S) :
  0 ≤ lo → hi < 2 ^ 62 → 1 ≤ step < 2 ^ 62 →
  stride_loop (Z.to_nat (hi - lo) + extra) lo hi step body s
  = for_stride lo hi step body s.
Proof. intros. unfold for_stride. apply stride_loop_fuel; lia. Qed.

End StridePoints.

Section Blocks.

Lemma block_start_exact (i extent n : Z) :
  0 ≤ i < 2 ^ 31 → dim_ok extent → 0 < n →
  Parallel.block_start i extent n = i * extent / n.
Proof.
  unfold dim_ok, Parallel.block_start. intros.
  rewrite int_mul_small by lia. apply int_div_small; nia.
Qed.

Lemma block_end_exact (i extent n : Z) :
  0 ≤ i < n → dim_ok extent → dim_ok n →
  Parallel.block_end i extent n = (i + 1) * extent / n.
Proof.
  unfold dim_ok, Parallel.block_end. intros.
  rewrite int_add_small, int_mul_small, int_div_small by nia.
  assert ((i + 1) * extent / n ≤ extent).
  { apply Z.div_le_upper_bound; nia. }
  by rewrite (proj2 (Z.ltb_ge _ _)).
Qed.

Lemma block_bounds (i extent n : Z) :
  0 ≤ i < n → dim_ok extent → dim_ok n →
  0 ≤ Parallel.block_start i extent n ≤ Parallel.block_end i extent n
  ∧ Parallel.block_start i extent n < extent
  ∧ Parallel.block_end i extent n ≤ extent.
Proof.
  intros Hi He Hn. rewrite block_start_exact, block_end_exact by (unfold dim_ok in *; lia).
  unfold dim_ok in *.
  assert (0 ≤ i * extent / n) by (apply Z.div_pos; nia).
  assert (i * extent / n ≤ (i + 1) * extent / n) by (apply Z.div_le_mono; nia).
  assert (i * extent / n < extent) by (apply Z.div_lt_upper_bound; nia).
  assert ((i + 1) * extent / n ≤ extent) by (apply Z.div_le_upper_bound; nia).
  lia.
Qed.

Lemma stride_exact (lo hi : Z) :
  0 ≤ lo ≤ hi → hi < 2 ^ 31 →
  Parallel.stride lo hi = Z.max 1 ((hi - lo) / 3).
Proof.
  intros. unfold Parallel.stride.
  rewrite int_sub_small, int_div_small by lia.
  destruct (Z.ltb_spec ((hi - lo) / 3) 1); lia.
Qed.

(** A block is crossed in at most five strides. *)
Lemma stride_covers (lo hi : Z) :
  0 ≤ lo ≤ hi → hi < 2 ^ 31 →
  1 ≤ Parallel.stride lo hi < 2 ^ 31 ∧ hi - lo ≤ 5 * Parallel.stride lo hi.
Proof.
  intros. rewrite stride_exact by done.
  pose proof (Z.div_mod (hi - lo) 3 ltac:(lia)).
  pose proof (Z.mod_pos_bound (hi - lo) 3 ltac:(lia)).
  lia.
Qed.

End Blocks.

(** ** Sampling a block *)

Section Sampling.

Lemma foldl_ext_in {A B} (f g : A → B → A) (l : list B) (a : A) :
  (∀ a x, x ∈ l → f a x = g a x) → foldl f a l = foldl g a l.
Proof.
  revert a. induction l as [|x l IH]; intros a Hfg; simpl; [done|].
  rewrite Hfg by left. apply IH. intros. apply Hfg. by right.
Qed.

Lemma block_loop_foldl {S : Type} (imgX imgXEnd imgY imgYEnd : Z)
    (body : Z → Z → S → S) (s : S) :
  Parallel.block_loop imgX imgXEnd imgY imgYEnd body s
  = foldl (λ acc py,
      foldl (λ acc px, body px py acc) acc
        (stride_points imgX imgXEnd (Parallel.stride imgX imgXEnd)))
      s (stride_points imgY imgYEnd (Parallel.stride imgY imgYEnd)).
Proof.
  unfold Parallel.block_loop. rewrite for_stride_foldl.
  apply foldl_ext_in. intros acc py _. apply for_stride_foldl.
Qed.

Lemma foldl_snoc_points {A} (acc : list A) (f : Z → A) (xs : list Z) :
  foldl (λ acc px, acc ++ [f px]) acc xs = acc ++ (f <$> xs).
Proof.
  revert acc. induction xs as [|x xs IH]; intros acc; simpl.
  - by rewrite app_nil_r.
  - by rewrite IH, <- app_assoc.
Qed.

(** The visited coordinates: every sampled column in every sampled row. *)
Lemma sample_points_product (imgX imgXEnd imgY imgYEnd : Z) :
  Parallel.sample_points imgX imgXEnd imgY imgYEnd
  = py ← stride_points imgY imgYEnd (Parallel.stride imgY imgYEnd);
    (λ px, (px, py)) <$> stride_points imgX imgXEnd (Parallel.stride imgX imgXEnd).
Proof.
  unfold Parallel.sample_points. rewrite block_loop_foldl.
  generalize (stride_points imgX imgXEnd (Parallel.stride imgX imgXEnd)) as xs.
  generalize (stride_points imgY imgYEnd (Parallel.stride imgY imgYEnd)) as ys.
  intros ys xs.
  enough (∀ acc, foldl (λ acc py, foldl (λ acc px, acc ++ [(px, py)]) acc xs) acc ys
                 = acc ++ (py ← ys; (λ px, (px, py)) <$> xs)) as H by apply (H []).
  induction ys as [|y ys IH]; intros acc; simpl.
  - by rewrite app_nil_r.
  - by rewrite IH, foldl_snoc_points, <- app_assoc.
Qed.

(** The sampling loops fold the body over the visited coordinates. *)
Lemma block_loop_points {S : Type} (imgX imgXEnd imgY imgYEnd : Z)
    (body : Z → Z → S → S) (s : S) :
  Parallel.block_loop imgX imgXEnd imgY imgYEnd body s
  = foldl (λ acc p, body p.1 p.2 acc) s
      (Parallel.sample_points imgX imgXEnd imgY imgYEnd).
Proof.
  rewrite sample_points_product, block_loop_foldl.
  generalize (stride_points imgX imgXEnd (Parallel.stride imgX imgXEnd)) as xs.
  generalize (stride_points imgY imgYEnd (Parallel.stride imgY imgYEnd)) as ys.
  intros ys xs. revert s. induction ys as [|y ys IH]; intros s; simpl; [done|].
  rewrite foldl_app, IH. f_equal. by rewrite foldl_fmap.
Qed.

Lemma sample_block_points (img : Image) (imgX imgXEnd imgY imgYEnd : Z) :
  Parallel.sample_block img imgX imgXEnd imgY imgYEnd
  = foldl (λ acc p, Parallel.add_sample (At img p.1 p.2) acc) (Parallel.mkSums 0 0 0 0)
      (Parallel.sample_points imgX imgXEnd imgY imgYEnd).
Proof. apply (block_loop_points _ _ _ _ (λ px py acc, Parallel.add_sample (At img px py) acc)). Qed.

Lemma sample_points_length (imgX imgXEnd imgY imgYEnd : Z) :
  length (Parallel.sample_points imgX imgXEnd imgY imgYEnd)
  = (length (stride_points imgY imgYEnd (Parallel.stride imgY imgYEnd))
     * length (stride_points imgX imgXEnd (Parallel.stride imgX imgXEnd)))%nat.
Proof.
  rewrite sample_points_product.
  generalize (stride_points imgX imgXEnd (Parallel.stride imgX imgXEnd)) as xs.
  induction (stride_points imgY imgYEnd (Parallel.stride imgY imgYEnd)) as [|y ys IH];
    intros xs; simpl; [done|].
  rewrite length_app, length_fmap, IH. done.
Qed.

(** At most 25 points of a block are sampled. *)
Lemma sample_points_le_25 (imgX imgXEnd imgY imgYEnd : Z) :
  window_ok (imgX, imgXEnd, imgY, imgYEnd) →
  (length (Parallel.sample_points imgX imgXEnd imgY imgYEnd) ≤ 25)%nat.
Proof.
  intros (HX & HXE & HY & HYE). rewrite sample_points_length.
  pose proof (stride_covers imgX imgXEnd HX HXE) as [? ?].
  pose proof (stride_covers imgY imgYEnd HY HYE) as [? ?].
  pose proof (stride_points_length imgX imgXEnd (Parallel.stride imgX imgXEnd) 5).
  pose proof (stride_points_length imgY imgYEnd (Parallel.stride imgY imgYEnd) 5).
  nia.
Qed.

(** A window with no column or no row is not sampled at all. *)
Lemma sample_points_empty (imgX imgXEnd imgY imgYEnd : Z) :
  imgXEnd ≤ imgX ∨ imgYEnd ≤ imgY →
  Parallel.sample_points imgX imgXEnd imgY imgYEnd = [].
Proof.
  intros H. rewrite sample_points_product. destruct H as [H|H].
  - rewrite (stride_points_empty imgX) by done.
    induction (stride_points imgY _ _); simpl; auto.
  - by rewrite (stride_points_empty imgY).
Qed.

(** A window with a column and a row is sampled at its top-left first. *)
Lemma sample_points_head (imgX imgXEnd imgY imgYEnd : Z) :
  imgX < imgXEnd → imgY < imgYEnd →
  ∃ rest, Parallel.sample_points imgX imgXEnd imgY imgYEnd = (imgX, imgY) :: rest.
Proof.
  intros HX HY. rewrite sample_points_product.
  destruct (stride_points_head imgX imgXEnd (Parallel.stride imgX imgXEnd) HX) as [xs ->].
  destruct (stride_points_head imgY imgYEnd (Parallel.stride imgY imgYEnd) HY) as [ys ->].
  simpl. eauto.
Qed.

Lemma sample_points_bounds (imgX imgXEnd imgY imgYEnd : Z) :
  window_ok (imgX, imgXEnd, imgY, imgYEnd) →
  Forall (λ p, imgX ≤ p.1 < imgXEnd ∧ imgY ≤ p.2 < imgYEnd)
    (Parallel.sample_points imgX imgXEnd imgY imgYEnd).
Proof.
  intros (HX & HXE & HY & HYE). rewrite sample_points_product.
  pose proof (stride_covers imgX imgXEnd HX HXE) as [? _].
  pose proof (stride_covers imgY imgYEnd HY HYE) as [? _].
  pose proof (stride_points_bounds imgX imgXEnd (Parallel.stride imgX imgXEnd)
                ltac:(lia) ltac:(lia) ltac:(lia)) as Hxs.
  pose proof (stride_points_bounds imgY imgYEnd (Parallel.stride imgY imgYEnd)
                ltac:(lia) ltac:(lia) ltac:(lia)) as Hys.
  apply Forall_bind. eapply Forall_impl; [exact Hys|]. intros py Hpy. simpl.
  apply Forall_fmap. eapply Forall_impl; [exact Hxs|]. intros px Hpx. simpl in *. lia.
Qed.

(** *** Sums *)

Lemma add_sample_bounded (c : Color) (n : Z) (s : Parallel.sums) :
  color_ok c → 0 ≤ n < 2 ^ 32 → bounded_sums n s →
  bounded_sums (n + 1) (Parallel.add_sample c s).
Proof.
  unfold color_ok, channel_ok, bounded_sums, Parallel.add_sample, uint64_add.
  intros (? & ? & ?) Hn (Hc & ? & ? & ?). simpl.
  rewrite !wrap_uint64_small by lia. rewrite Hc, int_add_small by lia. lia.
Qed.

Lemma sample_fold_bounded (img : Image) (pts : list (Z * Z)) (n : Z) (s : Parallel.sums) :
  (∀ x y, color_ok (At img x y)) →
  0 ≤ n → n + Z.of_nat (length pts) ≤ 2 ^ 32 → bounded_sums n s →
  bounded_sums (n + Z.of_nat (length pts))
    (foldl (λ acc p, Parallel.add_sample (At img p.1 p.2) acc) s pts).
Proof.
  intros Hok. revert n s. induction pts as [|p pts IH]; intros n s Hn Hlen Hs; simpl.
  { by rewrite Z.add_0_r. }
  simpl length in *. rewrite Nat2Z.inj_succ in *.
  replace (n + Z.succ (Z.of_nat (length pts))) with (n + 1 + Z.of_nat (length pts)) by lia.
  apply IH; [lia|lia|]. apply add_sample_bounded; [done|lia|done].
Qed.

Lemma sample_block_bounded (img : Image) (imgX imgXEnd imgY imgYEnd : Z) :
  (∀ x y, color_ok (At img x y)) →
  window_ok (imgX, imgXEnd, imgY, imgYEnd) →
  bounded_sums (Z.of_nat (length (Parallel.sample_points imgX imgXEnd imgY imgYEnd)))
    (Parallel.sample_block img imgX imgXEnd imgY imgYEnd).
Proof.
  intros Hok Hw. rewrite sample_block_points.
  pose proof (sample_points_le_25 _ _ _ _ Hw).
  apply (sample_fold_bounded img _ 0); [done|lia|lia|].
  unfold bounded_sums. simpl. lia.
Qed.

Lemma add_sample_uniform (c : Color) (n : Z) (s : Parallel.sums) :
  color_ok c → 0 ≤ n < 2 ^ 32 → uniform_sums c n s →
  uniform_sums c (n + 1) (Parallel.add_sample c s).
Proof.
  unfold color_ok, channel_ok, uniform_sums, Parallel.add_sample, uint64_add.
  intros (? & ? & ?) Hn (Hc & Hr & Hg & Hb). simpl.
  rewrite Hr, Hg, Hb, Hc. rewrite !wrap_uint64_small by nia.
  rewrite int_add_small by lia. lia.
Qed.

Lemma sample_fold_uniform (img : Image) (c : Color) (pts : list (Z * Z)) (n : Z)
    (s : Parallel.sums) :
  color_ok c → Forall (λ p, At img p.1 p.2 = c) pts →
  0 ≤ n → n + Z.of_nat (length pts) ≤ 2 ^ 32 → uniform_sums c n s →
  uniform_sums c (n + Z.of_nat (length pts))
    (foldl (λ acc p, Parallel.add_sample (At img p.1 p.2) acc) s pts).
Proof.
  intros Hc Hpts. revert n s.
  induction Hpts as [|p pts Hp Hpts IH]; intros n s Hn Hlen Hs; simpl.
  { by rewrite Z.add_0_r. }
  simpl length in *. rewrite Nat2Z.inj_succ in *.
  replace (n + Z.succ (Z.of_nat (length pts))) with (n + 1 + Z.of_nat (length pts)) by lia.
  apply IH; [lia|lia|]. rewrite Hp. apply add_sample_uniform; [done|lia|done].
Qed.

(** *** The averaging step *)

Lemma uint64_quo_pos (a n : Z) : 0 < n < 2 ^ 64 → uint64_quo a (wrap_uint64 n) = Some (a / n).
Proof.
  intros. unfold uint64_quo. rewrite wrap_uint64_small by lia.
  by rewrite (proj2 (Z.eqb_neq _ _)) by lia.
Qed.

Lemma average_positive (s : Parallel.sums) :
  0 < Parallel.pixelCount s < 2 ^ 64 →
  Parallel.average s
  = Some (Parallel.mkSums (Parallel.rSum s / Parallel.pixelCount s)
            (Parallel.gSum s / Parallel.pixelCount s)
            (Parallel.bSum s / Parallel.pixelCount s) (Parallel.pixelCount s)).
Proof.
  intros. unfold Parallel.average. rewrite (proj2 (Z.ltb_lt _ _)) by lia.
  by rewrite !uint64_quo_pos by done.
Qed.

Lemma average_zero (s : Parallel.sums) :
  Parallel.pixelCount s ≤ 0 → Parallel.average s = Some s.
Proof. intros. unfold Parallel.average. by rewrite (proj2 (Z.ltb_ge _ _)). Qed.

(** The averaging step never divides by zero, and yields 16-bit channels. *)
Lemma average_bounded (n : Z) (s : Parallel.sums) :
  0 ≤ n < 2 ^ 32 → bounded_sums n s →
  ∃ a, Parallel.average s = Some a ∧ Parallel.pixelCount a = n
       ∧ channel_ok (Parallel.rSum a) ∧ channel_ok (Parallel.gSum a)
       ∧ channel_ok (Parallel.bSum a).
Proof.
  intros Hn (Hc & Hr & Hg & Hb). destruct (decide (n = 0)) as [->|Hpos].
  - exists s. rewrite average_zero by lia. unfold channel_ok. repeat split; lia.
  - rewrite average_positive by lia. eexists; split; [done|]. simpl. rewrite Hc.
    unfold channel_ok.
    assert (∀ v, 0 ≤ v ≤ 65535 * n → 0 ≤ v / n ≤ 65535) as Hdiv.
    { intros v Hv. split; [apply Z.div_pos; lia|].
      apply Z.div_le_upper_bound; lia. }
    auto.
Qed.

Lemma average_uniform (c : Color) (n : Z) (s : Parallel.sums) :
  0 < n < 2 ^ 32 → uniform_sums c n s →
  Parallel.average s = Some (Parallel.mkSums (red c) (green c) (blue c) n).
Proof.
  intros Hn (Hc & Hr & Hg & Hb). rewrite average_positive by lia.
  rewrite Hc, Hr, Hg, Hb. by rewrite !Z.div_mul by lia.
Qed.

End Sampling.

(** ** Cells *)

Section Cells.

Context (img : Image) (width height : Z).
Hypothesis Hconfig : config_ok img width height.

Lemma window_in_image (rowIndex x : Z) :
  in_grid width height x rowIndex →
  let '(imgX, imgXEnd, imgY, imgYEnd) := Parallel.window img width height rowIndex x in
  0 ≤ imgX ≤ imgXEnd ∧ imgX < Dx img ∧ imgXEnd ≤ Dx img
  ∧ 0 ≤ imgY ≤ imgYEnd ∧ imgY < Dy img ∧ imgYEnd ≤ Dy img.
Proof.
  destruct Hconfig as (_ & HW & HH & Hw & Hh). intros [Hx Hy]. simpl.
  pose proof (block_bounds x (Dx img) width Hx HW Hw).
  pose proof (block_bounds rowIndex (Dy img) height Hy HH Hh).
  lia.
Qed.

Lemma window_of_cell_ok (rowIndex x : Z) :
  in_grid width height x rowIndex →
  window_ok (Parallel.window img width height rowIndex x).
Proof.
  intros Hcell. pose proof (window_in_image rowIndex x Hcell) as Hw.
  destruct Hconfig as (_ & HW & HH & _). unfold dim_ok in *.
  unfold Parallel.window in *. simpl. lia.
Qed.

Lemma cell_sums_bounded (rowIndex x : Z) :
  in_grid width height x rowIndex →
  ∃ n, bounded_sums n (Parallel.cell_sums img width height rowIndex x) ∧ 0 ≤ n ≤ 25
       ∧ n = Z.of_nat (length (let '(imgX, imgXEnd, imgY, imgYEnd) :=
                                  Parallel.window img width height rowIndex x in
                                Parallel.sample_points imgX imgXEnd imgY imgYEnd)).
Proof.
  intros Hcell. pose proof (window_of_cell_ok rowIndex x Hcell) as Hw.
  destruct Hconfig as ((_ & _ & Hcol) & _).
  unfold Parallel.cell_sums, Parallel.window in *.
  eexists. split; [by apply sample_block_bounded|].
  pose proof (sample_points_le_25 _ _ _ _ Hw). split; [lia|done].
Qed.

(** Averaging a cell never fails and yields 16-bit channels. *)
Lemma cell_average_ok (rowIndex x : Z) :
  in_grid width height x rowIndex →
  ∃ a, Parallel.cell_average img width height rowIndex x = Some a
       ∧ channel_ok (Parallel.rSum a) ∧ channel_ok (Parallel.gSum a)
       ∧ channel_ok (Parallel.bSum a).
Proof.
  intros Hcell. destruct (cell_sums_bounded rowIndex x Hcell) as (n & Hb & Hn & _).
  destruct (average_bounded n _ ltac:(lia) Hb) as (a & Ha & _ & ?).
  exists a. done.
Qed.

End Cells.

Section Glyphs.

Lemma glyph_index_exact (a : Parallel.sums) :
  channel_ok (Parallel.rSum a) → channel_ok (Parallel.gSum a) →
  channel_ok (Parallel.bSum a) →
  Parallel.glyph_index a
  = luminance_index (mkColor (Parallel.rSum a) (Parallel.gSum a) (Parallel.bSum a)).
Proof.
  intros Hr Hg Hb. unfold Parallel.glyph_index, luminance_index. simpl.
  pose proof (gray64_range _ _ _ Hr Hg Hb).
  rewrite wrap_int_small by (unfold int_min, int_max; lia).
  rewrite charIndex_exact by done. by rewrite gray64_exact.
Qed.

Lemma glyph_index_range (a : Parallel.sums) :
  channel_ok (Parallel.rSum a) → channel_ok (Parallel.gSum a) →
  channel_ok (Parallel.bSum a) →
  0 ≤ Parallel.glyph_index a ≤ 9.
Proof.
  intros Hr Hg Hb. unfold Parallel.glyph_index.
  pose proof (gray64_range _ _ _ Hr Hg Hb).
  rewrite wrap_int_small by (unfold int_min, int_max; lia).
  by apply charIndex_range.
Qed.

Lemma pixel_index_exact (img : Image) (width height x y : Z) :
  color_ok (pixel_of_cell img width height x y) →
  pixel_index img width height x y = luminance_index (pixel_of_cell img width height x y).
Proof.
  intros (Hr & Hg & Hb). unfold pixel_index, luminance_index.
  rewrite charIndex_exact by (by apply gray32_range). by rewrite gray32_exact.
Qed.

Lemma shift8_range (v : Z) : channel_ok v → 0 ≤ Z.shiftr v 8 ≤ 255.
Proof.
  unfold channel_ok. intros. rewrite Z.shiftr_div_pow2 by lia. split.
  - apply Z.div_pos; lia.
  - assert (v / 2 ^ 8 < 256) by (apply Z.div_lt_upper_bound; lia). lia.
Qed.

(** [uint8(v >> 8)] loses nothing on a 16-bit channel. *)
Lemma uint8_shift8 (v : Z) : channel_ok v → wrap_uint8 (Z.shiftr v 8) = Z.shiftr v 8.
Proof. intros H. apply wrap_uint8_small. pose proof (shift8_range v H). lia. Qed.

End Glyphs.

(** ** The output height *)

Section Floats.

Lemma binary_round_aux_nonneg (m e : Z) (l : location) :
  float64_nonneg (binary_round_aux 53 1024 false m e l).
Proof.
  unfold binary_round_aux.
  destruct (shr_fexp 53 1024 m e l) as [mrs' e'].
  destruct (shr_fexp 53 1024 _ e' loc_Exact) as [mrs'' e''].
  destruct (shr_m mrs''); simpl; [done| |done].
  destruct (e'' <=? 1024 - 53); done.
Qed.

Lemma float64_of_int_nonneg (n : Z) : 0 ≤ n → float64_nonneg (float64_of_int n).
Proof.
  intros. unfold float64_of_int, binary_normalize. destruct n as [|p|p]; [done| |lia].
  unfold binary_round. destruct (shl_align _ _ _). apply binary_round_aux_nonneg.
Qed.

Lemma float64_mul_nonneg (x y : float64) :
  float64_nonneg x → float64_nonneg y → float64_nonneg (float64_mul x y).
Proof.
  destruct x as [sx|sx| |sx mx ex], y as [sy|sy| |sy my ey]; simpl; try done;
    intros; subst; try done.
  apply binary_round_aux_nonneg.
Qed.

Lemma float64_div_nonneg (x y : float64) :
  float64_nonneg x → float64_nonneg y → float64_nonneg (float64_div x y).
Proof.
  destruct x as [sx|sx| |sx mx ex], y as [sy|sy| |sy my ey]; simpl; try done;
    intros; subst; try done.
  destruct (SFdiv_core_binary _ _ _ _ _ _) as [[mz ez] lz].
  apply binary_round_aux_nonneg.
Qed.

Lemma trunc_magnitude_nonneg (m : positive) (e : Z) : 0 ≤ trunc_magnitude m e.
Proof.
  unfold trunc_magnitude. destruct e.
  - by apply Z.shiftl_nonneg.
  - by apply Z.shiftl_nonneg.
  - by apply Z.shiftr_nonneg.
Qed.

Lemma int_of_float64_nonneg (f : float64) (n : Z) :
  float64_nonneg f → int_of_float64 f = Some n → 0 ≤ n.
Proof.
  destruct f as [s|s| |s m e]; simpl; intros Hs Hn; simplify_eq; [done|].
  pose proof (trunc_magnitude_nonneg m e).
  destruct (_ && _); by simplify_eq.
Qed.

(** The clamped height of non-negative operands is at least 1. *)
Lemma outputHeight_positive (imgHeight width imgWidth : Z) (scale : float64) (h : Z) :
  0 ≤ imgHeight → 0 ≤ width → 0 ≤ imgWidth → float64_nonneg scale →
  outputHeight imgHeight width imgWidth scale = Some h → 1 ≤ h.
Proof.
  intros HH Hw HW Hs. unfold outputHeight.
  destruct (int_of_float64 _) as [t|] eqn:Ht; simpl; intros; simplify_eq.
  apply int_of_float64_nonneg in Ht.
  - destruct (Z.eqb_spec t 0); lia.
  - auto using float64_mul_nonneg, float64_div_nonneg, float64_of_int_nonneg.
Qed.

Lemma outputHeight_range (imgHeight width imgWidth : Z) (scale : float64) (h : Z) :
  outputHeight imgHeight width imgWidth scale = Some h → int_min ≤ h ≤ int_max.
Proof.
  unfold outputHeight.
  destruct (int_of_float64 _) as [t|] eqn:Ht; simpl; intros; simplify_eq.
  assert (int_min ≤ t ≤ int_max).
  { destruct (float64_mul _ _) as [s|s| |s m e]; simpl in Ht; simplify_eq.
    - unfold int_min, int_max. lia.
    - destruct (_ && _) eqn:E; simplify_eq. apply andb_true_iff in E. lia. }
  destruct (Z.eqb_spec t 0); unfold int_min, int_max in *; lia.
Qed.

End Floats.

(** ** The scheduler as a transition system *)

Section Scheduler.

Import Parallel.
Context (height : Z) (row : Z → option string).

Lemma invariant_launched :
  0 ≤ height →
  invariant height row (launched height (replicate (Z.to_nat height) EmptyString)).
Proof.
  intros. exists []. simpl. rewrite !app_nil_r, length_replicate. done.
Qed.

Lemma invariant_indices (s : sched) (got : list Z) (i : Z) :
  running s ++ (index <$> resultChan s) ++ got ≡ₚ seqZ 0 height →
  i ∈ running s ++ (index <$> resultChan s) ++ got → 0 ≤ i < height.
Proof. intros Hperm Hi. rewrite Hperm in Hi. apply elem_of_seqZ in Hi. lia. Qed.

Lemma invariant_step (s s' : sched) :
  invariant height row s → moves height row s s' → invariant height row s'.
Proof.
  intros (got & Hperm & Hrecv & Hlen & Hchan & Hgot) Hstep.
  unfold moves in Hstep. inversion Hstep as [s0 pre rowIndex post res Hrun Hmsg Hroom|
                                             |s0 res rest Hlt Hc Hres]; subst.
  - (* a goroutine sends *)
    exists got. simpl. rewrite Hrun in Hperm.
    unfold row_message in Hmsg. destruct (row rowIndex) as [l|] eqn:Hrow; simplify_eq/=.
    split; [|split_and!; try done].
    + rewrite fmap_app. simpl. rewrite <- Hperm. solve_Permutation.
    + apply Forall_app. split; [done|]. by constructor.
  - (* the collector receives *)
    destruct (receive (result s) res) as [r|] eqn:Hr; simplify_eq/=.
    rewrite Hc in Hperm, Hchan. rewrite fmap_cons in Hperm.
    apply Forall_cons in Hchan as [Hres' Hchan].
    assert (NoDup (running s ++ index res :: (index <$> rest) ++ got)) as Hnd.
    { rewrite Hperm. apply NoDup_seqZ. }
    assert (0 ≤ index res < height) as Hidx.
    { apply (invariant_indices s got); [by rewrite Hc, fmap_cons|].
      rewrite Hc, fmap_cons. apply elem_of_app. right. by left. }
    unfold receive in Hr. rewrite set_index_Some in Hr by lia. simplify_eq.
    exists (index res :: got). simpl. split_and!.
    + rewrite <- Hperm. solve_Permutation.
    + lia.
    + by rewrite length_insert.
    + done.
    + constructor.
      * rewrite list_lookup_insert_eq by lia. done.
      * apply NoDup_app in Hnd as (_ & _ & Hnd).
        apply NoDup_cons in Hnd as [Hnotin _].
        apply Forall_forall. intros i Hi.
        rewrite Forall_forall in Hgot. rewrite <- (Hgot i Hi).
        apply list_lookup_insert_ne.
        assert (0 ≤ i < height).
        { apply (invariant_indices s got); [by rewrite Hc, fmap_cons|].
          rewrite !elem_of_app. auto. }
        intros Heq. apply Hnotin. apply elem_of_app. right.
        replace (index res) with i by lia. done.
Qed.

Lemma invariant_reachable (s : sched) :
  0 ≤ height →
  rtc (moves height row)
    (launched height (replicate (Z.to_nat height) EmptyString)) s →
  invariant height row s.
Proof.
  intros Hh Hrun. pose proof (invariant_launched Hh) as Hinit.
  induction Hrun as [|s1 s2 s3 Hstep _ IH]; [done|].
  apply IH. by eapply invariant_step.
Qed.

(** When the collector has received [height] messages, every slot holds
    its row. *)
Lemma invariant_final (s : sched) :
  0 ≤ height → invariant height row s → received s = height →
  Some <$> result s = row <$> seqZ 0 height.
Proof.
  intros Hh (got & Hperm & Hrecv & Hlen & _ & Hgot) Hfin.
  assert (length (running s ++ (index <$> resultChan s) ++ got) = Z.to_nat height) as Hl.
  { by rewrite Hperm, length_seqZ. }
  rewrite !length_app in Hl.
  assert (running s = []) as Hr by (apply length_zero_iff_nil; lia).
  assert (index <$> resultChan s = []) as Hc by (apply length_zero_iff_nil; lia).
  rewrite Hr, Hc in Hperm. simpl in Hperm.
  apply list_eq. intros i. rewrite !list_lookup_fmap.
  destruct (decide (Z.of_nat i < height)) as [Hi|Hi].
  - rewrite lookup_seqZ_lt by done. simpl.
    assert (Z.of_nat i ∈ got) as Hin by (rewrite Hperm; apply elem_of_seqZ; lia).
    rewrite Forall_forall in Hgot. specialize (Hgot _ Hin).
    rewrite Nat2Z.id in Hgot. rewrite Z.add_0_l, <- Hgot.
    destruct (result s !! i) eqn:E; [done|].
    apply lookup_ge_None in E. lia.
  - rewrite lookup_seqZ_ge by lia. simpl.
    rewrite (proj2 (lookup_ge_None _ _)); [done|lia].
Qed.

(** A goroutine that has not sent yet always finds room in the channel. *)
Lemma send_never_blocks (s : sched) :
  invariant height row s → running s ≠ [] →
  Z.of_nat (length (resultChan s)) < height.
Proof.
  intros (got & Hperm & _) Hrun.
  assert (length (running s ++ (index <$> resultChan s) ++ got) = Z.to_nat height) as Hl.
  { by rewrite Hperm, length_seqZ. }
  rewrite !length_app, length_fmap in Hl.
  destruct (running s); [done|]. simpl in Hl. lia.
Qed.

(** The collector never waits in vain: short of [height] messages, the
    system can move. *)
Lemma scheduler_progress (s : sched) :
  (∀ y, 0 ≤ y < height → is_Some (row y)) →
  invariant height row s → received s < height →
  ∃ s', moves height row s s'.
Proof.
  intros Hrows Hinv Hlt. pose proof Hinv as (got & Hperm & Hrecv & Hlen & Hchan & Hgot).
  destruct (resultChan s) as [|res rest] eqn:Hc.
  - destruct (running s) as [|rowIndex post] eqn:Hr.
    { simpl in Hperm. apply Permutation_length in Hperm.
      rewrite length_seqZ in Hperm. lia. }
    assert (0 ≤ rowIndex < height) as Hidx.
    { apply (invariant_indices s got); [by rewrite Hr, Hc|].
      rewrite Hr. by left. }
    destruct (Hrows _ Hidx) as [l Hl].
    eexists. apply (step_send height row s [] rowIndex post (mkRowResult rowIndex l)).
    + done.
    + unfold row_message. by rewrite Hl.
    + apply send_never_blocks; [done|by rewrite Hr].
  - assert (0 ≤ index res < height) as Hidx.
    { apply (invariant_indices s got); [by rewrite Hc|].
      rewrite Hc, fmap_cons, !elem_of_app. right. left. by left. }
    pose proof (step_receive height row s res rest Hlt Hc) as Hstep.
    unfold receive in Hstep. rewrite set_index_Some in Hstep by lia.
    eexists. exact Hstep.
Qed.

(** No reachable state can panic when every row can be computed. *)
Lemma scheduler_no_panic (s : sched) :
  (∀ y, 0 ≤ y < height → is_Some (row y)) →
  invariant height row s → ¬ step height row s None.
Proof.
  intros Hrows (got & Hperm & Hrecv & Hlen & Hchan & Hgot) Hstep.
  inversion Hstep as [|s0 rowIndex Hin Hnone|s0 res rest Hlt Hc]; subst.
  - assert (0 ≤ rowIndex < height) as Hidx.
    { apply (invariant_indices s got); [done|]. apply elem_of_app. by left. }
    destruct (Hrows _ Hidx) as [l Hl]. congruence.
  - assert (0 ≤ index res < height) as Hidx.
    { apply (invariant_indices s got); [done|].
      rewrite Hc, fmap_cons, !elem_of_app. right. left. by left. }
    match goal with
    | H : _ ≫= _ = None |- _ =>
        unfold receive in H; rewrite set_index_Some in H by lia; done
    end.
Qed.

(** Every move uses up pending work, so no run is longer than [2 * height]. *)
Lemma moves_pending_work (s s' : sched) :
  moves height row s s' → pending_work s = Datatypes.S (pending_work s').
Proof.
  unfold moves, pending_work. intros Hstep.
  inversion Hstep as [s0 pre rowIndex post res Hrun Hmsg Hroom|
                      |s0 res rest Hlt Hc Hres]; subst; simpl.
  - rewrite Hrun, !length_app. simpl. lia.
  - destruct (receive (result s) res); simplify_eq/=. rewrite Hc. simpl. lia.
Qed.

Lemma run_length (n : nat) (s s' : sched) :
  nsteps (moves height row) n s s' → pending_work s = (n + pending_work s')%nat.
Proof.
  induction 1 as [|n s1 s2 s3 Hstep _ IH]; [done|].
  apply moves_pending_work in Hstep. lia.
Qed.

(** From any reachable state the run can be completed. *)
Lemma scheduler_completes (s : sched) :
  0 ≤ height →
  (∀ y, 0 ≤ y < height → is_Some (row y)) →
  invariant height row s → received s ≤ height →
  ∃ s', rtc (moves height row) s s' ∧ received s' = height.
Proof.
  intros Hh Hrows. remember (pending_work s) as w eqn:Hw. revert s Hw.
  induction w as [w IH] using lt_wf_ind. intros s Hw Hinv Hle.
  destruct (decide (received s = height)) as [Heq|Hne].
  { exists s. split; [apply rtc_refl|done]. }
  destruct (scheduler_progress s Hrows Hinv ltac:(lia)) as [s1 Hstep].
  pose proof (invariant_step s s1 Hinv Hstep) as Hinv1.
  pose proof (moves_pending_work s s1 Hstep) as Hwork.
  destruct (IH (pending_work s1) ltac:(lia) s1 eq_refl Hinv1) as (s' & Hrun & Hfin).
  { destruct Hinv1 as (got & Hperm & Hrecv & _).
    apply Permutation_length in Hperm.
    rewrite !length_app, length_seqZ in Hperm. lia. }
  exists s'. split; [by eapply rtc_l|done].
Qed.

End Scheduler.

(** ** What a cell and a row produce *)

(** Sequencing after a result that is there.  Rewriting with these keeps
    the arithmetic of the cells folded. *)
Lemma bind_Some {A B : Type} (f : A → option B) (a : A) : Some a ≫= f = f a.
Proof. reflexivity. Qed.

Lemma bind_None {A B : Type} (f : A → option B) : None ≫= f = None.
Proof. reflexivity. Qed.

Section CellResults.

Context (img : Image) (width height : Z).
Hypothesis Hconfig : config_ok img width height.

Lemma cell_sums_count (rowIndex x : Z) :
  in_grid width height x rowIndex →
  Parallel.pixelCount (Parallel.cell_sums img width height rowIndex x)
  = Z.of_nat (length (let '(imgX, imgXEnd, imgY, imgYEnd) :=
                        Parallel.window img width height rowIndex x in
                      Parallel.sample_points imgX imgXEnd imgY imgYEnd)).
Proof.
  intros Hcell.
  destruct (cell_sums_bounded img width height Hconfig rowIndex x Hcell)
    as (n & (Hc & _) & _ & Hn).
  by rewrite Hc.
Qed.

(** The glyph of a cell is always found in the palette. *)
Lemma cell_glyph_ok (rowIndex x : Z) :
  in_grid width height x rowIndex →
  ∃ a char,
    Parallel.cell_average img width height rowIndex x = Some a
    ∧ channel_ok (Parallel.rSum a) ∧ channel_ok (Parallel.gSum a)
    ∧ channel_ok (Parallel.bSum a)
    ∧ string_index palette (Parallel.glyph_index a) = Some char
    ∧ in_palette char.
Proof.
  intros Hcell.
  destruct (cell_average_ok img width height Hconfig rowIndex x Hcell)
    as (a & Ha & Hr & Hg & Hb).
  destruct (string_index_palette (Parallel.glyph_index a)) as (char & Hchar & Hin).
  { by apply glyph_index_range. }
  exists a, char. done.
Qed.

Lemma plain_cell_ok (rowIndex x : Z) :
  in_grid width height x rowIndex →
  ∃ char, Parallel.plain_cell img width height rowIndex x = Some (string_of_byte char)
          ∧ in_palette char.
Proof.
  intros Hcell. destruct (cell_glyph_ok rowIndex x Hcell) as (a & char & Ha & _ & _ & _ & Hc & Hin).
  exists char. unfold Parallel.plain_cell. rewrite Ha, bind_Some, Hc, bind_Some.
  split; [reflexivity|exact Hin].
Qed.

Lemma color_cell_ok (rowIndex x : Z) :
  in_grid width height x rowIndex →
  ∃ a char,
    Parallel.cell_average img width height rowIndex x = Some a
    ∧ string_index palette (Parallel.glyph_index a) = Some char
    ∧ in_palette char
    ∧ Parallel.color_cell img width height rowIndex x
      = Some (sprintf_cell (Z.shiftr (Parallel.rSum a) 8) (Z.shiftr (Parallel.gSum a) 8)
                (Z.shiftr (Parallel.bSum a) 8) char)
    ∧ 0 ≤ Z.shiftr (Parallel.rSum a) 8 ≤ 255
    ∧ 0 ≤ Z.shiftr (Parallel.gSum a) 8 ≤ 255
    ∧ 0 ≤ Z.shiftr (Parallel.bSum a) 8 ≤ 255.
Proof.
  intros Hcell.
  destruct (cell_glyph_ok rowIndex x Hcell) as (a & char & Ha & Hr & Hg & Hb & Hc & Hin).
  exists a, char.
  split; [exact Ha|]. split; [exact Hc|]. split; [exact Hin|].
  split; [|split; [|split]]; try (by apply shift8_range).
  unfold Parallel.color_cell. rewrite Ha, bind_Some, Hc, bind_Some.
  rewrite !uint8_shift8 by assumption. reflexivity.
Qed.

End CellResults.

Section PixelCells.

Context (img : Image).
Hypothesis Himg : image_ok img.

Lemma pixel_of_cell_ok (width height x y : Z) :
  color_ok (pixel_of_cell img width height x y).
Proof. unfold pixel_of_cell. apply Himg. Qed.

Lemma pixel_index_range (width height x y : Z) :
  0 ≤ pixel_index img width height x y ≤ 9.
Proof.
  unfold pixel_index.
  destruct (pixel_of_cell_ok width height x y) as (? & ? & ?).
  by apply charIndex_range, gray32_range.
Qed.

Lemma pixel_cell_ok (width height x y : Z) :
  ∃ char, pixel_cell img width height x y = Some (string_of_byte char) ∧ in_palette char.
Proof.
  destruct (string_index_palette _ (pixel_index_range width height x y))
    as (char & Hc & Hin).
  exists char. unfold pixel_cell. rewrite Hc, bind_Some.
  split; [reflexivity|exact Hin].
Qed.

End PixelCells.

Section RowShapes.

Lemma concat_glyphs_shape (f : Z → string) (l : list Z) :
  (∀ x, x ∈ l → ∃ char, f x = string_of_byte char ∧ in_palette char) →
  String.length (concat_strings (f <$> l)) = length l
  ∧ Forall in_palette (list_ascii_of_string (concat_strings (f <$> l))).
Proof.
  induction l as [|x l IH]; intros Hf; [done|].
  destruct (Hf x ltac:(left)) as (char & Hx & Hin).
  destruct IH as [IHlen IHall]; [intros; apply Hf; by right|].
  rewrite fmap_cons. unfold concat_strings in *. rewrite foldr_cons, Hx.
  change (string_of_byte char +:+ ?s) with (String char s).
  split.
  - simpl. by rewrite IHlen.
  - simpl. by constructor.
Qed.

Lemma concat_color_cells_shape (f : Z → string) (l : list Z) :
  (∀ x, x ∈ l → ∃ r g b char,
     f x = sprintf_cell r g b char
     ∧ 0 ≤ r ≤ 255 ∧ 0 ≤ g ≤ 255 ∧ 0 ≤ b ≤ 255 ∧ in_palette char) →
  ∃ cells : list (Z * Z * Z * ascii),
    f <$> l = (λ '(r, g, b, c), sprintf_cell r g b c) <$> cells
    ∧ length cells = length l
    ∧ Forall (λ '(r, g, b, c),
        0 ≤ r ≤ 255 ∧ 0 ≤ g ≤ 255 ∧ 0 ≤ b ≤ 255 ∧ in_palette c) cells.
Proof.
  induction l as [|x l IH]; intros Hf.
  { exists []. done. }
  destruct (Hf x ltac:(left)) as (r & g & b & char & Hx & Hbounds).
  destruct IH as (cells & Heq & Hlen & Hall); [intros; apply Hf; by right|].
  exists ((r, g, b, char) :: cells). rewrite !fmap_cons, Hx, Heq. simpl. rewrite Hlen.
  split; [done|]. split; [done|]. by constructor.
Qed.

(** A line whose cells all succeed, with the cells read off the result. *)
Lemma build_line_total (width : Z) (cell : Z → option string) :
  (∀ x, 0 ≤ x < width → is_Some (cell x)) →
  build_line width cell
  = Some (concat_strings ((λ x, default EmptyString (cell x)) <$> seqZ 0 width)).
Proof.
  intros Hcell. apply build_line_Some. intros x Hx.
  destruct (Hcell x Hx) as [s ->]. done.
Qed.

Lemma build_line_ext (width : Z) (cell cell' : Z → option string) :
  (∀ x, 0 ≤ x < width → cell x = cell' x) →
  build_line width cell = build_line width cell'.
Proof.
  intros Heq. unfold build_line, for_range. apply foldl_ext_in.
  intros acc x Hx%elem_of_seqZ. rewrite Heq by lia. done.
Qed.

Lemma build_rows_ext (height : Z) (line line' : Z → option string) :
  (∀ y, 0 ≤ y < height → line y = line' y) →
  build_rows height line = build_rows height line'.
Proof.
  intros Heq. unfold build_rows. destruct (make_strings height); simpl; [|done].
  unfold for_range. apply foldl_ext_in.
  intros acc y Hy%elem_of_seqZ. rewrite Heq by lia. done.
Qed.

Context (img : Image) (width height : Z).
Hypothesis Hconfig : config_ok img width height.

Lemma plain_row_ok (rowIndex : Z) :
  0 ≤ rowIndex < height →
  ∃ row, Parallel.plain_row img width height rowIndex = Some row
         ∧ plain_row_shape width row.
Proof.
  intros Hrow. unfold Parallel.plain_row.
  assert (∀ x, 0 ≤ x < width →
            ∃ char, Parallel.plain_cell img width height rowIndex x
                    = Some (string_of_byte char) ∧ in_palette char) as Hcells.
  { intros x Hx. by apply plain_cell_ok. }
  rewrite build_line_total.
  2:{ intros x Hx. destruct (Hcells x Hx) as (c & -> & _). eauto. }
  eexists. split; [done|]. unfold plain_row_shape.
  destruct (concat_glyphs_shape
              (λ x, default EmptyString (Parallel.plain_cell img width height rowIndex x))
              (seqZ 0 width)) as [Hlen Hall].
  { intros x Hx%elem_of_seqZ. destruct (Hcells x ltac:(lia)) as (c & -> & ?). eauto. }
  split; [|done]. rewrite Hlen, length_seqZ.
  destruct Hconfig as (_ & _ & _ & Hw & _). unfold dim_ok in Hw. lia.
Qed.

Lemma color_row_ok (rowIndex : Z) :
  0 ≤ rowIndex < height →
  ∃ row, Parallel.color_row img width height rowIndex = Some row
         ∧ color_row_shape width row.
Proof.
  intros Hrow. unfold Parallel.color_row.
  assert (∀ x, 0 ≤ x < width →
            ∃ r g b char,
              Parallel.color_cell img width height rowIndex x = Some (sprintf_cell r g b char)
              ∧ 0 ≤ r ≤ 255 ∧ 0 ≤ g ≤ 255 ∧ 0 ≤ b ≤ 255 ∧ in_palette char) as Hcells.
  { intros x Hx.
    destruct (color_cell_ok img width height Hconfig rowIndex x)
      as (a & char & _ & _ & Hin & Hcell & ? & ? & ?); [done|].
    eauto 10. }
  rewrite build_line_total.
  2:{ intros x Hx. destruct (Hcells x Hx) as (r & g & b & c & -> & _). eauto. }
  eexists. split; [done|]. unfold color_row_shape.
  destruct (concat_color_cells_shape
              (λ x, default EmptyString (Parallel.color_cell img width height rowIndex x))
              (seqZ 0 width)) as (cells & Heq & Hlen & Hall).
  { intros x Hx%elem_of_seqZ.
    destruct (Hcells x ltac:(lia)) as (r & g & b & c & -> & ?). eauto 10. }
  exists cells. rewrite Heq. split; [done|]. split; [|done].
  rewrite Hlen, length_seqZ.
  destruct Hconfig as (_ & _ & _ & Hw & _). unfold dim_ok in Hw. lia.
Qed.

End RowShapes.

(** ** Whole conversions *)

Section Conversions.

Lemma run_rows_total (height : Z) (row : Z → option string) (order : list Z)
    (P : string → Prop) :
  Parallel.schedule height order → 0 ≤ height ≤ 2 ^ 44 →
  (∀ y, 0 ≤ y < height → ∃ r, row y = Some r ∧ P r) →
  ∃ rows, Parallel.run_rows height row order = Some rows
          ∧ length rows = Z.to_nat height ∧ Forall P rows.
Proof.
  intros Hsched Hh Hrows.
  exists ((λ y, default EmptyString (row y)) <$> seqZ 0 height). split_and!.
  - apply run_rows_Some; [done| |done].
    intros y Hy. destruct (Hrows y Hy) as (r & -> & _). done.
  - by rewrite length_fmap, length_seqZ.
  - apply Forall_fmap, Forall_seqZ. intros y Hy. simpl.
    destruct (Hrows y ltac:(lia)) as (r & -> & ?). done.
Qed.

Lemma build_rows_total (height : Z) (row : Z → option string) (P : string → Prop) :
  0 ≤ height ≤ 2 ^ 44 →
  (∀ y, 0 ≤ y < height → ∃ r, row y = Some r ∧ P r) →
  ∃ rows, build_rows height row = Some rows
          ∧ length rows = Z.to_nat height ∧ Forall P rows.
Proof.
  intros Hh Hrows.
  exists ((λ y, default EmptyString (row y)) <$> seqZ 0 height). split_and!.
  - apply build_rows_Some; [done|].
    intros y Hy. destruct (Hrows y Hy) as (r & -> & _). done.
  - by rewrite length_fmap, length_seqZ.
  - apply Forall_fmap, Forall_seqZ. intros y Hy. simpl.
    destruct (Hrows y ltac:(lia)) as (r & -> & ?). done.
Qed.

Lemma pixel_row_ok (img : Image) (width height y : Z) :
  image_ok img → 0 ≤ width →
  ∃ row, build_line width (λ x, pixel_cell img width height x y) = Some row
         ∧ plain_row_shape width row.
Proof.
  intros Himg Hw.
  assert (∀ x, ∃ char, pixel_cell img width height x y = Some (string_of_byte char)
                       ∧ in_palette char) as Hcells.
  { intros x. by apply pixel_cell_ok. }
  rewrite build_line_total.
  2:{ intros x _. destruct (Hcells x) as (c & -> & _). eauto. }
  eexists. split; [done|].
  destruct (concat_glyphs_shape
              (λ x, default EmptyString (pixel_cell img width height x y))
              (seqZ 0 width)) as [Hlen Hall].
  { intros x _. destruct (Hcells x) as (c & -> & ?). eauto. }
  split; [|done]. rewrite Hlen, length_seqZ. lia.
Qed.

End Conversions.

(** ** Windows: empty, one pixel, inside a uniform image *)

Section Windows.

Lemma block_nonempty (i extent n : Z) :
  0 ≤ i < n → dim_ok extent → dim_ok n → n ≤ extent →
  Parallel.block_start i extent n < Parallel.block_end i extent n.
Proof.
  intros Hi He Hn Hle. rewrite block_start_exact, block_end_exact by (unfold dim_ok in *; lia).
  unfold dim_ok in *.
  assert (i * extent / n + 1 ≤ (i + 1) * extent / n); [|lia].
  rewrite <- (Z.div_add _ 1 n) by lia. apply Z.div_le_mono; lia.
Qed.

Lemma block_empty_first (extent n : Z) :
  dim_ok extent → dim_ok n → extent < n →
  Parallel.block_end 0 extent n ≤ Parallel.block_start 0 extent n.
Proof.
  intros He Hn Hlt. rewrite block_start_exact, block_end_exact by (unfold dim_ok in *; lia).
  unfold dim_ok in *. rewrite Z.div_small by lia. rewrite Z.div_small by lia. done.
Qed.

Lemma block_one_pixel (i n : Z) :
  0 ≤ i < n → dim_ok n →
  Parallel.block_start i n n = i ∧ Parallel.block_end i n n = i + 1.
Proof.
  intros Hi Hn. rewrite block_start_exact, block_end_exact by (unfold dim_ok in *; lia).
  unfold dim_ok in *. by rewrite !Z.div_mul by lia.
Qed.

Lemma stride_points_one (i : Z) :
  0 ≤ i < 2 ^ 31 → stride_points i (i + 1) (Parallel.stride i (i + 1)) = [i].
Proof.
  intros Hi. unfold stride_points, for_stride.
  replace (i + 1 - i) with 1 by lia. simpl.
  by rewrite (proj2 (Z.ltb_lt _ _)) by lia.
Qed.

(** Nothing is sampled in an empty window: the sums stay zero and the cell
    is the darkest glyph. *)
Lemma empty_window_cell (img : Image) (width height rowIndex x : Z) :
  window_empty (Parallel.window img width height rowIndex x) →
  Parallel.cell_sums img width height rowIndex x = zero_sums
  ∧ Parallel.cell_average img width height rowIndex x = Some zero_sums.
Proof.
  unfold window_empty, Parallel.cell_average, Parallel.cell_sums, Parallel.window.
  intros Hempty. rewrite sample_block_points, sample_points_empty by done. done.
Qed.

Context (img : Image) (width height : Z).
Hypothesis Hconfig : config_ok img width height.

Lemma window_nonempty_downscale (rowIndex x : Z) :
  in_grid width height x rowIndex →
  width ≤ Dx img → height ≤ Dy img →
  ¬ window_empty (Parallel.window img width height rowIndex x).
Proof.
  destruct Hconfig as (_ & HW & HH & Hw & Hh). intros [Hx Hy] Hlew Hleh.
  unfold window_empty, Parallel.window.
  pose proof (block_nonempty x (Dx img) width Hx HW Hw Hlew).
  pose proof (block_nonempty rowIndex (Dy img) height Hy HH Hh Hleh).
  lia.
Qed.

Lemma window_empty_upscale :
  Dx img < width ∨ Dy img < height →
  window_empty (Parallel.window img width height 0 0).
Proof.
  destruct Hconfig as (_ & HW & HH & Hw & Hh). unfold window_empty, Parallel.window.
  intros [Hlt|Hlt]; [left|right]; by apply block_empty_first.
Qed.

(** A non-empty window is sampled at least at its top-left. *)
Lemma nonempty_window_sampled (rowIndex x : Z) :
  in_grid width height x rowIndex →
  ¬ window_empty (Parallel.window img width height rowIndex x) →
  1 ≤ Parallel.pixelCount (Parallel.cell_sums img width height rowIndex x).
Proof.
  intros Hcell Hne. rewrite (cell_sums_count img width height Hconfig) by done.
  unfold window_empty, Parallel.window in *.
  destruct (sample_points_head (Parallel.block_start x (Dx img) width)
              (Parallel.block_end x (Dx img) width)
              (Parallel.block_start rowIndex (Dy img) height)
              (Parallel.block_end rowIndex (Dy img) height)) as [rest ->]; [lia..|].
  simpl. lia.
Qed.

(** In a uniform image a sampled cell averages to the image's colour. *)
Lemma uniform_cell_average (c : Color) (rowIndex x : Z) :
  uniform img c → in_grid width height x rowIndex →
  ¬ window_empty (Parallel.window img width height rowIndex x) →
  ∃ n, Parallel.cell_average img width height rowIndex x
       = Some (Parallel.mkSums (red c) (green c) (blue c) n).
Proof.
  intros Huni Hcell Hne.
  pose proof (window_in_image img width height Hconfig rowIndex x Hcell) as Hin.
  pose proof (window_of_cell_ok img width height Hconfig rowIndex x Hcell) as Hok.
  pose proof (nonempty_window_sampled rowIndex x Hcell Hne) as Hcount.
  rewrite (cell_sums_count img width height Hconfig) in Hcount by done.
  unfold Parallel.cell_average, Parallel.cell_sums, Parallel.window in *.
  set (imgX := Parallel.block_start x (Dx img) width) in *.
  set (imgXEnd := Parallel.block_end x (Dx img) width) in *.
  set (imgY := Parallel.block_start rowIndex (Dy img) height) in *.
  set (imgYEnd := Parallel.block_end rowIndex (Dy img) height) in *.
  pose proof (sample_points_le_25 _ _ _ _ Hok) as H25.
  assert (color_ok c) as Hc.
  { destruct Hconfig as ((HW & HH & Hcol) & _).
    rewrite <- (Huni 0 0) by lia. apply Hcol. }
  exists (Z.of_nat (length (Parallel.sample_points imgX imgXEnd imgY imgYEnd))).
  apply average_uniform; [lia|].
  rewrite sample_block_points.
  apply (sample_fold_uniform img c _ 0); [done| |lia|lia|].
  - eapply Forall_impl; [by apply sample_points_bounds|].
    intros [px py] Hp. simpl in *. apply Huni; lia.
  - unfold uniform_sums. simpl. lia.
Qed.

(** With one source pixel per cell the block average is that pixel. *)
Lemma one_pixel_sums (x y : Z) :
  0 ≤ x < 2 ^ 31 → 0 ≤ y < 2 ^ 31 →
  color_ok (At img x y) →
  Parallel.sample_block img x (x + 1) y (y + 1)
  = Parallel.mkSums (red (At img x y)) (green (At img x y)) (blue (At img x y)) 1.
Proof.
  intros Hx Hy (Hr & Hg & Hb). rewrite sample_block_points, sample_points_product.
  rewrite !stride_points_one by lia.
  cbn [mbind list_bind fmap list_fmap app foldl fst snd].
  unfold Parallel.add_sample, uint64_add. cbn [Parallel.rSum Parallel.gSum Parallel.bSum Parallel.pixelCount].
  unfold channel_ok in *. rewrite !wrap_uint64_small by lia.
  rewrite int_add_small by lia. done.
Qed.

Lemma average_one (r g b : Z) :
  Parallel.average (Parallel.mkSums r g b 1) = Some (Parallel.mkSums r g b 1).
Proof.
  rewrite average_positive by (cbn [Parallel.pixelCount]; lia).
  cbn [Parallel.rSum Parallel.gSum Parallel.bSum Parallel.pixelCount].
  by rewrite !Z.div_1_r.
Qed.

Lemma one_pixel_cell (rowIndex x : Z) :
  width = Dx img → height = Dy img → in_grid width height x rowIndex →
  Parallel.plain_cell img width height rowIndex x = pixel_cell img width height x rowIndex.
Proof.
  intros HeqW HeqH [Hx Hy].
  destruct Hconfig as ((_ & _ & Hcol) & HW & HH & Hw & Hh).
  destruct (block_one_pixel x width Hx Hw) as [Hsx Hex].
  destruct (block_one_pixel rowIndex height Hy Hh) as [Hsy Hey].
  destruct (Hcol x rowIndex) as (Hr & Hg & Hb).
  unfold Parallel.plain_cell, Parallel.cell_average, Parallel.cell_sums, Parallel.window.
  unfold pixel_cell, pixel_index, pixel_of_cell.
  rewrite <- HeqW, <- HeqH. rewrite Hsx, Hex, Hsy, Hey.
  unfold Parallel.block_start in Hsx, Hsy. rewrite Hsx, Hsy.
  unfold dim_ok in *. rewrite one_pixel_sums by (lia || done).
  rewrite average_one, bind_Some. unfold Parallel.glyph_index.
  cbn [Parallel.rSum Parallel.gSum Parallel.bSum].
  rewrite gray64_exact, <- gray32_exact by assumption.
  rewrite wrap_int_small; [reflexivity|].
  pose proof (gray32_range _ _ _ Hr Hg Hb). unfold int_min, int_max. lia.
Qed.

End Windows.

Section GridImages.

Lemma grid_at_ok (rows : list (list Color)) (x y : Z) :
  Forall (Forall color_ok) rows → color_ok (grid_at rows x y).
Proof.
  intros Hrows. assert (color_ok black) as Hblack.
  { unfold color_ok, channel_ok. simpl. lia. }
  unfold grid_at. destruct (_ || _); [done|].
  destruct (rows !! Z.to_nat y) as [row|] eqn:Hrow; simpl; [|done].
  destruct (row !! Z.to_nat x) as [c|] eqn:Hc; simpl; [|done].
  eapply Forall_lookup_1 in Hrow; [|done]. by eapply Forall_lookup_1 in Hc.
Qed.

Lemma image_of_grid_ok (w h : Z) (rows : list (list Color)) :
  0 < w → 0 < h → Forall (Forall color_ok) rows → image_ok (image_of_grid w h rows).
Proof. intros. split_and!; [done..|]. intros x y. by apply grid_at_ok. Qed.

Lemma black_ok : color_ok black.
Proof. unfold color_ok, channel_ok. simpl. lia. Qed.

Lemma white_ok : color_ok white.
Proof. unfold color_ok, channel_ok. simpl. lia. Qed.

Lemma split22_ok : image_ok split22.
Proof. apply image_of_grid_ok; [lia..|]. repeat constructor; apply black_ok || apply white_ok. Qed.

Lemma white22_ok : image_ok white22.
Proof. apply image_of_grid_ok; [lia..|]. repeat constructor; apply white_ok. Qed.

Lemma white22_uniform : uniform white22 white.
Proof.
  intros x y Hx Hy. simpl in *.
  assert ((x = 0 ∨ x = 1) ∧ (y = 0 ∨ y = 1)) as [[-> | ->] [-> | ->]] by lia; done.
Qed.

End GridImages.

(** ** Runs of the scheduler *)

Section Returns.

Import Parallel.
Context (height : Z) (row : Z → option string).

Lemma make_strings_inv (result : list string) :
  make_strings height = Some result →
  0 ≤ height ≤ 2 ^ 44 ∧ result = replicate (Z.to_nat height) EmptyString.
Proof.
  unfold make_strings.
  destruct (Z.ltb_spec height 0), (Z.ltb_spec (2 ^ 44) height);
    intros [= <-] || intros [=]. split; [lia|reflexivity].
Qed.

(** A run that returns has filled every slot with its row. *)
Lemma returns_rows (out : list string) :
  returns height row out → Some <$> out = row <$> seqZ 0 height.
Proof.
  intros (result0 & s & Hmake & Hrun & Hfin & ->).
  apply make_strings_inv in Hmake as [[Hh _] ->].
  apply invariant_final; [done| |done]. by apply invariant_reachable.
Qed.

Lemma returns_unique (out1 out2 : list string) :
  returns height row out1 → returns height row out2 → out1 = out2.
Proof.
  intros H1%returns_rows H2%returns_rows.
  apply (inj (fmap Some)). congruence.
Qed.

Lemma returns_exists :
  0 ≤ height ≤ 2 ^ 44 → (∀ y, 0 ≤ y < height → is_Some (row y)) →
  ∃ out, returns height row out.
Proof.
  intros Hh Hrows.
  destruct (scheduler_completes height row
              (launched height (replicate (Z.to_nat height) EmptyString)))
    as (s & Hrun & Hfin); [lia|done|by apply invariant_launched; lia|simpl; lia|].
  exists (result s), (replicate (Z.to_nat height) EmptyString), s.
  by rewrite make_strings_Some.
Qed.

(** What a run returns is what the collecting loop computes for any
    completion order. *)
Lemma returns_run_rows (out : list string) (order : list Z) :
  returns height row out → schedule height order →
  run_rows height row order = Some out.
Proof.
  intros Hret Hsched. pose proof (returns_rows out Hret) as Hrows.
  destruct Hret as (result0 & s & Hmake & _).
  apply make_strings_inv in Hmake as [Hh _].
  assert (∀ y, 0 ≤ y < height → row y = Some (default EmptyString (row y))) as Hsome.
  { intros y Hy.
    assert ((row <$> seqZ 0 height) !! Z.to_nat y = Some (row y)) as Hl.
    { rewrite list_lookup_fmap, lookup_seqZ_lt by lia. simpl. f_equal. f_equal. lia. }
    rewrite <- Hrows, list_lookup_fmap in Hl.
    destruct (out !! Z.to_nat y) as [v|]; simpl in Hl; [|done].
    injection Hl as Hl. by rewrite <- Hl. }
  rewrite (run_rows_Some height row _ order Hsched Hsome Hh). f_equal.
  apply (inj (fmap Some)). rewrite Hrows, <- list_fmap_compose.
  apply list_fmap_ext. intros i y Hy%lookup_seqZ. simpl. symmetry. apply Hsome. lia.
Qed.

Lemma returns_no_panic :
  (∀ y, 0 ≤ y < height → is_Some (row y)) → ¬ may_panic height row.
Proof.
  intros Hrows (result0 & s & Hmake & Hrun & Hpanic).
  apply make_strings_inv in Hmake as [[Hh _] ->].
  eapply scheduler_no_panic; [done| |done]. by apply invariant_reachable.
Qed.

End Returns.

(** * The claims *)

(** ** C1: sequential against parallel plain conversion *)

(** C1, as stated, fails: on the 2x2 image with a black left and a white
    right column, at width 4 and the default scale 0.15 (one output row,
    so the only completion order is [0]), the sequential variant returns
    "@@  " and the goroutine-per-row variant returns "@@@ ". *)
Lemma C1_variants_differ :
  image_ok split22
  ∧ Parallel.schedule 1 [0]
  ∧ outputHeight (Dy split22) 4 (Dx split22) f0_15 = Some 1
  ∧ Sequential.toASCII split22 4 f0_15 = Some ["@@  "]
  ∧ Parallel.toASCII split22 4 f0_15 [0] = Some ["@@@ "]
  ∧ Sequential.toASCII split22 4 f0_15 ≠ Parallel.toASCII split22 4 f0_15 [0].
Proof.
  split; [apply split22_ok|]. split; [by vm_compute|]. split; [by vm_compute|].
  split; [by vm_compute|]. split; [by vm_compute|].
  vm_compute. intros H. discriminate H.
Qed.

(** C1, amended: whatever the order in which the row goroutines complete,
    the parallel plain conversion returns what the plain row loop returns
    on the same block-averaged rows, so scheduling is not observable; and it
    returns exactly what the sequential variant returns when every cell is
    one source pixel (output width and height equal to the image's). *)
Theorem C1_parallel_schedule_unobservable
    (img : Image) (width : Z) (scale : float64) (height : Z) (order : list Z) :
  outputHeight (Dy img) width (Dx img) scale = Some height →
  Parallel.schedule height order →
  Parallel.toASCII img width scale order
  = build_rows height (Parallel.plain_row img width height)
  ∧ (config_ok img width height → width = Dx img → height = Dy img →
     Parallel.toASCII img width scale order = Sequential.toASCII img width scale).
Proof.
  intros Hh Hsched.
  assert (Parallel.toASCII img width scale order
          = build_rows height (Parallel.plain_row img width height)) as Hpar.
  { unfold Parallel.toASCII. rewrite Hh. simpl. by apply run_rows_build_rows. }
  split; [done|]. intros Hconfig HW HH. rewrite Hpar.
  unfold Sequential.toASCII. rewrite Hh. simpl.
  apply build_rows_ext. intros y Hy. unfold Parallel.plain_row.
  apply build_line_ext. intros x Hx. by apply one_pixel_cell.
Qed.

Lemma config_split22 (width height : Z) :
  dim_ok width → dim_ok height → config_ok split22 width height.
Proof.
  intros. split; [apply split22_ok|]. unfold dim_ok in *. simpl. repeat split; lia.
Qed.

Lemma config_white22 (width height : Z) :
  dim_ok width → dim_ok height → config_ok white22 width height.
Proof.
  intros. split; [apply white22_ok|]. unfold dim_ok in *. simpl. repeat split; lia.
Qed.

Lemma C1_parallel_schedule_unobservable_witness :
  outputHeight (Dy split22) 2 (Dx split22) f1_0 = Some 2
  ∧ Parallel.schedule 2 [1; 0]
  ∧ Parallel.toASCII split22 2 f1_0 [1; 0]
    = build_rows 2 (Parallel.plain_row split22 2 2)
  ∧ Parallel.toASCII split22 2 f1_0 [1; 0] = Sequential.toASCII split22 2 f1_0.
Proof.
  assert (outputHeight (Dy split22) 2 (Dx split22) f1_0 = Some 2) as Hh
    by (vm_compute; reflexivity).
  assert (Parallel.schedule 2 [1; 0]) as Hs by (vm_compute; apply perm_swap).
  destruct (C1_parallel_schedule_unobservable split22 2 f1_0 2 [1; 0] Hh Hs) as [Ha Hb].
  split; [exact Hh|]. split; [exact Hs|]. split; [exact Ha|].
  apply Hb; [|reflexivity|reflexivity].
  apply config_split22; unfold dim_ok; lia.
Defined.

(** ** C2: the sample count of a cell *)

(** C2, as stated, fails: at width 4 the first cell of the 2x2 image has the
    window [0, 0) x [0, 2), nothing is sampled and the count is 0. *)
Lemma C2_empty_window_count_zero :
  config_ok split22 4 1
  ∧ outputHeight (Dy split22) 4 (Dx split22) f0_15 = Some 1
  ∧ in_grid 4 1 0 0
  ∧ Parallel.window split22 4 1 0 0 = (0, 0, 0, 2)
  ∧ Parallel.pixelCount (Parallel.cell_sums split22 4 1 0 0) = 0
  ∧ ¬ 1 ≤ Parallel.pixelCount (Parallel.cell_sums split22 4 1 0 0).
Proof.
  split; [apply config_split22; unfold dim_ok; lia|].
  split; [by vm_compute|]. split; [unfold in_grid; lia|].
  split; [by vm_compute|]. split; [by vm_compute|].
  vm_compute. intros H. by apply H.
Qed.

(** C2, amended: for every cell of a valid input the averaging step never
    divides by zero, because the division is guarded by [pixelCount > 0];
    a cell whose window has a column and a row is sampled first at the
    window's top-left and has a count of at least 1; a cell whose window
    is empty has count 0; and no window is empty when the output is not
    larger than the image in either direction. *)
Theorem C2_sample_count
    (img : Image) (width height rowIndex x : Z) :
  config_ok img width height → in_grid width height x rowIndex →
  let '(imgX, imgXEnd, imgY, imgYEnd) := Parallel.window img width height rowIndex x in
  let s := Parallel.cell_sums img width height rowIndex x in
  is_Some (Parallel.average s)
  ∧ Parallel.pixelCount s
    = Z.of_nat (length (Parallel.sample_points imgX imgXEnd imgY imgYEnd))
  ∧ (imgX < imgXEnd → imgY < imgYEnd →
     (∃ rest, Parallel.sample_points imgX imgXEnd imgY imgYEnd = (imgX, imgY) :: rest)
     ∧ 1 ≤ Parallel.pixelCount s)
  ∧ (imgXEnd ≤ imgX ∨ imgYEnd ≤ imgY → Parallel.pixelCount s = 0)
  ∧ (width ≤ Dx img → height ≤ Dy img → 1 ≤ Parallel.pixelCount s).
Proof.
  intros Hconfig Hcell.
  pose proof (cell_average_ok img width height Hconfig rowIndex x Hcell) as (a & Ha & _).
  pose proof (cell_sums_count img width height Hconfig rowIndex x Hcell) as Hcount.
  pose proof (nonempty_window_sampled img width height Hconfig rowIndex x Hcell) as Hne.
  pose proof (window_nonempty_downscale img width height Hconfig rowIndex x Hcell) as Hdown.
  pose proof (empty_window_cell img width height rowIndex x) as Hempty.
  unfold Parallel.cell_average, window_empty, Parallel.window in *.
  split; [by rewrite Ha|]. split; [done|]. split; [|split].
  - intros HX HY. split; [by apply sample_points_head|]. apply Hne. lia.
  - intros He. destruct (Hempty He) as [-> _]. done.
  - intros Hw Hh. apply Hne. by apply Hdown.
Qed.

Lemma C2_sample_count_witness :
  config_ok split22 2 1 ∧ in_grid 2 1 1 0
  ∧ is_Some (Parallel.average (Parallel.cell_sums split22 2 1 0 1))
  ∧ 1 ≤ Parallel.pixelCount (Parallel.cell_sums split22 2 1 0 1).
Proof.
  assert (config_ok split22 2 1) as Hc by (apply config_split22; unfold dim_ok; lia).
  assert (in_grid 2 1 1 0) as Hg by (unfold in_grid; lia).
  pose proof (C2_sample_count split22 2 1 0 1 Hc Hg) as H.
  change (Parallel.window split22 2 1 0 1) with (1, 2, 0, 2) in H.
  destruct H as (Hs & _ & _ & _ & Hd).
  split; [exact Hc|]. split; [exact Hg|]. split; [exact Hs|].
  apply Hd; simpl; lia.
Defined.

(** ** C3: the shape of the output *)

Lemma parallel_plain_total
    (img : Image) (width : Z) (scale : float64) (height : Z) (order : list Z) :
  config_ok img width height →
  outputHeight (Dy img) width (Dx img) scale = Some height →
  Parallel.schedule height order →
  ∃ rows, Parallel.toASCII img width scale order = Some rows
          ∧ Z.of_nat (length rows) = height
          ∧ Forall (plain_row_shape width) rows.
Proof.
  intros Hconfig Hh Hsched.
  assert (0 ≤ height ≤ 2 ^ 44) as Hpos.
  { destruct Hconfig as (_ & _ & _ & _ & Hd). unfold dim_ok in Hd. lia. }
  unfold Parallel.toASCII. rewrite Hh. simpl.
  destruct (run_rows_total height (Parallel.plain_row img width height) order
              (plain_row_shape width) Hsched Hpos) as (rows & Hr & Hlen & Hall).
  { intros y Hy. by apply plain_row_ok. }
  exists rows. split; [done|]. split; [lia|done].
Qed.

Lemma parallel_color_total
    (img : Image) (width : Z) (scale : float64) (height : Z) (order : list Z) :
  config_ok img width height →
  outputHeight (Dy img) width (Dx img) scale = Some height →
  Parallel.schedule height order →
  ∃ rows, Parallel.colorASCII img width scale order = Some rows
          ∧ Z.of_nat (length rows) = height
          ∧ Forall (color_row_shape width) rows.
Proof.
  intros Hconfig Hh Hsched.
  assert (0 ≤ height ≤ 2 ^ 44) as Hpos.
  { destruct Hconfig as (_ & _ & _ & _ & Hd). unfold dim_ok in Hd. lia. }
  unfold Parallel.colorASCII. rewrite Hh. simpl.
  destruct (run_rows_total height (Parallel.color_row img width height) order
              (color_row_shape width) Hsched Hpos) as (rows & Hr & Hlen & Hall).
  { intros y Hy. by apply color_row_ok. }
  exists rows. split; [done|]. split; [lia|done].
Qed.



(** ** C4: the output height *)

(** C4, as stated, fails: for a 49x2 image, width 1 and scale 49 the exact
    value of H * W_out / W * s is 2, but 2/49 is rounded down in float64
    and the program computes 1.9999999999999998, truncated to 1. *)
Lemma C4_rounding_counterexample :
  float64_fraction (float64_of_int 49) = (49 * 2 ^ 47, 2 ^ 47)
  ∧ spec_height 2 1 49 (float64_of_int 49) = 2
  ∧ outputHeight 2 1 49 (float64_of_int 49) = Some 1
  ∧ outputHeight 2 1 49 (float64_of_int 49) ≠ Some (spec_height 2 1 49 (float64_of_int 49)).
Proof.
  split; [by vm_compute|]. split; [by vm_compute|]. split; [by vm_compute|].
  vm_compute. intros H. discriminate H.
Qed.

(** C4, amended: the output height is the float64 value of
    [H * W_out / W * s], each operation rounded to nearest, truncated to an
    integer, with 0 replaced by 1.  Whenever that value fits an [int], the
    height is at least 1 for non-negative operands, and on a valid input
    the conversions return that many rows: on degenerate geometry they
    neither fail nor return an empty output. *)
Theorem C4_output_height
    (img : Image) (width : Z) (scale : float64) (height : Z) :
  0 ≤ Dx img → 0 ≤ Dy img → 0 ≤ width → float64_nonneg scale →
  outputHeight (Dy img) width (Dx img) scale = Some height →
  1 ≤ height ≤ int_max
  ∧ (∃ t, int_of_float64
            (float64_mul
               (float64_div
                  (float64_mul (float64_of_int (Dy img)) (float64_of_int width))
                  (float64_of_int (Dx img)))
               scale) = Some t
          ∧ 0 ≤ t ∧ height = if t =? 0 then 1 else t)
  ∧ (config_ok img width height →
     (∃ rows, Sequential.toASCII img width scale = Some rows
              ∧ Z.of_nat (length rows) = height ∧ rows ≠ [])
     ∧ (∀ order, Parallel.schedule height order →
        ∃ rows, Parallel.toASCII img width scale order = Some rows
                ∧ Z.of_nat (length rows) = height ∧ rows ≠ [])).
Proof.
  intros HW HH Hw Hs Hh.
  pose proof (outputHeight_positive _ _ _ _ _ HH Hw HW Hs Hh) as Hpos.
  pose proof (outputHeight_range _ _ _ _ _ Hh) as Hrange.
  split; [lia|]. split.
  - unfold outputHeight in Hh.
    destruct (int_of_float64 _) as [t|] eqn:Ht; simpl in Hh; [|done].
    exists t. split; [done|]. injection Hh as <-. split; [|done].
    apply (int_of_float64_nonneg _ _) in Ht; [done|].
    auto using float64_mul_nonneg, float64_div_nonneg, float64_of_int_nonneg.
  - intros Hconfig. split.
    + unfold Sequential.toASCII. rewrite Hh. simpl.
      destruct (build_rows_total height
                  (λ y, build_line width (λ x, pixel_cell img width height x y))
                  (plain_row_shape width)) as (rows & Hr & Hlen & _).
      { destruct Hconfig as (_ & _ & _ & _ & Hd). unfold dim_ok in Hd. lia. }
      { intros y _. apply pixel_row_ok; [apply Hconfig|done]. }
      exists rows. split; [done|]. split; [lia|].
      intros ->. simpl in Hlen. lia.
    + intros order Hsched.
      destruct (parallel_plain_total img width scale height order Hconfig Hh Hsched)
        as (rows & Hr & Hlen & _).
      exists rows. split; [done|]. split; [done|].
      intros ->. simpl in Hlen. lia.
Qed.

Lemma C4_output_height_witness :
  float64_nonneg f0_15
  ∧ outputHeight (Dy split22) 1 (Dx split22) f0_15 = Some 1
  ∧ int_of_float64
      (float64_mul
         (float64_div (float64_mul (float64_of_int 2) (float64_of_int 1)) (float64_of_int 2))
         f0_15) = Some 0
  ∧ (∃ rows, Sequential.toASCII split22 1 f0_15 = Some rows
             ∧ Z.of_nat (length rows) = 1 ∧ rows ≠ []).
Proof.
  assert (float64_nonneg f0_15) as Hs by reflexivity.
  assert (outputHeight (Dy split22) 1 (Dx split22) f0_15 = Some 1) as Hh
    by (vm_compute; reflexivity).
  destruct (C4_output_height split22 1 f0_15 1) as (_ & _ & Hrows);
    [simpl; lia|simpl; lia|lia|exact Hs|exact Hh|].
  assert (config_ok split22 1 1) as Hc by (apply config_split22; unfold dim_ok; lia).
  destruct (Hrows Hc) as [Hseq _].
  split; [exact Hs|]. split; [exact Hh|]. split; [vm_compute; reflexivity|].
  exact Hseq.
Defined.

(** ** C5: uniform images *)

(** In a uniformly coloured image every cell of the one-pixel-per-cell
    variants has the palette index of that colour, and so has every cell
    of the block-averaging variant whose window is not empty, which is
    every cell when the output is not larger than the image in either
    direction. *)
Lemma uniform_image_index
    (img : Image) (c : Color) (width height x y : Z) :
  config_ok img width height → uniform img c → in_grid width height x y →
  pixel_index img width height x y = luminance_index c
  ∧ (¬ window_empty (Parallel.window img width height y x) →
     Parallel.glyph_index <$> Parallel.cell_average img width height y x
     = Some (luminance_index c))
  ∧ (width ≤ Dx img → height ≤ Dy img →
     Parallel.glyph_index <$> Parallel.cell_average img width height y x
     = Some (luminance_index c)).
Proof.
  intros Hconfig Huni Hcell.
  assert (color_ok c) as Hc.
  { destruct Hconfig as ((HW & HH & Hcol) & _).
    rewrite <- (Huni 0 0) by lia. apply Hcol. }
  assert (¬ window_empty (Parallel.window img width height y x) →
          Parallel.glyph_index <$> Parallel.cell_average img width height y x
          = Some (luminance_index c)) as Hfull.
  { intros Hne.
    destruct (uniform_cell_average img width height Hconfig c y x Huni Hcell Hne)
      as [n ->]. simpl. f_equal.
    destruct Hc as (? & ? & ?). rewrite glyph_index_exact by done. by destruct c. }
  split; [|split; [done|]].
  - rewrite pixel_index_exact by apply pixel_of_cell_ok, Hconfig. f_equal.
    pose proof (window_in_image img width height Hconfig y x Hcell) as Hin.
    unfold Parallel.window, Parallel.block_start in Hin.
    unfold pixel_of_cell. apply Huni; lia.
  - intros Hw Hh. apply Hfull. by apply window_nonempty_downscale.
Qed.

(** C5: on the all-white 2x2 image at width 3 and scale 0.5 (one row of
    three cells) the cells of the block-averaging conversion do not map to
    one palette index. The window of the first cell holds no pixel, its
    sums stay zero and it gets index 0; the other cells get index 9, the
    index of white; the row is "@  ". The one-pixel-per-cell conversion
    gives every cell of the same input index 9 and the row "   ". *)
Theorem C5_uniform_image_two_glyphs :
  uniform white22 white
  ∧ config_ok white22 3 1
  ∧ outputHeight (Dy white22) 3 (Dx white22) f0_5 = Some 1
  ∧ window_empty (Parallel.window white22 3 1 0 0)
  ∧ Parallel.glyph_index <$> Parallel.cell_average white22 3 1 0 0 = Some 0
  ∧ Parallel.glyph_index <$> Parallel.cell_average white22 3 1 0 1 = Some 9
  ∧ Parallel.glyph_index <$> Parallel.cell_average white22 3 1 0 2 = Some 9
  ∧ Parallel.toASCII white22 3 f0_5 [0] = Some ["@  "]
  ∧ (∀ x, 0 ≤ x < 3 → pixel_index white22 3 1 x 0 = 9)
  ∧ Sequential.toASCII white22 3 f0_5 = Some ["   "].
Proof.
  split; [apply white22_uniform|].
  split; [apply config_white22; unfold dim_ok; lia|].
  split; [by vm_compute|].
  split; [vm_compute; left; intros H; discriminate H|].
  split; [by vm_compute|]. split; [by vm_compute|].
  split; [by vm_compute|]. split; [by vm_compute|]. split; [|by vm_compute].
  intros x Hx. assert (x = 0 ∨ x = 1 ∨ x = 2) as [-> | [-> | ->]] by lia;
    by vm_compute.
Qed.

(** ** C6: colour cells *)




(** ** C7: the split image at width 4 *)

(** C7, as stated, fails for the block-averaging variant: the second and
    the third cell have the windows [0, 1) and [1, 1), the third is empty
    and is printed as '@', so the row is "@@@ ". *)
Lemma C7_block_average_row :
  outputHeight (Dy split22) 4 (Dx split22) f0_15 = Some 1
  ∧ Parallel.schedule 1 [0]
  ∧ Parallel.toASCII split22 4 f0_15 [0] = Some ["@@@ "]
  ∧ Parallel.toASCII split22 4 f0_15 [0] ≠ Some ["@@  "].
Proof.
  split; [by vm_compute|]. split; [by vm_compute|]. split; [by vm_compute|].
  vm_compute. intros H. discriminate H.
Qed.

(** C7, amended: the one-pixel-per-cell sequential variant converts the
    2x2 image with a black left and a white right column, at width 4 and
    any scale for which the output height is 1 (such as the default 0.15),
    to the single row "@@  ". *)
Theorem C7_split_image_row (scale : float64) :
  outputHeight (Dy split22) 4 (Dx split22) scale = Some 1 →
  Sequential.toASCII split22 4 scale = Some ["@@  "].
Proof.
  intros Hh. unfold Sequential.toASCII. rewrite Hh, bind_Some.
  vm_compute. reflexivity.
Qed.

Lemma C7_split_image_row_witness :
  outputHeight (Dy split22) 4 (Dx split22) f0_15 = Some 1
  ∧ Sequential.toASCII split22 4 f0_15 = Some ["@@  "].
Proof.
  assert (outputHeight (Dy split22) 4 (Dx split22) f0_15 = Some 1) as Hh
    by (vm_compute; reflexivity).
  split; [exact Hh|]. exact (C7_split_image_row f0_15 Hh).
Defined.

(** ** C8: determinism *)

Lemma rows_computable (img : Image) (width height : Z) :
  config_ok img width height →
  (∀ y, 0 ≤ y < height → is_Some (Parallel.plain_row img width height y))
  ∧ (∀ y, 0 ≤ y < height → is_Some (Parallel.color_row img width height y)).
Proof.
  intros Hconfig. split; intros y Hy.
  - destruct (plain_row_ok img width height Hconfig y Hy) as (r & -> & _). eauto.
  - destruct (color_row_ok img width height Hconfig y Hy) as (r & -> & _). eauto.
Qed.

(** C8: two runs of the goroutine-per-row conversion on the same image,
    width and scale return the same rows, in plain and in colour mode,
    however the sends of the row goroutines and the receives of the
    collector interleave; the rows returned are those the collecting loop
    computes for every completion order; and on a valid input some run
    returns and none panics.  The sequential variants are functions of
    their arguments. *)
Theorem C8_conversion_deterministic (img : Image) (width : Z) (scale : float64) :
  (∀ out1 out2,
     Parallel.toASCII_returns img width scale out1 →
     Parallel.toASCII_returns img width scale out2 → out1 = out2)
  ∧ (∀ out1 out2,
       Parallel.colorASCII_returns img width scale out1 →
       Parallel.colorASCII_returns img width scale out2 → out1 = out2)
  ∧ (∀ out height order,
       Parallel.toASCII_returns img width scale out →
       outputHeight (Dy img) width (Dx img) scale = Some height →
       Parallel.schedule height order →
       Parallel.toASCII img width scale order = Some out)
  ∧ (∀ out height order,
       Parallel.colorASCII_returns img width scale out →
       outputHeight (Dy img) width (Dx img) scale = Some height →
       Parallel.schedule height order →
       Parallel.colorASCII img width scale order = Some out)
  ∧ (∀ height,
       config_ok img width height →
       outputHeight (Dy img) width (Dx img) scale = Some height →
       (∃ out, Parallel.toASCII_returns img width scale out)
       ∧ (∃ out, Parallel.colorASCII_returns img width scale out)
       ∧ ¬ Parallel.may_panic height (Parallel.plain_row img width height)
       ∧ ¬ Parallel.may_panic height (Parallel.color_row img width height)).
Proof.
  split; [|split; [|split; [|split]]].
  - intros out1 out2 (h1 & Hh1 & Hr1) (h2 & Hh2 & Hr2).
    assert (h2 = h1) as -> by congruence. by eapply returns_unique.
  - intros out1 out2 (h1 & Hh1 & Hr1) (h2 & Hh2 & Hr2).
    assert (h2 = h1) as -> by congruence. by eapply returns_unique.
  - intros out height order (h & Hh & Hr) Hh' Hsched.
    assert (h = height) as -> by congruence.
    unfold Parallel.toASCII. rewrite Hh, bind_Some. by apply returns_run_rows.
  - intros out height order (h & Hh & Hr) Hh' Hsched.
    assert (h = height) as -> by congruence.
    unfold Parallel.colorASCII. rewrite Hh, bind_Some. by apply returns_run_rows.
  - intros height Hconfig Hh.
    destruct (rows_computable img width height Hconfig) as [Hplain Hcolor].
    assert (0 ≤ height ≤ 2 ^ 44) as Hpos.
    { destruct Hconfig as (_ & _ & _ & _ & Hd). unfold dim_ok in Hd. lia. }
    split; [|split; [|split]].
    + destruct (returns_exists height _ Hpos Hplain) as [out Hout].
      exists out, height. split; [exact Hh|exact Hout].
    + destruct (returns_exists height _ Hpos Hcolor) as [out Hout].
      exists out, height. split; [exact Hh|exact Hout].
    + by apply returns_no_panic.
    + by apply returns_no_panic.
Qed.

Lemma C8_conversion_deterministic_witness :
  config_ok split22 4 2
  ∧ outputHeight (Dy split22) 4 (Dx split22) f0_5 = Some 2
  ∧ Parallel.schedule 2 [1; 0] ∧ Parallel.schedule 2 [0; 1]
  ∧ ∃ out,
      Parallel.toASCII_returns split22 4 f0_5 out
      ∧ Parallel.toASCII split22 4 f0_5 [1; 0] = Some out
      ∧ Parallel.toASCII split22 4 f0_5 [0; 1] = Some out.
Proof.
  assert (config_ok split22 4 2) as Hc by (apply config_split22; unfold dim_ok; lia).
  assert (outputHeight (Dy split22) 4 (Dx split22) f0_5 = Some 2) as Hh
    by (vm_compute; reflexivity).
  assert (Parallel.schedule 2 [1; 0]) as Hs1 by (vm_compute; apply perm_swap).
  assert (Parallel.schedule 2 [0; 1]) as Hs2 by (vm_compute; apply Permutation_refl).
  destruct (C8_conversion_deterministic split22 4 f0_5) as (_ & _ & Hrun & _ & Htotal).
  destruct (Htotal 2 Hc Hh) as ((out & Hout) & _).
  split; [exact Hc|]. split; [exact Hh|]. split; [exact Hs1|]. split; [exact Hs2|].
  exists out. split; [exact Hout|]. split.
  - exact (Hrun out 2 [1; 0] Hout Hh Hs1).
  - exact (Hrun out 2 [0; 1] Hout Hh Hs2).
Defined.

(** ** C9: the palette index *)

(** C9: the luminance of any colour with 16-bit channels is at most 255 and
    its palette index lies in [0, 9], so indexing the 10-character palette
    never panics although the code has no clamp: for every pixel of the
    one-pixel-per-cell variants (src/main.go) and for every averaged cell of
    the block-averaging variant. *)
Theorem C9_palette_index_in_bounds :
  (∀ c, color_ok c →
     0 ≤ gray32 (red c) (green c) (blue c) ≤ 255
     ∧ 0 ≤ charIndex (gray32 (red c) (green c) (blue c)) ≤ 9
     ∧ is_Some (string_index palette (charIndex (gray32 (red c) (green c) (blue c)))))
  ∧ (∀ img width height x y, image_ok img →
       0 ≤ pixel_index img width height x y ≤ 9
       ∧ is_Some (pixel_cell img width height x y))
  ∧ (∀ img width height rowIndex x,
       config_ok img width height → in_grid width height x rowIndex →
       ∃ a, Parallel.cell_average img width height rowIndex x = Some a
            ∧ 0 ≤ Parallel.gray64 (Parallel.rSum a) (Parallel.gSum a) (Parallel.bSum a) ≤ 255
            ∧ 0 ≤ Parallel.glyph_index a ≤ 9
            ∧ is_Some (string_index palette (Parallel.glyph_index a))).
Proof.
  split; [|split].
  - intros c (Hr & Hg & Hb).
    pose proof (gray32_range _ _ _ Hr Hg Hb) as Hgray.
    pose proof (charIndex_range _ Hgray) as Hidx.
    split; [exact Hgray|]. split; [exact Hidx|].
    destruct (string_index_palette _ Hidx) as (char & -> & _). eauto.
  - intros img width height x y Himg. split.
    + by apply pixel_index_range.
    + destruct (pixel_cell_ok img Himg width height x y) as (char & -> & _). eauto.
  - intros img width height rowIndex x Hconfig Hcell.
    destruct (cell_glyph_ok img width height Hconfig rowIndex x Hcell)
      as (a & char & Ha & Hr & Hg & Hb & Hc & _).
    exists a. split; [exact Ha|]. split; [by apply gray64_range|].
    split; [by apply glyph_index_range|]. rewrite Hc. eauto.
Qed.

Lemma C9_palette_index_in_bounds_witness :
  color_ok white
  ∧ gray32 (red white) (green white) (blue white) = 255
  ∧ charIndex (gray32 (red white) (green white) (blue white)) = 9
  ∧ 0 ≤ charIndex (gray32 (red white) (green white) (blue white)) ≤ 9.
Proof.
  destruct C9_palette_index_in_bounds as (Hc & _).
  destruct (Hc white white_ok) as (_ & Hidx & _).
  split; [exact white_ok|]. split; [vm_compute; reflexivity|].
  split; [vm_compute; reflexivity|]. exact Hidx.
Defined.

(** ** C10: empty windows *)

(** C10: a cell whose window is empty in some axis samples no pixel, its
    sums stay zero, its luminance is 0, and it is emitted as '@', in colour
    mode with the colour 0;0;0, instead of failing.  On a valid input some
    cell has an empty window exactly when the output is wider or higher
    than the image. *)
Theorem C10_empty_window_darkest_glyph
    (img : Image) (width height rowIndex x : Z) :
  (window_empty (Parallel.window img width height rowIndex x) →
   (let '(imgX, imgXEnd, imgY, imgYEnd) := Parallel.window img width height rowIndex x in
    Parallel.sample_points imgX imgXEnd imgY imgYEnd = [])
   ∧ Parallel.cell_sums img width height rowIndex x = zero_sums
   ∧ Parallel.cell_average img width height rowIndex x = Some zero_sums
   ∧ Parallel.gray64 (Parallel.rSum zero_sums) (Parallel.gSum zero_sums)
       (Parallel.bSum zero_sums) = 0
   ∧ Parallel.plain_cell img width height rowIndex x = Some "@"%string
   ∧ Parallel.color_cell img width height rowIndex x
     = Some (String ESC ("[38;2;0;0;0m@" +:+ reset)))
  ∧ (config_ok img width height →
     ((∃ x' y', in_grid width height x' y'
                ∧ window_empty (Parallel.window img width height y' x'))
      ↔ (Dx img < width ∨ Dy img < height))).
Proof.
  split.
  - intros Hempty.
    destruct (empty_window_cell img width height rowIndex x Hempty) as [Hsums Havg].
    split; [|split; [exact Hsums|split; [exact Havg|split; [by vm_compute|split]]]].
    + unfold window_empty, Parallel.window in *. by apply sample_points_empty.
    + unfold Parallel.plain_cell. rewrite Havg, bind_Some. vm_compute. reflexivity.
    + unfold Parallel.color_cell. rewrite Havg, bind_Some. vm_compute. reflexivity.
  - intros Hconfig. split.
    + intros (x' & y' & Hcell & Hempty).
      destruct (decide (Dx img < width ∨ Dy img < height)) as [Hup|Hdown]; [done|].
      exfalso.
      apply (window_nonempty_downscale img width height Hconfig y' x' Hcell); [lia|lia|done].
    + intros Hup. exists 0, 0. split.
      * destruct Hconfig as (_ & _ & _ & Hw & Hh). unfold in_grid, dim_ok in *. lia.
      * by apply window_empty_upscale.
Qed.

Lemma C10_empty_window_darkest_glyph_witness :
  window_empty (Parallel.window split22 4 1 0 0)
  ∧ Parallel.cell_sums split22 4 1 0 0 = zero_sums
  ∧ Parallel.plain_cell split22 4 1 0 0 = Some "@"%string
  ∧ Parallel.color_cell split22 4 1 0 0 = Some (String ESC ("[38;2;0;0;0m@" +:+ reset)).
Proof.
  assert (window_empty (Parallel.window split22 4 1 0 0)) as He
    by (vm_compute; left; intros H; discriminate H).
  destruct (C10_empty_window_darkest_glyph split22 4 1 0 0) as [Hcell _].
  destruct (Hcell He) as (_ & Hs & _ & _ & Hp & Hc).
  split; [exact He|]. split; [exact Hs|]. split; [exact Hp|exact Hc].
Defined.

(** * Further properties of the code *)

(** ** Cells: plain and colour mode side by side *)

Section CellPairs.

(** src/unnamed/part_002 and src/main.go: both modes read the same pixel
    and select the same glyph. *)
Lemma pixel_cells_agree (img : Image) (width height x y : Z) :
  image_ok img →
  ∃ char,
    pixel_cell img width height x y = Some (string_of_byte char)
    ∧ pixel_color_cell img width height x y
      = Some (sprintf_cell (Z.shiftr (red (pixel_of_cell img width height x y)) 8)
                (Z.shiftr (green (pixel_of_cell img width height x y)) 8)
                (Z.shiftr (blue (pixel_of_cell img width height x y)) 8) char)
    ∧ in_palette char.
Proof.
  intros Himg.
  destruct (string_index_palette _ (pixel_index_range img Himg width height x y))
    as (char & Hc & Hin).
  destruct (pixel_of_cell_ok img Himg width height x y) as (Hr & Hg & Hb).
  exists char. unfold pixel_cell, pixel_color_cell.
  rewrite Hc, !bind_Some, !uint8_shift8 by assumption.
  split; [reflexivity|]. split; [reflexivity|exact Hin].
Qed.

Lemma pixel_color_row_ok (img : Image) (width height y : Z) :
  image_ok img → 0 ≤ width →
  ∃ row, build_line width (λ x, pixel_color_cell img width height x y) = Some row
         ∧ color_row_shape width row.
Proof.
  intros Himg Hw.
  assert (∀ x, ∃ r g b char,
            pixel_color_cell img width height x y = Some (sprintf_cell r g b char)
            ∧ 0 ≤ r ≤ 255 ∧ 0 ≤ g ≤ 255 ∧ 0 ≤ b ≤ 255 ∧ in_palette char) as Hcells.
  { intros x. destruct (pixel_cells_agree img width height x y Himg) as (char & _ & Hc & Hin).
    destruct (pixel_of_cell_ok img Himg width height x y) as (Hr & Hg & Hb).
    eexists _, _, _, char. split; [exact Hc|].
    split; [by apply shift8_range|]. split; [by apply shift8_range|].
    split; [by apply shift8_range|exact Hin]. }
  rewrite build_line_total.
  2:{ intros x _. destruct (Hcells x) as (r & g & b & c & -> & _). eauto. }
  eexists. split; [reflexivity|]. unfold color_row_shape.
  destruct (concat_color_cells_shape
              (λ x, default EmptyString (pixel_color_cell img width height x y))
              (seqZ 0 width)) as (cells & Heq & Hlen & Hall).
  { intros x _. destruct (Hcells x) as (r & g & b & c & -> & ?). eauto 10. }
  exists cells. rewrite Heq. split; [reflexivity|]. split; [|exact Hall].
  rewrite Hlen, length_seqZ. lia.
Qed.

End CellPairs.

(** ** The one-pixel-per-cell conversions as a whole *)

Section PixelConversions.

Lemma pixel_rows_total (img : Image) (width height : Z) :
  image_ok img → 0 ≤ width → 0 ≤ height ≤ 2 ^ 44 →
  (∃ rows, build_rows height (λ y, build_line width (λ x, pixel_cell img width height x y))
           = Some rows
           ∧ Z.of_nat (length rows) = height ∧ Forall (plain_row_shape width) rows)
  ∧ (∃ rows, build_rows height
               (λ y, build_line width (λ x, pixel_color_cell img width height x y))
             = Some rows
             ∧ Z.of_nat (length rows) = height ∧ Forall (color_row_shape width) rows).
Proof.
  intros Himg Hw Hh. split.
  - destruct (build_rows_total height
                (λ y, build_line width (λ x, pixel_cell img width height x y))
                (plain_row_shape width) Hh) as (rows & Hr & Hlen & Hall).
    { intros y _. by apply pixel_row_ok. }
    exists rows. split; [exact Hr|]. split; [lia|exact Hall].
  - destruct (build_rows_total height
                (λ y, build_line width (λ x, pixel_color_cell img width height x y))
                (color_row_shape width) Hh) as (rows & Hr & Hlen & Hall).
    { intros y _. by apply pixel_color_row_ok. }
    exists rows. split; [exact Hr|]. split; [lia|exact Hall].
Qed.

End PixelConversions.

(** X1 (src/unnamed/part_002, toASCII and colorASCII): for every image with
    16-bit channels, whatever its size, every width from 0 up to [2 ^ 31]
    (excluded) and every scale that gives a height from 0 up to [2 ^ 31]
    (excluded), the sequential conversions return [height] rows of [width]
    palette characters, in colour mode each wrapped in a truecolor escape
    and a reset. The bound on the height keeps [make([]string, height)]
    inside what the runtime allocates; the one on the width does the same
    for the line that is built. *)
Theorem X1_sequential_output_shape
    (img : Image) (width : Z) (scale : float64) (height : Z) :
  image_ok img → 0 ≤ width < 2 ^ 31 →
  outputHeight (Dy img) width (Dx img) scale = Some height →
  0 ≤ height < 2 ^ 31 →
  (∃ rows, Sequential.toASCII img width scale = Some rows
           ∧ Z.of_nat (length rows) = height ∧ Forall (plain_row_shape width) rows)
  ∧ (∃ rows, Sequential.colorASCII img width scale = Some rows
             ∧ Z.of_nat (length rows) = height ∧ Forall (color_row_shape width) rows).
Proof.
  intros Himg Hw Hh Hpos. unfold Sequential.toASCII, Sequential.colorASCII.
  rewrite Hh, !bind_Some. apply pixel_rows_total; [exact Himg|lia|lia].
Qed.

Lemma X1_sequential_output_shape_witness :
  image_ok split22
  ∧ outputHeight (Dy split22) 4 (Dx split22) f0_5 = Some 2
  ∧ (∃ rows, Sequential.toASCII split22 4 f0_5 = Some rows
             ∧ Z.of_nat (length rows) = 2 ∧ Forall (plain_row_shape 4) rows)
  ∧ (∃ rows, Sequential.colorASCII split22 4 f0_5 = Some rows
             ∧ Z.of_nat (length rows) = 2 ∧ Forall (color_row_shape 4) rows).
Proof.
  assert (outputHeight (Dy split22) 4 (Dx split22) f0_5 = Some 2) as Hh
    by (vm_compute; reflexivity).
  split; [exact split22_ok|]. split; [exact Hh|].
  apply (X1_sequential_output_shape split22 4 f0_5 2 split22_ok); [lia|exact Hh|lia].
Defined.

(** X2 (src/main.go, toASCII and colorASCII; src/unnamed/part_000, toASCII):
    with the fixed factor 0.5, for every image with 16-bit channels,
    whatever its size, and every width from 0 up to [2 ^ 31] (excluded)
    whose height stays below [2 ^ 31], the conversions return at least one
    row, [height] rows in all, each of [width] palette characters (wrapped
    in escapes in colour mode). The bound on the height keeps
    [make([]string, height)] inside what the runtime allocates. *)
Theorem X2_legacy_output_shape (img : Image) (width height : Z) :
  image_ok img → 0 ≤ width < 2 ^ 31 →
  outputHeight (Dy img) width (Dx img) f0_5 = Some height →
  height < 2 ^ 31 →
  1 ≤ height
  ∧ (∃ rows, Legacy.toASCII img width = Some rows
             ∧ Z.of_nat (length rows) = height ∧ Forall (plain_row_shape width) rows)
  ∧ (∃ rows, Legacy.colorASCII img width = Some rows
             ∧ Z.of_nat (length rows) = height ∧ Forall (color_row_shape width) rows).
Proof.
  intros Himg Hw Hh Hmax.
  assert (1 ≤ height) as Hpos.
  { destruct Himg as (HW & HH & _).
    apply (outputHeight_positive (Dy img) width (Dx img) f0_5); [lia|lia|lia|reflexivity|exact Hh]. }
  split; [exact Hpos|]. unfold Legacy.toASCII, Legacy.colorASCII.
  rewrite Hh, !bind_Some. apply pixel_rows_total; [exact Himg|lia|lia].
Qed.

Lemma X2_legacy_output_shape_witness :
  image_ok split22
  ∧ outputHeight (Dy split22) 80 (Dx split22) f0_5 = Some 40
  ∧ (∃ rows, Legacy.colorASCII split22 80 = Some rows
             ∧ Z.of_nat (length rows) = 40 ∧ Forall (color_row_shape 80) rows).
Proof.
  assert (outputHeight (Dy split22) 80 (Dx split22) f0_5 = Some 40) as Hh
    by (vm_compute; reflexivity).
  destruct (X2_legacy_output_shape split22 80 40 split22_ok) as (_ & _ & Hc);
    [lia|exact Hh|lia|].
  split; [exact split22_ok|]. split; [exact Hh|exact Hc].
Defined.

(** ** Degenerate configurations *)

Section Degenerate.

Lemma build_rows_negative (height : Z) (line : Z → option string) :
  height < 0 → build_rows height line = None.
Proof. intros. unfold build_rows. by rewrite make_strings_None, bind_None by lia. Qed.

Lemma run_rows_negative (height : Z) (row : Z → option string) (order : list Z) :
  height < 0 → Parallel.run_rows height row order = None.
Proof.
  intros. unfold Parallel.run_rows. by rewrite make_strings_None, bind_None by lia.
Qed.

Lemma float64_mul_zero_l (x y : float64) :
  (∃ s, x = S754_zero s) ∨ x = S754_nan →
  (∃ s, float64_mul x y = S754_zero s) ∨ float64_mul x y = S754_nan.
Proof.
  intros [[s ->]| ->]; destruct y as [sy|sy| |sy my ey]; simpl; eauto.
Qed.

Lemma float64_mul_zero_r (x y : float64) :
  (∃ s, y = S754_zero s) ∨ y = S754_nan →
  (∃ s, float64_mul x y = S754_zero s) ∨ float64_mul x y = S754_nan.
Proof.
  intros [[s ->]| ->]; destruct x as [sx|sx| |sx mx ex]; simpl; eauto.
Qed.

Lemma float64_div_zero_l (x y : float64) :
  (∃ s, x = S754_zero s) ∨ x = S754_nan →
  (∃ s, float64_div x y = S754_zero s) ∨ float64_div x y = S754_nan.
Proof.
  intros [[s ->]| ->]; destruct y as [sy|sy| |sy my ey]; simpl; eauto.
Qed.

(** At width 0 the height, when defined, is the clamped 1. *)
Lemma outputHeight_width_zero (imgHeight imgWidth : Z) (scale : float64) (h : Z) :
  outputHeight imgHeight 0 imgWidth scale = Some h → h = 1.
Proof.
  unfold outputHeight.
  destruct (float64_mul_zero_l
              (float64_div (float64_mul (float64_of_int imgHeight) (float64_of_int 0))
                 (float64_of_int imgWidth)) scale) as [[s ->]| ->].
  { apply float64_div_zero_l, float64_mul_zero_r. left. by exists false. }
  - change (int_of_float64 (S754_zero s)) with (Some 0). rewrite bind_Some.
    intros H. injection H as <-. reflexivity.
  - change (int_of_float64 S754_nan) with (@None Z). rewrite bind_None.
    intros H. discriminate H.
Qed.

End Degenerate.

(** X3 (toASCII and colorASCII of all four files): the guard
    [if height == 0] does not cover a negative height.  When the computed
    height is negative, as for a negative [-scale], [make([]string, height)]
    panics and no variant returns. *)
Theorem X3_negative_height_panics
    (img : Image) (width : Z) (scale : float64) (height : Z) (order : list Z) :
  outputHeight (Dy img) width (Dx img) scale = Some height → height < 0 →
  Sequential.toASCII img width scale = None
  ∧ Sequential.colorASCII img width scale = None
  ∧ Parallel.toASCII img width scale order = None
  ∧ Parallel.colorASCII img width scale order = None
  ∧ (scale = f0_5 → Legacy.toASCII img width = None ∧ Legacy.colorASCII img width = None).
Proof.
  intros Hh Hneg.
  unfold Sequential.toASCII, Sequential.colorASCII, Parallel.toASCII, Parallel.colorASCII.
  rewrite Hh, !bind_Some.
  rewrite !build_rows_negative, !run_rows_negative by exact Hneg.
  split; [reflexivity|]. split; [reflexivity|]. split; [reflexivity|].
  split; [reflexivity|]. intros ->. unfold Legacy.toASCII, Legacy.colorASCII.
  rewrite Hh, !bind_Some, !build_rows_negative by exact Hneg. split; reflexivity.
Qed.

Lemma X3_negative_height_panics_witness :
  outputHeight (Dy split22) 4 (Dx split22) fneg0_5 = Some (-2)
  ∧ Sequential.toASCII split22 4 fneg0_5 = None
  ∧ Parallel.colorASCII split22 4 fneg0_5 [] = None.
Proof.
  assert (outputHeight (Dy split22) 4 (Dx split22) fneg0_5 = Some (-2)) as Hh
    by (vm_compute; reflexivity).
  destruct (X3_negative_height_panics split22 4 fneg0_5 (-2) [] Hh)
    as (Hs & _ & _ & Hp & _); [lia|].
  split; [exact Hh|]. split; [exact Hs|exact Hp].
Defined.

(** X4 (toASCII of part_002 and part_001, and the colour variants): at
    width 0 the inner loop never runs; whenever the height is defined it is
    the clamped 1 and the conversion returns one empty row. *)
Theorem X4_width_zero_one_empty_row
    (img : Image) (scale : float64) (height : Z) (order : list Z) :
  outputHeight (Dy img) 0 (Dx img) scale = Some height →
  Parallel.schedule height order →
  height = 1
  ∧ Sequential.toASCII img 0 scale = Some [EmptyString]
  ∧ Sequential.colorASCII img 0 scale = Some [EmptyString]
  ∧ Parallel.toASCII img 0 scale order = Some [EmptyString]
  ∧ Parallel.colorASCII img 0 scale order = Some [EmptyString].
Proof.
  intros Hh Hsched. pose proof (outputHeight_width_zero _ _ _ _ Hh) as ->.
  split; [reflexivity|].
  unfold Sequential.toASCII, Sequential.colorASCII, Parallel.toASCII, Parallel.colorASCII.
  rewrite Hh, !bind_Some.
  rewrite (build_rows_Some 1 _ (λ _, EmptyString)) by (lia || (intros; reflexivity)).
  rewrite (build_rows_Some 1 _ (λ _, EmptyString)) by (lia || (intros; reflexivity)).
  rewrite (run_rows_Some 1 _ (λ _, EmptyString) order Hsched)
    by (lia || (intros; reflexivity)).
  rewrite (run_rows_Some 1 _ (λ _, EmptyString) order Hsched)
    by (lia || (intros; reflexivity)).
  repeat split; reflexivity.
Qed.

Lemma X4_width_zero_one_empty_row_witness :
  outputHeight (Dy split22) 0 (Dx split22) f0_15 = Some 1
  ∧ Parallel.schedule 1 [0]
  ∧ Sequential.toASCII split22 0 f0_15 = Some [EmptyString]
  ∧ Parallel.colorASCII split22 0 f0_15 [0] = Some [EmptyString].
Proof.
  assert (outputHeight (Dy split22) 0 (Dx split22) f0_15 = Some 1) as Hh
    by (vm_compute; reflexivity).
  assert (Parallel.schedule 1 [0]) as Hs by (vm_compute; apply Permutation_refl).
  destruct (X4_width_zero_one_empty_row split22 f0_15 1 [0] Hh Hs)
    as (_ & Ha & _ & _ & Hb).
  split; [exact Hh|]. split; [exact Hs|]. split; [exact Ha|exact Hb].
Defined.

(** ** Where the samplers read *)

Section Geometry.

Lemma stride_loop_points_count (fuel : nat) (i hi step : Z) :
  0 ≤ i → hi < 2 ^ 62 → 1 ≤ step < 2 ^ 62 → i < hi + step →
  (Z.to_nat (hi - i) ≤ fuel)%nat →
  Z.of_nat (length (stride_loop fuel i hi step (λ i acc, acc ++ [i]) []))
  = (hi - i + step - 1) / step.
Proof.
  revert i. induction fuel as [|fuel IH]; intros i Hi Hhi Hstep Hlt Hfuel.
  - simpl. symmetry. apply Z.div_small. lia.
  - simpl. destruct (Z.ltb_spec i hi).
    + rewrite stride_loop_collect. simpl length.
      rewrite int_add_small by lia. rewrite Nat2Z.inj_succ, IH by lia.
      replace (hi - i + step - 1) with ((hi - (i + step) + step - 1) + 1 * step) by lia.
      rewrite Z.div_add by lia. lia.
    + simpl. symmetry. apply Z.div_small. lia.
Qed.

(** The number of iterations of a strided loop. *)
Lemma stride_points_count (lo hi step : Z) :
  0 ≤ lo ≤ hi → hi < 2 ^ 62 → 1 ≤ step < 2 ^ 62 →
  Z.of_nat (length (stride_points lo hi step)) = (hi - lo + step - 1) / step.
Proof. intros. apply stride_loop_points_count; lia. Qed.

End Geometry.

(** X5 (part_001 toASCII and colorASCII, lines 119-156 and 226-263; part_002
    and main.go, the lines computing imgX and imgY): on a valid input every
    coordinate handed to [img.At] lies inside the image: the one pixel of
    the one-pixel-per-cell variants, and every point visited by the
    sampling loops of the block-averaging variant. *)
Theorem X5_samples_inside_image
    (img : Image) (width height x y : Z) :
  config_ok img width height → in_grid width height x y →
  pixel_of_cell img width height x y
  = At img (x * Dx img / width) (y * Dy img / height)
  ∧ 0 ≤ x * Dx img / width < Dx img
  ∧ 0 ≤ y * Dy img / height < Dy img
  ∧ (let '(imgX, imgXEnd, imgY, imgYEnd) := Parallel.window img width height y x in
     Forall (λ p, 0 ≤ p.1 < Dx img ∧ 0 ≤ p.2 < Dy img)
       (Parallel.sample_points imgX imgXEnd imgY imgYEnd)).
Proof.
  intros Hconfig Hcell.
  pose proof (window_in_image img width height Hconfig y x Hcell) as Hin.
  pose proof (window_of_cell_ok img width height Hconfig y x Hcell) as Hok.
  destruct Hconfig as (_ & HW & HH & Hw & Hh). destruct Hcell as [Hx Hy].
  unfold Parallel.window in *.
  assert (Parallel.block_start x (Dx img) width = x * Dx img / width) as Hsx.
  { apply block_start_exact; unfold dim_ok in *; lia. }
  assert (Parallel.block_start y (Dy img) height = y * Dy img / height) as Hsy.
  { apply block_start_exact; unfold dim_ok in *; lia. }
  split; [|split; [|split]].
  - unfold pixel_of_cell. unfold Parallel.block_start in Hsx, Hsy.
    by rewrite Hsx, Hsy.
  - rewrite <- Hsx. lia.
  - rewrite <- Hsy. lia.
  - eapply Forall_impl; [by apply sample_points_bounds|].
    intros [px py] Hp. simpl in *. lia.
Qed.

Lemma X5_samples_inside_image_witness :
  config_ok split22 4 2 ∧ in_grid 4 2 3 1
  ∧ pixel_of_cell split22 4 2 3 1 = At split22 1 1
  ∧ Forall (λ p, 0 ≤ p.1 < 2 ∧ 0 ≤ p.2 < 2) (Parallel.sample_points 1 2 1 2).
Proof.
  assert (config_ok split22 4 2) as Hc by (apply config_split22; unfold dim_ok; lia).
  assert (in_grid 4 2 3 1) as Hg by (unfold in_grid; lia).
  destruct (X5_samples_inside_image split22 4 2 3 1 Hc Hg) as (Hp & _ & _ & Hs).
  split; [exact Hc|]. split; [exact Hg|]. split; [exact Hp|exact Hs].
Defined.

(** X6 (part_001, lines 119-131 and 226-238): for positive dimensions below
    2^31 the windows of consecutive cells tile the image: the first starts
    at 0, each ends where the next starts, the last ends at the image's
    extent; and the clamp [if imgXEnd > imgWidth] never changes a value. *)
Theorem X6_windows_tile_the_image (extent n i : Z) :
  dim_ok extent → dim_ok n → 0 ≤ i < n →
  Parallel.block_start 0 extent n = 0
  ∧ Parallel.block_end (n - 1) extent n = extent
  ∧ (i + 1 < n → Parallel.block_end i extent n = Parallel.block_start (i + 1) extent n)
  ∧ Parallel.block_end i extent n = int_div (int_mul (int_add i 1) extent) n
  ∧ Parallel.block_start i extent n ≤ Parallel.block_end i extent n.
Proof.
  intros He Hn Hi. pose proof (block_bounds i extent n Hi He Hn) as Hb.
  unfold dim_ok in *.
  rewrite (block_start_exact 0), (block_end_exact (n - 1)), (block_end_exact i)
    by (unfold dim_ok; lia).
  split; [by rewrite Z.mul_0_l, Z.div_0_l by lia|].
  split; [replace (n - 1 + 1) with n by lia; by rewrite Z.mul_comm, Z.div_mul by lia|].
  split; [intros; by rewrite block_start_exact by (unfold dim_ok; lia)|].
  split.
  - rewrite int_add_small, int_mul_small, int_div_small by nia. reflexivity.
  - rewrite <- (block_end_exact i) by (unfold dim_ok; lia). lia.
Qed.

Lemma X6_windows_tile_the_image_witness :
  Parallel.block_start 0 10 3 = 0 ∧ Parallel.block_end 2 10 3 = 10
  ∧ Parallel.block_end 1 10 3 = Parallel.block_start 2 10 3.
Proof.
  destruct (X6_windows_tile_the_image 10 3 1) as (Ha & Hb & Hc & _);
    [unfold dim_ok; lia|unfold dim_ok; lia|lia|].
  split; [exact Ha|]. split; [exact Hb|]. apply Hc. lia.
Defined.

(** X7 (part_001, lines 137-156 and 244-263): the number of pixels sampled
    for a cell is the product of the iteration counts of the two strided
    loops, ceil(extent / stride) in each axis; it never exceeds 25, and it
    is exactly 9 when the window's width and height are positive multiples
    of 3. *)
Theorem X7_sample_count_formula
    (img : Image) (width height rowIndex x : Z) :
  config_ok img width height → in_grid width height x rowIndex →
  let '(imgX, imgXEnd, imgY, imgYEnd) := Parallel.window img width height rowIndex x in
  let count := Parallel.pixelCount (Parallel.cell_sums img width height rowIndex x) in
  let strideX := Z.max 1 ((imgXEnd - imgX) / 3) in
  let strideY := Z.max 1 ((imgYEnd - imgY) / 3) in
  count = ((imgXEnd - imgX + strideX - 1) / strideX)
          * ((imgYEnd - imgY + strideY - 1) / strideY)
  ∧ 0 ≤ count ≤ 25
  ∧ (∀ a b, 0 < a → 0 < b → imgXEnd - imgX = 3 * a → imgYEnd - imgY = 3 * b →
            count = 9).
Proof.
  intros Hconfig Hcell.
  pose proof (window_of_cell_ok img width height Hconfig rowIndex x Hcell) as Hok.
  pose proof (cell_sums_count img width height Hconfig rowIndex x Hcell) as Hcount.
  unfold Parallel.window in *. cbv zeta.
  set (imgX := Parallel.block_start x (Dx img) width) in *.
  set (imgXEnd := Parallel.block_end x (Dx img) width) in *.
  set (imgY := Parallel.block_start rowIndex (Dy img) height) in *.
  set (imgYEnd := Parallel.block_end rowIndex (Dy img) height) in *.
  destruct Hok as (HX & HXE & HY & HYE).
  pose proof (sample_points_le_25 imgX imgXEnd imgY imgYEnd) as H25.
  rewrite Hcount, sample_points_length, Nat2Z.inj_mul.
  pose proof (stride_covers imgX imgXEnd HX HXE) as [HsX _].
  pose proof (stride_covers imgY imgYEnd HY HYE) as [HsY _].
  rewrite !stride_points_count by lia.
  rewrite !stride_exact by lia.
  assert (((imgXEnd - imgX + Z.max 1 ((imgXEnd - imgX) / 3) - 1)
             / Z.max 1 ((imgXEnd - imgX) / 3))
          * ((imgYEnd - imgY + Z.max 1 ((imgYEnd - imgY) / 3) - 1)
               / Z.max 1 ((imgYEnd - imgY) / 3))
          = Z.of_nat (length (Parallel.sample_points imgX imgXEnd imgY imgYEnd))) as Heq.
  { rewrite sample_points_length, Nat2Z.inj_mul, !stride_points_count by lia.
    rewrite !stride_exact by lia. lia. }
  split; [lia|]. split.
  - rewrite Z.mul_comm, Heq. specialize (H25 ltac:(unfold window_ok; lia)). lia.
  - intros a b Ha Hb HeqX HeqY. rewrite HeqX, HeqY.
    replace (3 * a / 3) with a by (rewrite Z.mul_comm, Z.div_mul; lia).
    replace (3 * b / 3) with b by (rewrite Z.mul_comm, Z.div_mul; lia).
    rewrite !Z.max_r by lia.
    replace (3 * a + a - 1) with (a - 1 + 3 * a) by lia.
    replace (3 * b + b - 1) with (b - 1 + 3 * b) by lia.
    rewrite !Z.div_add by lia. rewrite !Z.div_small by lia. reflexivity.
Qed.

Lemma X7_sample_count_formula_witness :
  config_ok split22 2 1 ∧ in_grid 2 1 1 0
  ∧ Parallel.pixelCount (Parallel.cell_sums split22 2 1 0 1) = 1 * 2
  ∧ 0 ≤ Parallel.pixelCount (Parallel.cell_sums split22 2 1 0 1) ≤ 25.
Proof.
  assert (config_ok split22 2 1) as Hc by (apply config_split22; unfold dim_ok; lia).
  assert (in_grid 2 1 1 0) as Hg by (unfold in_grid; lia).
  pose proof (X7_sample_count_formula split22 2 1 0 1 Hc Hg) as H.
  change (Parallel.window split22 2 1 0 1) with (1, 2, 0, 2) in H.
  destruct H as (Hf & Hb & _).
  split; [exact Hc|]. split; [exact Hg|]. split; [exact Hf|exact Hb].
Defined.

(** ** The scheduler: channel capacity, termination, what is left at the end *)

Section SchedulerRuns.

Import Parallel.
Context (height : Z) (row : Z → option string).

Lemma invariant_counts (s : sched) :
  invariant height row s →
  (length (running s) + length (resultChan s) + Z.to_nat (received s))%nat
  = Z.to_nat height.
Proof.
  intros (got & Hperm & Hrecv & _).
  apply Permutation_length in Hperm.
  rewrite !length_app, length_fmap, length_seqZ in Hperm. lia.
Qed.

Lemma invariant_nsteps (n : nat) (s : sched) :
  0 ≤ height →
  nsteps (moves height row) n
    (launched height (replicate (Z.to_nat height) EmptyString)) s →
  invariant height row s.
Proof.
  intros Hh Hrun. apply invariant_reachable; [exact Hh|].
  by eapply rtc_nsteps_2.
Qed.

End SchedulerRuns.

(** X8 (part_001, line 111 [resultChan := make(chan rowResult, height)] and
    line 174, the send): in every state a run can reach, the channel holds
    fewer than [height] messages as long as some goroutine has not sent
    yet, so no send ever blocks; the buffer never holds more than [height]
    messages. *)
Theorem X8_send_never_blocks
    (height : Z) (row : Z → option string) (s : Parallel.sched) :
  0 ≤ height →
  rtc (Parallel.moves height row)
    (Parallel.launched height (replicate (Z.to_nat height) EmptyString)) s →
  Z.of_nat (length (Parallel.resultChan s)) ≤ height
  ∧ (Parallel.running s ≠ [] → Z.of_nat (length (Parallel.resultChan s)) < height).
Proof.
  intros Hh Hrun. pose proof (invariant_reachable height row s Hh Hrun) as Hinv.
  pose proof (invariant_counts height row s Hinv) as Hcount.
  split; [lia|]. intros Hne. by apply (send_never_blocks height row).
Qed.

Lemma X8_send_never_blocks_witness :
  Z.of_nat (length (Parallel.resultChan
                      (Parallel.launched 2 (replicate (Z.to_nat 2) EmptyString)))) < 2.
Proof.
  destruct (X8_send_never_blocks 2 (λ _, Some EmptyString)
              (Parallel.launched 2 (replicate (Z.to_nat 2) EmptyString)))
    as [_ H]; [lia|apply rtc_refl|].
  apply H. vm_compute. intros E. discriminate E.
Defined.

(** X9 (part_001, lines 113-182, the goroutines and the collecting loop):
    a run of [n] moves leaves [2 * height - n] units of work (two per
    goroutine still to send, one per message still to receive), so every
    run has at most [2 * height] moves; and when every row can be computed,
    a state the collector has not finished in can always move: the
    collector is never left waiting for a message that will not come. *)
Theorem X9_scheduler_terminates_without_deadlock
    (height : Z) (row : Z → option string) (n : nat) (s : Parallel.sched) :
  0 ≤ height →
  nsteps (Parallel.moves height row) n
    (Parallel.launched height (replicate (Z.to_nat height) EmptyString)) s →
  (n + pending_work s = 2 * Z.to_nat height)%nat
  ∧ ((∀ y, 0 ≤ y < height → is_Some (row y)) →
     Parallel.received s < height → ∃ s', Parallel.moves height row s s')
  ∧ (Parallel.received s = height ↔ n = (2 * Z.to_nat height)%nat).
Proof.
  intros Hh Hrun. pose proof (invariant_nsteps height row n s Hh Hrun) as Hinv.
  pose proof (run_length height row n _ _ Hrun) as Hlen.
  pose proof (invariant_counts height row s Hinv) as Hcount.
  assert (0 ≤ Parallel.received s) as Hrecv.
  { destruct Hinv as (got & _ & -> & _). lia. }
  unfold pending_work in *. simpl in Hlen. rewrite length_seqZ in Hlen.
  split; [lia|]. split.
  - intros Hrows Hlt. by apply scheduler_progress.
  - lia.
Qed.

Lemma X9_scheduler_terminates_without_deadlock_witness :
  (0 + pending_work (Parallel.launched 2 (replicate (Z.to_nat 2) EmptyString))
   = 2 * Z.to_nat 2)%nat
  ∧ ∃ s', Parallel.moves 2 (λ _, Some EmptyString)
            (Parallel.launched 2 (replicate (Z.to_nat 2) EmptyString)) s'.
Proof.
  destruct (X9_scheduler_terminates_without_deadlock 2 (λ _, Some EmptyString) 0
              (Parallel.launched 2 (replicate (Z.to_nat 2) EmptyString)))
    as (Hw & Hp & _); [lia|apply nsteps_O|].
  split; [exact Hw|]. apply Hp; [intros; eexists; reflexivity|simpl; lia].
Defined.

(** X10 (part_001, lines 178-186): when the collecting loop has received
    [height] messages, every goroutine has sent and the channel is empty:
    [close(resultChan)] discards nothing, and the result holds one row
    per row index. *)
Theorem X10_nothing_left_at_return
    (height : Z) (row : Z → option string) (s : Parallel.sched) :
  0 ≤ height →
  rtc (Parallel.moves height row)
    (Parallel.launched height (replicate (Z.to_nat height) EmptyString)) s →
  Parallel.received s = height →
  Parallel.running s = [] ∧ Parallel.resultChan s = []
  ∧ Z.of_nat (length (Parallel.result s)) = height
  ∧ ∀ y, 0 ≤ y < height → Parallel.result s !! Z.to_nat y = row y.
Proof.
  intros Hh Hrun Hfin. pose proof (invariant_reachable height row s Hh Hrun) as Hinv.
  pose proof (invariant_counts height row s Hinv) as Hcount.
  pose proof (invariant_final height row s Hh Hinv Hfin) as Hrows.
  split; [apply length_zero_iff_nil; lia|].
  split; [apply length_zero_iff_nil; lia|].
  destruct Hinv as (got & _ & _ & Hlen & _). split; [lia|].
  intros y Hy.
  assert ((row <$> seqZ 0 height) !! Z.to_nat y = Some (row y)) as Hl.
  { rewrite list_lookup_fmap, lookup_seqZ_lt by lia. simpl. f_equal. f_equal. lia. }
  rewrite <- Hrows, list_lookup_fmap in Hl.
  destruct (Parallel.result s !! Z.to_nat y) as [v|]; simpl in Hl; [|discriminate Hl].
  injection Hl as Hl. by rewrite <- Hl.
Qed.

Lemma X10_nothing_left_at_return_witness :
  rtc (Parallel.moves 1 (λ _, Some "@"%string))
    (Parallel.launched 1 (replicate (Z.to_nat 1) EmptyString))
    (Parallel.mkSched [] [] ["@"%string] 1)
  ∧ Parallel.running (Parallel.mkSched [] [] ["@"%string] 1) = []
  ∧ Parallel.resultChan (Parallel.mkSched [] [] ["@"%string] 1) = []
  ∧ Parallel.result (Parallel.mkSched [] [] ["@"%string] 1) !! Z.to_nat 0
    = Some "@"%string.
Proof.
  assert (rtc (Parallel.moves 1 (λ _, Some "@"%string))
            (Parallel.launched 1 (replicate (Z.to_nat 1) EmptyString))
            (Parallel.mkSched [] [] ["@"%string] 1)) as Hrun.
  { apply (rtc_l _ _ (Parallel.mkSched [] [Parallel.mkRowResult 0 "@"] [EmptyString] 0)).
    - exact (Parallel.step_send 1 (λ _, Some "@"%string)
               (Parallel.launched 1 (replicate (Z.to_nat 1) EmptyString))
               [] 0 [] (Parallel.mkRowResult 0 "@") eq_refl eq_refl eq_refl).
    - apply (rtc_l _ _ (Parallel.mkSched [] [] ["@"%string] 1)); [|apply rtc_refl].
      exact (Parallel.step_receive 1 (λ _, Some "@"%string)
               (Parallel.mkSched [] [Parallel.mkRowResult 0 "@"] [EmptyString] 0)
               (Parallel.mkRowResult 0 "@") [] eq_refl eq_refl). }
  destruct (X10_nothing_left_at_return 1 (λ _, Some "@"%string)
              (Parallel.mkSched [] [] ["@"%string] 1))
    as (Ha & Hb & _ & Hc); [lia|exact Hrun|reflexivity|].
  split; [exact Hrun|]. split; [exact Ha|]. split; [exact Hb|].
  apply (Hc 0). lia.
Defined.

(** ** The glyph mapping *)

Section GlyphMapping.

Lemma luminance_index_mono (c1 c2 : Color) :
  color_ok c1 → color_ok c2 →
  red c1 ≤ red c2 → green c1 ≤ green c2 → blue c1 ≤ blue c2 →
  luminance_index c1 ≤ luminance_index c2.
Proof.
  intros (? & ? & ?) (? & ? & ?) Hr Hg Hb. unfold luminance_index, channel_ok in *.
  apply Z.div_le_mono; [lia|]. apply Z.mul_le_mono_nonneg_r; [lia|].
  apply Z.div_le_mono; [lia|]. apply Z.div_le_mono; lia.
Qed.

Lemma charIndex_gray32 (c : Color) :
  color_ok c → charIndex (gray32 (red c) (green c) (blue c)) = luminance_index c.
Proof.
  intros (Hr & Hg & Hb). unfold luminance_index.
  rewrite charIndex_exact by (by apply gray32_range). by rewrite gray32_exact.
Qed.

Lemma glyph_index_color (c : Color) (n : Z) :
  color_ok c →
  Parallel.glyph_index (Parallel.mkSums (red c) (green c) (blue c) n) = luminance_index c.
Proof.
  intros (Hr & Hg & Hb). rewrite glyph_index_exact by assumption. by destruct c.
Qed.

End GlyphMapping.

(** X11 (the lines [gray := ...; charIndex := ...] of every toASCII and
    colorASCII): the glyph mapping is monotone: a colour that is at least
    as bright in every channel gets a palette index that is not smaller, in
    the uint32 arithmetic of the one-pixel variants and in the uint64
    arithmetic of the block-averaging variant alike; black maps to index 0,
    the glyph '@', and white to index 9, the blank. *)
Theorem X11_glyph_mapping_monotone (c1 c2 : Color) (n1 n2 : Z) :
  color_ok c1 → color_ok c2 →
  red c1 ≤ red c2 → green c1 ≤ green c2 → blue c1 ≤ blue c2 →
  charIndex (gray32 (red c1) (green c1) (blue c1))
  ≤ charIndex (gray32 (red c2) (green c2) (blue c2))
  ∧ Parallel.glyph_index (Parallel.mkSums (red c1) (green c1) (blue c1) n1)
    ≤ Parallel.glyph_index (Parallel.mkSums (red c2) (green c2) (blue c2) n2)
  ∧ charIndex (gray32 (red c1) (green c1) (blue c1))
    = Parallel.glyph_index (Parallel.mkSums (red c1) (green c1) (blue c1) n1)
  ∧ string_index palette (charIndex (gray32 (red black) (green black) (blue black)))
    = Some "@"%char
  ∧ string_index palette (charIndex (gray32 (red white) (green white) (blue white)))
    = Some " "%char.
Proof.
  intros Hc1 Hc2 Hr Hg Hb.
  rewrite !charIndex_gray32, !glyph_index_color by assumption.
  pose proof (luminance_index_mono c1 c2 Hc1 Hc2 Hr Hg Hb).
  split; [assumption|]. split; [assumption|]. split; [reflexivity|].
  split; vm_compute; reflexivity.
Qed.

Lemma X11_glyph_mapping_monotone_witness :
  charIndex (gray32 (red black) (green black) (blue black))
  ≤ charIndex (gray32 (red white) (green white) (blue white)).
Proof.
  destruct (X11_glyph_mapping_monotone black white 1 1 black_ok white_ok) as [H _];
    [simpl; lia|simpl; lia|simpl; lia|].
  exact H.
Defined.

(** X12 (the same lines): the integer division [gray * 9 / 255] gives the
    last index only at gray 255: a pixel is printed as the blank exactly
    when its luminance is 255, that is when 299*r + 587*g + 114*b is at
    least 65,280,000; index 0 covers gray 0 to 28. *)
Theorem X12_blank_only_at_full_luminance (c : Color) :
  color_ok c →
  (charIndex (gray32 (red c) (green c) (blue c)) = 9
   ↔ 65280000 ≤ 299 * red c + 587 * green c + 114 * blue c)
  ∧ (charIndex (gray32 (red c) (green c) (blue c)) = 9
     ↔ gray32 (red c) (green c) (blue c) = 255)
  ∧ (charIndex (gray32 (red c) (green c) (blue c)) = 0
     ↔ gray32 (red c) (green c) (blue c) ≤ 28).
Proof.
  intros (Hr & Hg & Hb).
  pose proof (gray32_range _ _ _ Hr Hg Hb) as Hgray.
  rewrite charIndex_exact by assumption.
  assert (∀ g, 0 ≤ g ≤ 255 → (g * 9 / 255 = 9 ↔ g = 255)) as H9.
  { intros g Hg'. pose proof (Z.div_mod (g * 9) 255 ltac:(lia)).
    pose proof (Z.mod_pos_bound (g * 9) 255 ltac:(lia)). lia. }
  assert (∀ g, 0 ≤ g ≤ 255 → (g * 9 / 255 = 0 ↔ g ≤ 28)) as H0.
  { intros g Hg'. pose proof (Z.div_mod (g * 9) 255 ltac:(lia)).
    pose proof (Z.mod_pos_bound (g * 9) 255 ltac:(lia)). lia. }
  split; [|split; [by apply H9|by apply H0]].
  rewrite H9 by assumption. rewrite gray32_exact by assumption.
  unfold channel_ok in *.
  set (sum := 299 * red c + 587 * green c + 114 * blue c) in *.
  pose proof (Z.div_mod sum 1000 ltac:(lia)).
  pose proof (Z.mod_pos_bound sum 1000 ltac:(lia)).
  pose proof (Z.div_mod (sum / 1000) 256 ltac:(lia)).
  pose proof (Z.mod_pos_bound (sum / 1000) 256 ltac:(lia)).
  lia.
Qed.

Lemma X12_blank_only_at_full_luminance_witness :
  charIndex (gray32 (red white) (green white) (blue white)) = 9
  ↔ 65280000 ≤ 299 * red white + 587 * green white + 114 * blue white.
Proof.
  destruct (X12_blank_only_at_full_luminance white white_ok) as [H _]. exact H.
Defined.

(** ** When the two sampling strategies agree *)

(** X15 (part_001 lines 119-170 against part_002 lines 105-117): the
    block-averaging cell equals the one-pixel cell whenever the window is
    not empty and every sampled pixel has the colour of the window's
    top-left pixel, which is the pixel the one-pixel variant reads. *)
Theorem X15_flat_window_agreement
    (img : Image) (width height rowIndex x : Z) :
  config_ok img width height → in_grid width height x rowIndex →
  ¬ window_empty (Parallel.window img width height rowIndex x) →
  (let '(imgX, imgXEnd, imgY, imgYEnd) := Parallel.window img width height rowIndex x in
   Forall (λ p, At img p.1 p.2 = At img imgX imgY)
     (Parallel.sample_points imgX imgXEnd imgY imgYEnd)) →
  pixel_of_cell img width height x rowIndex
  = At img (Parallel.block_start x (Dx img) width)
      (Parallel.block_start rowIndex (Dy img) height)
  ∧ Parallel.plain_cell img width height rowIndex x
    = pixel_cell img width height x rowIndex
  ∧ Parallel.color_cell img width height rowIndex x
    = pixel_color_cell img width height x rowIndex.
Proof.
  intros Hconfig Hcell Hne Hflat.
  pose proof (window_of_cell_ok img width height Hconfig rowIndex x Hcell) as Hok.
  pose proof (nonempty_window_sampled img width height Hconfig rowIndex x Hcell Hne) as Hcount.
  rewrite (cell_sums_count img width height Hconfig) in Hcount by assumption.
  assert (∀ u v, color_ok (At img u v)) as Hcol by apply Hconfig.
  unfold Parallel.window in *.
  set (imgX := Parallel.block_start x (Dx img) width) in *.
  set (imgXEnd := Parallel.block_end x (Dx img) width) in *.
  set (imgY := Parallel.block_start rowIndex (Dy img) height) in *.
  set (imgYEnd := Parallel.block_end rowIndex (Dy img) height) in *.
  set (c := At img imgX imgY) in *.
  pose proof (sample_points_le_25 _ _ _ _ Hok) as H25.
  assert (pixel_of_cell img width height x rowIndex = c) as Hpix by reflexivity.
  assert (Parallel.cell_average img width height rowIndex x
          = Some (Parallel.mkSums (red c) (green c) (blue c)
                    (Z.of_nat (length (Parallel.sample_points imgX imgXEnd imgY imgYEnd)))))
    as Havg.
  { unfold Parallel.cell_average, Parallel.cell_sums, Parallel.window.
    fold imgX imgXEnd imgY imgYEnd.
    apply average_uniform; [lia|]. rewrite sample_block_points.
    apply (sample_fold_uniform img c _ 0); [apply Hcol|exact Hflat|lia|lia|].
    unfold uniform_sums. simpl. lia. }
  destruct (Hcol imgX imgY) as (Hr & Hg & Hb). fold c in Hr, Hg, Hb.
  assert (Parallel.glyph_index
            (Parallel.mkSums (red c) (green c) (blue c)
               (Z.of_nat (length (Parallel.sample_points imgX imgXEnd imgY imgYEnd))))
          = pixel_index img width height x rowIndex) as Hidx.
  { rewrite glyph_index_color by (split; [|split]; assumption).
    unfold pixel_index. rewrite Hpix.
    symmetry. apply charIndex_gray32. split; [|split]; assumption. }
  split; [reflexivity|]. split.
  - unfold Parallel.plain_cell, pixel_cell. rewrite Havg, bind_Some, Hidx. reflexivity.
  - unfold Parallel.color_cell, pixel_color_cell.
    rewrite Havg, bind_Some, Hidx, Hpix. reflexivity.
Qed.

Lemma X15_flat_window_agreement_witness :
  config_ok split22 2 1 ∧ in_grid 2 1 1 0
  ∧ Parallel.plain_cell split22 2 1 0 1 = pixel_cell split22 2 1 1 0
  ∧ Parallel.color_cell split22 2 1 0 1 = pixel_color_cell split22 2 1 1 0.
Proof.
  assert (config_ok split22 2 1) as Hc by (apply config_split22; unfold dim_ok; lia).
  assert (in_grid 2 1 1 0) as Hg by (unfold in_grid; lia).
  destruct (X15_flat_window_agreement split22 2 1 0 1 Hc Hg) as (_ & Hp & Hcol).
  - vm_compute. intros [H|H]; apply H; reflexivity.
  - vm_compute. repeat constructor.
  - split; [exact Hc|]. split; [exact Hg|]. split; [exact Hp|exact Hcol].
Defined.

(** ** Termination of the sampling loops *)

(** X16 (part_001, lines 137-156: the guards [if strideX < 1] and the two
    [for] loops): the stride of a window is at least 1, so each sampling
    loop leaves its range after at most [hi - lo] iterations: running the
    loop with any additional fuel gives the same result, for every loop
    body. *)
Theorem X16_sampling_loops_terminate
    {S : Type} (lo hi : Z) (extra : nat) (body : Z → S → S) (s : S) :
  0 ≤ lo ≤ hi → hi < 2 ^ 31 →
  1 ≤ Parallel.stride lo hi
  ∧ stride_loop (Z.to_nat (hi - lo) + extra) lo hi (Parallel.stride lo hi) body s
    = for_stride lo hi (Parallel.stride lo hi) body s
  ∧ Forall (λ p, lo ≤ p < hi) (stride_points lo hi (Parallel.stride lo hi)).
Proof.
  intros Hlo Hhi. pose proof (stride_covers lo hi Hlo Hhi) as [Hs _].
  split; [lia|]. split.
  - apply for_stride_fuel; lia.
  - apply stride_points_bounds; lia.
Qed.

Lemma X16_sampling_loops_terminate_witness :
  1 ≤ Parallel.stride 0 10
  ∧ stride_loop (Z.to_nat (10 - 0) + 7) 0 10 (Parallel.stride 0 10) (λ i acc, acc ++ [i]) []
    = [0; 3; 6; 9].
Proof.
  destruct (X16_sampling_loops_terminate 0 10 7 (λ i acc, acc ++ [i]) [])
    as (Hs & Hf & _); [lia|lia|].
  split; [exact Hs|]. rewrite Hf. vm_compute. reflexivity.
Defined.

(** ** Decimal components and line feeds *)

Section Decimal.

Lemma pretty_N_char_digit (x : N) : is_digit (pretty_N_char x).
Proof.
  unfold is_digit, pretty_N_char. repeat case_match; simpl; tauto.
Qed.

Lemma pretty_N_go_digits (x : N) (s : string) :
  Forall is_digit (list_ascii_of_string s) →
  Forall is_digit (list_ascii_of_string (pretty_N_go x s)).
Proof.
  revert s. induction (N.lt_wf_0 x) as [x _ IH]. intros s Hs.
  destruct (decide (x = 0)%N) as [->|Hx].
  - by rewrite pretty_N_go_0.
  - rewrite pretty_N_go_step by lia. apply IH.
    + apply N.div_lt; lia.
    + simpl. constructor; [apply pretty_N_char_digit|exact Hs].
Qed.

(** [%d] of a value that is not negative prints digits only. *)
Lemma pretty_digits (n : Z) :
  0 ≤ n → Forall is_digit (list_ascii_of_string (pretty n)).
Proof.
  intros Hn. destruct n as [|p|p]; [|clear Hn|lia].
  - repeat constructor.
  - change (pretty (Z.pos p)) with (pretty (N.pos p)).
    unfold pretty, pretty_N. destruct (decide (N.pos p = 0)%N); [lia|].
    apply pretty_N_go_digits. constructor.
Qed.

Lemma count_newlines_app (s1 s2 : string) :
  count_newlines (s1 +:+ s2) = (count_newlines s1 + count_newlines s2)%nat.
Proof.
  induction s1 as [|a s1 IH]; [reflexivity|].
  change (String a s1 +:+ s2) with (String a (s1 +:+ s2)). simpl.
  rewrite IH. by destruct (Ascii.eqb a _).
Qed.

Lemma count_newlines_none (s : string) (P : ascii → Prop) :
  ¬ P (ascii_of_nat 10) → Forall P (list_ascii_of_string s) → count_newlines s = 0%nat.
Proof.
  intros Hnl. induction s as [|a s IH]; intros Hall; [reflexivity|].
  simpl in *. apply Forall_cons in Hall as [Ha Hall].
  destruct (Ascii.eqb_spec a (ascii_of_nat 10)) as [->|_]; [done|by apply IH].
Qed.

Lemma digit_not_newline : ¬ is_digit (ascii_of_nat 10).
Proof. unfold is_digit. simpl. intros H. repeat destruct H as [H|H]; discriminate H || done. Qed.

Lemma palette_not_newline : ¬ in_palette (ascii_of_nat 10).
Proof. unfold in_palette. simpl. intros H. repeat destruct H as [H|H]; discriminate H || done. Qed.

Lemma sprintf_cell_no_newline (r g b : Z) (c : ascii) :
  0 ≤ r → 0 ≤ g → 0 ≤ b → in_palette c → count_newlines (sprintf_cell r g b c) = 0%nat.
Proof.
  intros Hr Hg Hb Hc. unfold sprintf_cell. rewrite !count_newlines_app.
  rewrite !(count_newlines_none (pretty _) is_digit)
    by (apply digit_not_newline || by apply pretty_digits).
  rewrite (count_newlines_none (string_of_byte c) in_palette);
    [reflexivity|apply palette_not_newline|].
  simpl. by constructor.
Qed.

Lemma plain_row_no_newline (width : Z) (row : string) :
  plain_row_shape width row → count_newlines row = 0%nat.
Proof.
  intros [_ Hall]. apply (count_newlines_none row in_palette); [|exact Hall].
  apply palette_not_newline.
Qed.

Lemma concat_no_newline (pieces : list string) :
  Forall (λ s, count_newlines s = 0%nat) pieces →
  count_newlines (concat_strings pieces) = 0%nat.
Proof.
  induction 1 as [|s pieces Hs _ IH]; [reflexivity|].
  simpl. by rewrite count_newlines_app, Hs, IH.
Qed.

Lemma color_row_no_newline (width : Z) (row : string) :
  color_row_shape width row → count_newlines row = 0%nat.
Proof.
  intros (cells & -> & _ & Hall). apply concat_no_newline, Forall_fmap.
  eapply Forall_impl; [exact Hall|]. intros [[[r g] b] c] (? & ? & ? & ?). simpl.
  apply sprintf_cell_no_newline; lia || assumption.
Qed.

End Decimal.

(** ** The output stage of main *)

Section MainOutput.

Lemma printed_output_from (art : list string) (out : string) :
  foldl (λ out line, out +:+ line +:+ Main.newline) out art
  = out +:+ Main.printed_output art.
Proof.
  unfold Main.printed_output. revert out.
  induction art as [|line art IH]; intros out; simpl.
  - by rewrite string_app_nil_r.
  - rewrite IH, (IH (EmptyString +:+ _)).
    change (EmptyString +:+ line +:+ Main.newline) with (line +:+ Main.newline).
    by rewrite !string_app_assoc.
Qed.

Lemma printed_output_cons (line : string) (art : list string) :
  Main.printed_output (line :: art) = line +:+ Main.newline +:+ Main.printed_output art.
Proof.
  unfold Main.printed_output at 1. simpl. rewrite printed_output_from.
  change (EmptyString +:+ line +:+ Main.newline) with (line +:+ Main.newline).
  by rewrite string_app_assoc.
Qed.

(** Saving and printing give the same bytes unless there is no row. *)
Lemma saved_is_printed (art : list string) :
  art ≠ [] → Main.saved_output art = Main.printed_output art.
Proof.
  unfold Main.saved_output. induction art as [|line art IH]; [done|]. intros _.
  rewrite printed_output_cons. destruct art as [|line' art].
  - reflexivity.
  - rewrite <- IH by done.
    change (Main.strings_Join (line :: line' :: art) Main.newline)
      with (line +:+ Main.newline +:+ Main.strings_Join (line' :: art) Main.newline).
    by rewrite !string_app_assoc.
Qed.

Lemma printed_output_newlines (art : list string) :
  Forall (λ row, count_newlines row = 0%nat) art →
  count_newlines (Main.printed_output art) = length art.
Proof.
  induction 1 as [|row art Hrow _ IH]; [reflexivity|].
  rewrite printed_output_cons, !count_newlines_app, Hrow, IH. reflexivity.
Qed.

End MainOutput.

(** X13 (main of part_001 and part_002, lines 56-79): on a valid input, in
    either mode, what [-save] writes to the file, [strings.Join(art, "\n")]
    plus a final line feed, is byte for byte what the loop of
    [fmt.Println] writes to the standard output, and it holds exactly
    [height] line feeds: one line per row.  For an empty [art], which the
    conversions never return, the two would differ. *)
Theorem X13_saved_file_is_printed_text
    (color : bool) (img : Image) (width : Z) (scale : float64) (height : Z)
    (order : list Z) :
  config_ok img width height →
  outputHeight (Dy img) width (Dx img) scale = Some height →
  Parallel.schedule height order →
  (∃ art, Main.parallel_art color img width scale order = Some art
          ∧ Main.saved_output art = Main.printed_output art
          ∧ Z.of_nat (count_newlines (Main.saved_output art)) = height)
  ∧ (∃ art, Main.sequential_art color img width scale = Some art
            ∧ Main.saved_output art = Main.printed_output art
            ∧ Z.of_nat (count_newlines (Main.saved_output art)) = height)
  ∧ Main.saved_output [] ≠ Main.printed_output [].
Proof.
  intros Hconfig Hh Hsched.
  assert (0 < height) as Hpos.
  { destruct Hconfig as (_ & _ & _ & _ & Hd). unfold dim_ok in Hd. lia. }
  assert (0 ≤ width) as Hw.
  { destruct Hconfig as (_ & _ & _ & Hd & _). unfold dim_ok in Hd. lia. }
  assert (∀ art : list string,
            Z.of_nat (length art) = height →
            Forall (λ row, count_newlines row = 0%nat) art →
            Main.saved_output art = Main.printed_output art
            ∧ Z.of_nat (count_newlines (Main.saved_output art)) = height) as Hout.
  { intros art Hlen Hall.
    assert (art ≠ []) as Hne by (intros ->; simpl in Hlen; lia).
    rewrite saved_is_printed by exact Hne. split; [reflexivity|].
    by rewrite printed_output_newlines. }
  split; [|split].
  - destruct color; simpl.
    + destruct (parallel_color_total img width scale height order Hconfig Hh Hsched)
        as (art & Hart & Hlen & Hall).
      exists art. split; [exact Hart|]. apply Hout; [exact Hlen|].
      eapply Forall_impl; [exact Hall|]. apply color_row_no_newline.
    + destruct (parallel_plain_total img width scale height order Hconfig Hh Hsched)
        as (art & Hart & Hlen & Hall).
      exists art. split; [exact Hart|]. apply Hout; [exact Hlen|].
      eapply Forall_impl; [exact Hall|]. apply plain_row_no_newline.
  - unfold Main.sequential_art, Sequential.toASCII, Sequential.colorASCII.
    rewrite Hh, !bind_Some.
    destruct (pixel_rows_total img width height) as [Hplain Hcolor];
      [apply Hconfig|exact Hw| |].
    { destruct Hconfig as (_ & _ & _ & _ & Hd). unfold dim_ok in Hd. lia. }
    destruct color.
    + destruct Hcolor as (art & Hart & Hlen & Hall).
      exists art. split; [exact Hart|]. apply Hout; [exact Hlen|].
      eapply Forall_impl; [exact Hall|]. apply color_row_no_newline.
    + destruct Hplain as (art & Hart & Hlen & Hall).
      exists art. split; [exact Hart|]. apply Hout; [exact Hlen|].
      eapply Forall_impl; [exact Hall|]. apply plain_row_no_newline.
  - vm_compute. intros H. discriminate H.
Qed.

Lemma X13_saved_file_is_printed_text_witness :
  config_ok split22 4 2
  ∧ outputHeight (Dy split22) 4 (Dx split22) f0_5 = Some 2
  ∧ Parallel.schedule 2 [1; 0]
  ∧ ∃ art, Main.parallel_art true split22 4 f0_5 [1; 0] = Some art
           ∧ Main.saved_output art = Main.printed_output art
           ∧ Z.of_nat (count_newlines (Main.saved_output art)) = 2.
Proof.
  assert (config_ok split22 4 2) as Hc by (apply config_split22; unfold dim_ok; lia).
  assert (outputHeight (Dy split22) 4 (Dx split22) f0_5 = Some 2) as Hh
    by (vm_compute; reflexivity).
  assert (Parallel.schedule 2 [1; 0]) as Hs by (vm_compute; apply perm_swap).
  destruct (X13_saved_file_is_printed_text true split22 4 f0_5 2 [1; 0] Hc Hh Hs)
    as (Hp & _).
  split; [exact Hc|]. split; [exact Hh|]. split; [exact Hs|exact Hp].
Defined.

(** ** Colour rows against plain rows *)

Section PairedRows.

Lemma concat_bytes (glyphs : list ascii) :
  concat_strings (string_of_byte <$> glyphs) = string_of_list_ascii glyphs.
Proof.
  induction glyphs as [|c glyphs IH]; [reflexivity|].
  rewrite fmap_cons. unfold concat_strings in *. rewrite foldr_cons, IH. reflexivity.
Qed.

Lemma paired_cells (plain color : Z → option string) (l : list Z) :
  (∀ x, x ∈ l → ∃ r g b c,
     plain x = Some (string_of_byte c) ∧ color x = Some (sprintf_cell r g b c)) →
  ∃ cells : list (Z * Z * Z * ascii),
    length cells = length l
    ∧ (λ x, default EmptyString (plain x)) <$> l = string_of_byte <$> (cell_glyph <$> cells)
    ∧ (λ x, default EmptyString (color x)) <$> l = cell_text <$> cells.
Proof.
  induction l as [|x l IH]; intros Hcells.
  { exists []. done. }
  destruct (Hcells x ltac:(left)) as (r & g & b & c & Hp & Hc).
  destruct IH as (cells & Hlen & Hplain & Hcolor); [intros; apply Hcells; by right|].
  exists ((r, g, b, c) :: cells). rewrite !fmap_cons, Hp, Hc, Hplain, Hcolor.
  split; [simpl; by rewrite Hlen|]. split; reflexivity.
Qed.

Lemma paired_rows (plain color : Z → option string) (width : Z) :
  0 ≤ width →
  (∀ x, 0 ≤ x < width → ∃ r g b c,
     plain x = Some (string_of_byte c) ∧ color x = Some (sprintf_cell r g b c)) →
  ∃ cells : list (Z * Z * Z * ascii),
    Z.of_nat (length cells) = width
    ∧ build_line width plain = Some (string_of_list_ascii (cell_glyph <$> cells))
    ∧ build_line width color = Some (concat_strings (cell_text <$> cells)).
Proof.
  intros Hw Hcells.
  destruct (paired_cells plain color (seqZ 0 width)) as (cells & Hlen & Hplain & Hcolor).
  { intros x Hx%elem_of_seqZ. apply Hcells. lia. }
  exists cells. rewrite length_seqZ in Hlen. split; [lia|].
  rewrite !build_line_total.
  - rewrite Hplain, Hcolor, concat_bytes. split; reflexivity.
  - intros x Hx. destruct (Hcells x Hx) as (r & g & b & c & _ & ->). eauto.
  - intros x Hx. destruct (Hcells x Hx) as (r & g & b & c & -> & _). eauto.
Qed.

End PairedRows.

(** X14 (part_001 toASCII against colorASCII, part_002 and main.go
    likewise): colour mode changes no character.  For every row of a valid
    input there is one list of cells such that the plain row is the row of
    their glyphs and the colour row is the same glyphs, each between its
    truecolor escape and a reset. *)
Theorem X14_color_mode_keeps_glyphs
    (img : Image) (width height rowIndex : Z) :
  config_ok img width height → 0 ≤ rowIndex < height →
  (∃ cells : list (Z * Z * Z * ascii),
     Z.of_nat (length cells) = width
     ∧ Parallel.plain_row img width height rowIndex
       = Some (string_of_list_ascii (cell_glyph <$> cells))
     ∧ Parallel.color_row img width height rowIndex
       = Some (concat_strings (cell_text <$> cells)))
  ∧ (∃ cells : list (Z * Z * Z * ascii),
       Z.of_nat (length cells) = width
       ∧ build_line width (λ x, pixel_cell img width height x rowIndex)
         = Some (string_of_list_ascii (cell_glyph <$> cells))
       ∧ build_line width (λ x, pixel_color_cell img width height x rowIndex)
         = Some (concat_strings (cell_text <$> cells))).
Proof.
  intros Hconfig Hrow.
  assert (0 ≤ width) as Hw.
  { destruct Hconfig as (_ & _ & _ & Hd & _). unfold dim_ok in Hd. lia. }
  split.
  - apply paired_rows; [exact Hw|]. intros x Hx.
    destruct (color_cell_ok img width height Hconfig rowIndex x)
      as (a & char & Ha & Hc & _ & Hcol & _); [done|].
    eexists _, _, _, char. split; [|exact Hcol].
    unfold Parallel.plain_cell. rewrite Ha, bind_Some, Hc, bind_Some. reflexivity.
  - apply paired_rows; [exact Hw|]. intros x Hx.
    destruct (pixel_cells_agree img width height x rowIndex) as (char & Hp & Hc & _);
      [apply Hconfig|].
    eexists _, _, _, char. split; [exact Hp|exact Hc].
Qed.

Lemma X14_color_mode_keeps_glyphs_witness :
  config_ok split22 2 1
  ∧ ∃ cells : list (Z * Z * Z * ascii),
      Z.of_nat (length cells) = 2
      ∧ Parallel.plain_row split22 2 1 0
        = Some (string_of_list_ascii (cell_glyph <$> cells))
      ∧ Parallel.color_row split22 2 1 0
        = Some (concat_strings (cell_text <$> cells)).
Proof.
  assert (config_ok split22 2 1) as Hc by (apply config_split22; unfold dim_ok; lia).
  destruct (X14_color_mode_keeps_glyphs split22 2 1 0 Hc) as [Hp _]; [lia|].
  split; [exact Hc|exact Hp].
Defined.

(** ** The text of a colour cell *)

Section CellText.

Lemma pretty_length_byte (n : Z) :
  0 ≤ n ≤ 255 → (1 ≤ String.length (pretty n) ≤ 3)%nat.
Proof.
  intros Hn.
  assert (forallb (λ n : Z, let l := String.length (pretty n) in
                            (1 <=? l)%nat && (l <=? 3)%nat) (seqZ 0 256) = true) as Hall
    by (vm_compute; reflexivity).
  rewrite forallb_forall in Hall. specialize (Hall n).
  assert (In n (seqZ 0 256)) as Hin by (apply list_elem_of_In, elem_of_seqZ; lia).
  apply Hall in Hin. cbv zeta in Hin. apply andb_true_iff in Hin as [H1 H3].
  apply Nat.leb_le in H1, H3. lia.
Qed.

Lemma sprintf_cell_length (r g b : Z) (c : ascii) :
  String.length (sprintf_cell r g b c)
  = (15 + String.length (pretty r) + String.length (pretty g)
     + String.length (pretty b))%nat.
Proof.
  unfold sprintf_cell. rewrite !string_length_app. simpl. lia.
Qed.

Lemma color_row_length (width : Z) (row : string) :
  color_row_shape width row →
  18 * width ≤ Z.of_nat (String.length row) ≤ 24 * width.
Proof.
  intros (cells & -> & <- & Hall). induction Hall as [|[[[r g] b] c] cells Hcell _ IH].
  { simpl. lia. }
  rewrite fmap_cons. unfold concat_strings in *. rewrite foldr_cons.
  rewrite string_length_app, sprintf_cell_length.
  destruct Hcell as (Hr & Hg & Hb & _).
  pose proof (pretty_length_byte r Hr). pose proof (pretty_length_byte g Hg).
  pose proof (pretty_length_byte b Hb). simpl length. lia.
Qed.

(** Splitting at the first character that is not a digit. *)
Lemma digits_split (s1 s2 t1 t2 : string) (sep : ascii) :
  Forall is_digit (list_ascii_of_string s1) →
  Forall is_digit (list_ascii_of_string s2) →
  ¬ is_digit sep →
  s1 +:+ String sep t1 = s2 +:+ String sep t2 → s1 = s2 ∧ t1 = t2.
Proof.
  intros H1 H2 Hsep. revert s2 H2.
  induction s1 as [|a s1 IH]; intros [|a2 s2] H2 Heq.
  - injection Heq as ->. done.
  - injection Heq as -> _. simpl in H2. apply Forall_cons in H2 as [H2 _]. done.
  - injection Heq as -> _. simpl in H1. apply Forall_cons in H1 as [H1 _]. done.
  - injection Heq as -> Heq. simpl in H1, H2.
    apply Forall_cons in H1 as [_ H1]. apply Forall_cons in H2 as [_ H2].
    destruct (IH H1 s2 H2 Heq) as [-> ->]. done.
Qed.

End CellText.

(** X17 (colorASCII of part_001, part_002 and main.go, the Sprintf line):
    a colour cell is 15 bytes plus the decimal digits of its three
    components, between 18 and 24 bytes, so every row returned in colour
    mode on a valid input is between [18 * width] and [24 * width] bytes
    long, against [width] bytes in plain mode. *)
Theorem X17_color_row_byte_length
    (img : Image) (width : Z) (scale : float64) (height : Z) (order : list Z) :
  config_ok img width height →
  outputHeight (Dy img) width (Dx img) scale = Some height →
  Parallel.schedule height order →
  (∃ rows, Parallel.colorASCII img width scale order = Some rows
           ∧ Forall (λ row, 18 * width ≤ Z.of_nat (String.length row) ≤ 24 * width) rows)
  ∧ (∃ rows, Sequential.colorASCII img width scale = Some rows
             ∧ Forall (λ row, 18 * width ≤ Z.of_nat (String.length row) ≤ 24 * width) rows)
  ∧ (∃ rows, Parallel.toASCII img width scale order = Some rows
             ∧ Forall (λ row, Z.of_nat (String.length row) = width) rows).
Proof.
  intros Hconfig Hh Hsched. split; [|split].
  - destruct (parallel_color_total img width scale height order Hconfig Hh Hsched)
      as (rows & Hr & _ & Hall).
    exists rows. split; [exact Hr|].
    eapply Forall_impl; [exact Hall|]. apply color_row_length.
  - destruct (pixel_rows_total img width height) as [_ (rows & Hr & _ & Hall)].
    { apply Hconfig. }
    { destruct Hconfig as (_ & _ & _ & Hd & _). unfold dim_ok in Hd. lia. }
    { destruct Hconfig as (_ & _ & _ & _ & Hd). unfold dim_ok in Hd. lia. }
    exists rows. unfold Sequential.colorASCII. rewrite Hh, bind_Some.
    split; [exact Hr|]. eapply Forall_impl; [exact Hall|]. apply color_row_length.
  - destruct (parallel_plain_total img width scale height order Hconfig Hh Hsched)
      as (rows & Hr & _ & Hall).
    exists rows. split; [exact Hr|].
    eapply Forall_impl; [exact Hall|]. by intros row [Hlen _].
Qed.

Lemma X17_color_row_byte_length_witness :
  config_ok split22 4 2
  ∧ outputHeight (Dy split22) 4 (Dx split22) f0_5 = Some 2
  ∧ Parallel.schedule 2 [1; 0]
  ∧ ∃ rows, Parallel.colorASCII split22 4 f0_5 [1; 0] = Some rows
            ∧ Forall (λ row, 18 * 4 ≤ Z.of_nat (String.length row) ≤ 24 * 4) rows.
Proof.
  assert (config_ok split22 4 2) as Hc by (apply config_split22; unfold dim_ok; lia).
  assert (outputHeight (Dy split22) 4 (Dx split22) f0_5 = Some 2) as Hh
    by (vm_compute; reflexivity).
  assert (Parallel.schedule 2 [1; 0]) as Hs by (vm_compute; apply perm_swap).
  destruct (X17_color_row_byte_length split22 4 f0_5 2 [1; 0] Hc Hh Hs) as (Hp & _).
  split; [exact Hc|]. split; [exact Hh|]. split; [exact Hs|exact Hp].
Defined.

(** X18 (the Sprintf line of every colorASCII): the text of a colour cell
    determines its colour and its glyph: two cells with components that are
    not negative have the same text only if they have the same red, green
    and blue components and the same character. *)
Theorem X18_cell_text_determines_cell
    (r g b r' g' b' : Z) (c c' : ascii) :
  0 ≤ r → 0 ≤ g → 0 ≤ b → 0 ≤ r' → 0 ≤ g' → 0 ≤ b' →
  sprintf_cell r g b c = sprintf_cell r' g' b' c' →
  r = r' ∧ g = g' ∧ b = b' ∧ c = c'.
Proof.
  intros Hr Hg Hb Hr' Hg' Hb' Heq. unfold sprintf_cell in Heq.
  apply (inj (String.app truecolor_prefix)) in Heq.
  assert (¬ is_digit ";"%char) as Hsemi.
  { unfold is_digit. simpl. intros H. repeat destruct H as [H|H]; discriminate H || done. }
  assert (¬ is_digit "m"%char) as Hm.
  { unfold is_digit. simpl. intros H. repeat destruct H as [H|H]; discriminate H || done. }
  change (";" +:+ ?s)%string with (String ";"%char s) in Heq.
  apply digits_split in Heq as [Hpr Heq]; [|by apply pretty_digits..|exact Hsemi].
  apply digits_split in Heq as [Hpg Heq]; [|by apply pretty_digits..|exact Hsemi].
  change ("m" +:+ ?s)%string with (String "m"%char s) in Heq.
  apply digits_split in Heq as [Hpb Heq]; [|by apply pretty_digits..|exact Hm].
  apply (inj pretty) in Hpr, Hpg, Hpb.
  unfold string_of_byte in Heq. injection Heq as ->. done.
Qed.

Lemma X18_cell_text_determines_cell_witness :
  sprintf_cell 255 0 7 "@" = sprintf_cell 255 0 7 "@"
  ∧ (255 = 255 ∧ 0 = 0 ∧ 7 = 7 ∧ "@"%char = "@"%char).
Proof.
  split; [reflexivity|].
  apply (X18_cell_text_determines_cell 255 0 7 255 0 7 "@" "@"); lia || reflexivity.
Defined.

(** ** Operands the height computation cannot handle *)

Section UndefinedHeight.

Lemma int_of_float64_not_finite (f : float64) :
  (∃ s, f = S754_infinity s) ∨ f = S754_nan → int_of_float64 f = None.
Proof. intros [[s ->]| ->]; reflexivity. Qed.

Lemma float64_mul_not_finite_r (x y : float64) :
  (∃ s, y = S754_infinity s) ∨ y = S754_nan →
  (∃ s, float64_mul x y = S754_infinity s) ∨ float64_mul x y = S754_nan.
Proof.
  intros [[s ->]| ->]; destruct x as [sx|sx| |sx mx ex]; simpl; eauto.
Qed.

Lemma float64_mul_not_finite_l (x y : float64) :
  (∃ s, x = S754_infinity s) ∨ x = S754_nan →
  (∃ s, float64_mul x y = S754_infinity s) ∨ float64_mul x y = S754_nan.
Proof.
  intros [[s ->]| ->]; destruct y as [sy|sy| |sy my ey]; simpl; eauto.
Qed.

Lemma float64_div_by_zero (x : float64) (s : bool) :
  (∃ s', float64_div x (S754_zero s) = S754_infinity s')
  ∨ float64_div x (S754_zero s) = S754_nan.
Proof. destruct x as [sx|sx| |sx mx ex]; simpl; eauto. Qed.

End UndefinedHeight.

(** X19 (the line [height := int(float64(imgHeight) * float64(width) /
    float64(imgWidth) * scale)] of every variant): neither the scale nor
    the image width is validated.  For a scale that is NaN or infinite, and
    for an image of width 0, the float64 value converted to [int] is NaN or
    infinite whatever the other operands are, so the result of the
    conversion is left to the implementation: the height is not defined. *)
Theorem X19_undefined_height
    (imgHeight width imgWidth : Z) (scale : float64) :
  ((∃ s, scale = S754_infinity s) ∨ scale = S754_nan) ∨ imgWidth = 0 →
  let value :=
    float64_mul
      (float64_div (float64_mul (float64_of_int imgHeight) (float64_of_int width))
         (float64_of_int imgWidth))
      scale in
  ((∃ s, value = S754_infinity s) ∨ value = S754_nan)
  ∧ int_of_float64 value = None
  ∧ outputHeight imgHeight width imgWidth scale = None.
Proof.
  intros Hbad value.
  assert ((∃ s, value = S754_infinity s) ∨ value = S754_nan) as Hvalue.
  { unfold value. destruct Hbad as [Hscale| ->].
    - by apply float64_mul_not_finite_r.
    - apply float64_mul_not_finite_l.
      change (float64_of_int 0) with (S754_zero false). apply float64_div_by_zero. }
  split; [exact Hvalue|]. split; [by apply int_of_float64_not_finite|].
  unfold outputHeight. fold value. by rewrite int_of_float64_not_finite.
Qed.

Lemma X19_undefined_height_witness :
  outputHeight 2 4 2 S754_nan = None
  ∧ outputHeight 2 4 0 f0_15 = None.
Proof.
  destruct (X19_undefined_height 2 4 2 S754_nan) as (_ & _ & Ha);
    [left; right; reflexivity|].
  destruct (X19_undefined_height 2 4 0 f0_15) as (_ & _ & Hb);
    [right; reflexivity|].
  split; [exact Ha|exact Hb].
Defined.
